(** * Glitch Synthesizer: a shallow embedding of [src/App.tsx]

    The component [GlitchSynthesizer] keeps React state ([isPlaying],
    [videoSrc], [isRecording], [params]), a handful of refs, and talks to
    the browser: the 2D canvas context, [Math.random],
    [requestAnimationFrame], the video element and [MediaRecorder].

    Modelling choices, kept close to the code:
    - JavaScript numbers are carried as rationals ([Q]), and the geometry of
      the render loop computes with them as the code does, in IEEE 754
      binary64: every [+], [-], [*], [/] of "2. Base Video Draw" and
      "3. Glitch Slices" reads its operands as the doubles nearest to them
      and rounds its result to nearest, ties to even ([fl]).  The model is
      the finite part of binary64 (subnormals included): [Infinity] and
      [NaN] do not occur, so division is only meaningful for a non-zero
      divisor and the geometric statements assume positive frame dimensions.
      Numbers that reach the context as text (the overlay's alpha, the
      filter percentages) are kept as written.
    - The integer-valued DOM attributes ([canvas.width],
      [video.videoWidth], [readyState], ...) are [Z].
    - The component and the browser objects it reaches form one record,
      [World]; every handler is a computation in a state-and-exception
      monad over it.
    - [Math.random] is the hidden global of the source: the world carries
      the sequence of values it is going to return and a cursor into it.
    - The canvas never reads its pixels back, so its contents are kept as
      the list of context calls issued since the bitmap was last reset;
      [paint] gives those calls their pixel meaning.  What the browser's
      rasteriser does (image draws, filters, blend modes, and the precision
      at which a fill is composited and stored) is a parameter, [Platform].
    - CSS filter and colour strings are kept as structured values. *)

From Stdlib Require Import ZArith QArith Qminmax Qround Qpower Qabs List String Bool Lia Lqa.
From stdpp Require Import base list gmap.
Import ListNotations.
Open Scope Q_scope.

(** ** Numbers *)

(** [a < b] on JavaScript numbers, as a boolean. *)
Definition Qltb (a b : Q) : bool := negb (Qle_bool b a).

(** *** Binary64 arithmetic

    A finite double is [m * 2^q] with [|m| < 2^53] and [q >= -1074].  [fl]
    rounds a rational to the nearest such number, ties to the even
    mantissa: [ilog2] finds the binade, [qexp] the exponent of its last
    place (held at [-1074] in the subnormal range), [rne] rounds the scaled
    mantissa to an integer. *)

(** The floor of the binary logarithm of a positive rational. *)
Definition ilog2 (x : Q) : Z :=
  let k := (Z.log2 (Qnum x) - Z.log2 (Zpos (Qden x)))%Z in
  if Qle_bool (2 ^ k) x then k else (k - 1)%Z.

(** Round to the nearest integer, ties to even. *)
Definition rne (y : Q) : Z :=
  let f := Qfloor y in
  match Qcompare (y - inject_Z f) (1 # 2) with
  | Lt => f
  | Gt => (f + 1)%Z
  | Eq => if Z.even f then f else (f + 1)%Z
  end.

Definition qexp (x : Q) : Z := Z.max (ilog2 x - 52) (-1074).

Definition round_pos (x : Q) : Q :=
  inject_Z (rne (x / 2 ^ qexp x)) * 2 ^ qexp x.

(** The double nearest to [x]. *)
Definition fl (x : Q) : Q :=
  let y := Qred x in
  Qred match Qcompare y 0 with
       | Eq => 0
       | Gt => round_pos y
       | Lt => - round_pos (- y)
       end.

(** The arithmetic operators of the code on numbers. *)
Definition fadd (a b : Q) : Q := fl (fl a + fl b).
Definition fsub (a b : Q) : Q := fl (fl a - fl b).
Definition fmul (a b : Q) : Q := fl (fl a * fl b).
Definition fdiv (a b : Q) : Q := fl (fl a / fl b).

Arguments fl x : simpl never.
Arguments fadd a b : simpl never.
Arguments fsub a b : simpl never.
Arguments fmul a b : simpl never.
Arguments fdiv a b : simpl never.

(** [x] is a double. *)
Definition is_double (x : Q) : Prop := fl x == x.

(** ** Effect parameters (the [params] state) *)

Record Params := mkParams {
  threshold : Q;
  brightness : Q;
  chaos : Q;
  slices : Q;
  displacement : Q;
  feedback : Q;
  invertChance : Q;
  scale : Q;
  zoomGlitch : Q
}.

(** The literal passed to [useState] and to [setParams] in [resetParams]. *)
Definition defaultParams : Params :=
  {| threshold := 200; brightness := 100; chaos := 1 # 2; slices := 5;
     displacement := 50; feedback := 1 # 10; invertChance := 1 # 10;
     scale := 1; zoomGlitch := 1 # 10 |}.

(** ** The video element *)

Record Video := mkVideo {
  readyState : Z;
  videoWidth : Z;
  videoHeight : Z;
  paused : bool;
  currentFrame : nat   (* names the decoded picture a [drawImage] would read *)
}.

(** ** The 2D context *)

Inductive CompositeOp := SourceOver | Screen | Difference.

Inductive FilterFn :=
| Contrast (pct : Q)
| Brightness (pct : Q)
| Grayscale (pct : Q)
| Invert (pct : Q).

(** A [ctx.filter] value; the empty chain is ["none"]. *)
Definition Filter := list FilterFn.

(** An [rgba(r, g, b, a)] colour. *)
Inductive Style := Rgba (r g b : Z) (a : Q).

(** What [createImageData] returns, seen through the [Uint32Array] view. *)
Record ImageData := mkImageData {
  iwidth : Z;
  iheight : Z;
  buffer32 : list Z
}.

Inductive CtxCall :=
| Save
| Restore
| SetGlobalCompositeOperation (op : CompositeOp)
| SetFilter (f : Filter)
| SetFillStyle (s : Style)
| SetStrokeStyle (s : Style)
| SetLineWidth (lw : Q)
| FillRect (x y w h : Z)
| PutImageData (idata : ImageData) (dx dy : Z)
| DrawImage5 (frame : nat) (dx dy dWidth dHeight : Q)
| DrawImage9 (frame : nat) (sx sy sWidth sHeight dx dy dWidth dHeight : Q)
| StrokeRect (x y w h : Q).

(** The canvas element: its size and the context calls made since its
    bitmap was last reset (assigning [width] or [height] resets it). *)
Record Canvas := mkCanvas {
  width : Z;
  height : Z;
  calls : list CtxCall
}.

Definition set_width (v : Z) (c : Canvas) : Canvas :=
  {| width := v; height := height c; calls := [] |}.
Definition set_height (v : Z) (c : Canvas) : Canvas :=
  {| width := width c; height := v; calls := [] |}.
Definition issue (cs : list CtxCall) (c : Canvas) : Canvas :=
  {| width := width c; height := height c; calls := calls c ++ cs |}.

(** ** The recorder objects *)

Definition Chunk := list Byte.byte.

(** [RecInactive]: constructed, [start()] not yet called.
    [RecRecording]: [state] is ["recording"].  [RecStopping]: [stop()] has
    been called, [state] is ["inactive"], the last [dataavailable] and the
    [stop] event are still to be dispatched.  [RecStopped]: the [stop]
    event has been dispatched. *)
Inductive RecState := RecInactive | RecRecording | RecStopping | RecStopped.

Record Recorder := mkRecorder {
  rec_state : RecState;
  rec_mimeType : string;
  rec_frameRate : Z
}.

Record Download := mkDownload {
  d_name : string;
  d_type : string;
  d_bytes : list Byte.byte
}.

(** ** The world *)

Record World := mkWorld {
  (* React state *)
  isPlaying : bool;
  videoSrc : string;
  isRecording : bool;
  params : Params;
  (* refs *)
  videoRef : option Video;
  canvasRef : option Canvas;
  animationRef : option nat;
  containerRef : option (Z * Z);        (* clientWidth, clientHeight *)
  recorderRef : option nat;
  recordedChunksRef : list Chunk;
  (* the browser *)
  random_seq : nat -> Q;                (* what Math.random() will return *)
  random_pos : nat;
  raf_pending : list nat;               (* requested animation frames *)
  raf_next : nat;
  recorders : gmap nat Recorder;
  console : list string;
  downloads : list Download
}.

Definition set_isPlaying (v : bool) (w : World) : World :=
  mkWorld v (videoSrc w) (isRecording w) (params w) (videoRef w) (canvasRef w)
    (animationRef w) (containerRef w) (recorderRef w) (recordedChunksRef w)
    (random_seq w) (random_pos w) (raf_pending w) (raf_next w) (recorders w)
    (console w) (downloads w).
Definition set_videoSrc (v : string) (w : World) : World :=
  mkWorld (isPlaying w) v (isRecording w) (params w) (videoRef w) (canvasRef w)
    (animationRef w) (containerRef w) (recorderRef w) (recordedChunksRef w)
    (random_seq w) (random_pos w) (raf_pending w) (raf_next w) (recorders w)
    (console w) (downloads w).
Definition set_isRecording (v : bool) (w : World) : World :=
  mkWorld (isPlaying w) (videoSrc w) v (params w) (videoRef w) (canvasRef w)
    (animationRef w) (containerRef w) (recorderRef w) (recordedChunksRef w)
    (random_seq w) (random_pos w) (raf_pending w) (raf_next w) (recorders w)
    (console w) (downloads w).
Definition set_params (v : Params) (w : World) : World :=
  mkWorld (isPlaying w) (videoSrc w) (isRecording w) v (videoRef w) (canvasRef w)
    (animationRef w) (containerRef w) (recorderRef w) (recordedChunksRef w)
    (random_seq w) (random_pos w) (raf_pending w) (raf_next w) (recorders w)
    (console w) (downloads w).
Definition set_videoRef (v : option Video) (w : World) : World :=
  mkWorld (isPlaying w) (videoSrc w) (isRecording w) (params w) v (canvasRef w)
    (animationRef w) (containerRef w) (recorderRef w) (recordedChunksRef w)
    (random_seq w) (random_pos w) (raf_pending w) (raf_next w) (recorders w)
    (console w) (downloads w).
Definition set_canvasRef (v : option Canvas) (w : World) : World :=
  mkWorld (isPlaying w) (videoSrc w) (isRecording w) (params w) (videoRef w) v
    (animationRef w) (containerRef w) (recorderRef w) (recordedChunksRef w)
    (random_seq w) (random_pos w) (raf_pending w) (raf_next w) (recorders w)
    (console w) (downloads w).
Definition set_animationRef (v : option nat) (w : World) : World :=
  mkWorld (isPlaying w) (videoSrc w) (isRecording w) (params w) (videoRef w)
    (canvasRef w) v (containerRef w) (recorderRef w) (recordedChunksRef w)
    (random_seq w) (random_pos w) (raf_pending w) (raf_next w) (recorders w)
    (console w) (downloads w).
Definition set_recorderRef (v : option nat) (w : World) : World :=
  mkWorld (isPlaying w) (videoSrc w) (isRecording w) (params w) (videoRef w)
    (canvasRef w) (animationRef w) (containerRef w) v (recordedChunksRef w)
    (random_seq w) (random_pos w) (raf_pending w) (raf_next w) (recorders w)
    (console w) (downloads w).
Definition set_recordedChunksRef (v : list Chunk) (w : World) : World :=
  mkWorld (isPlaying w) (videoSrc w) (isRecording w) (params w) (videoRef w)
    (canvasRef w) (animationRef w) (containerRef w) (recorderRef w) v
    (random_seq w) (random_pos w) (raf_pending w) (raf_next w) (recorders w)
    (console w) (downloads w).
Definition set_random_pos (v : nat) (w : World) : World :=
  mkWorld (isPlaying w) (videoSrc w) (isRecording w) (params w) (videoRef w)
    (canvasRef w) (animationRef w) (containerRef w) (recorderRef w)
    (recordedChunksRef w) (random_seq w) v (raf_pending w) (raf_next w)
    (recorders w) (console w) (downloads w).
Definition set_raf (pending : list nat) (next : nat) (w : World) : World :=
  mkWorld (isPlaying w) (videoSrc w) (isRecording w) (params w) (videoRef w)
    (canvasRef w) (animationRef w) (containerRef w) (recorderRef w)
    (recordedChunksRef w) (random_seq w) (random_pos w) pending next
    (recorders w) (console w) (downloads w).
Definition set_recorders (v : gmap nat Recorder) (w : World) : World :=
  mkWorld (isPlaying w) (videoSrc w) (isRecording w) (params w) (videoRef w)
    (canvasRef w) (animationRef w) (containerRef w) (recorderRef w)
    (recordedChunksRef w) (random_seq w) (random_pos w) (raf_pending w)
    (raf_next w) v (console w) (downloads w).
Definition set_console (v : list string) (w : World) : World :=
  mkWorld (isPlaying w) (videoSrc w) (isRecording w) (params w) (videoRef w)
    (canvasRef w) (animationRef w) (containerRef w) (recorderRef w)
    (recordedChunksRef w) (random_seq w) (random_pos w) (raf_pending w)
    (raf_next w) (recorders w) v (downloads w).
Definition set_downloads (v : list Download) (w : World) : World :=
  mkWorld (isPlaying w) (videoSrc w) (isRecording w) (params w) (videoRef w)
    (canvasRef w) (animationRef w) (containerRef w) (recorderRef w)
    (recordedChunksRef w) (random_seq w) (random_pos w) (raf_pending w)
    (raf_next w) (recorders w) (console w) v.

(** ** Handlers as computations *)

Inductive Exn := TypeError | IndexSizeError | InvalidStateError.

Inductive Outcome (A : Type) :=
| Ok (a : A) (w : World)
| Throw (e : Exn) (w : World).
Arguments Ok {A} a w.
Arguments Throw {A} e w.

Definition M (A : Type) := World -> Outcome A.

Definition ret {A} (a : A) : M A := fun w => Ok a w.
Definition bind {A B} (m : M A) (k : A -> M B) : M B :=
  fun w => match m w with
           | Ok a w' => k a w'
           | Throw e w' => Throw e w'
           end.
Definition throw {A} (e : Exn) : M A := fun w => Throw e w.
Definition get {A} (f : World -> A) : M A := fun w => Ok (f w) w.
Definition modify (f : World -> World) : M unit := fun w => Ok tt (f w).

Declare Scope js_scope.
Delimit Scope js_scope with js.
Notation "x <- m ;; k" := (bind m (fun x => k))
  (at level 100, m at next level, k at level 200, right associativity) : js_scope.
Notation "m ;; k" := (bind m (fun _ => k))
  (at level 100, k at level 200, right associativity) : js_scope.
Open Scope js_scope.

(** The world an outcome ends in, whether it returned or threw. *)
Definition world_of {A} (o : Outcome A) : World :=
  match o with Ok _ w => w | Throw _ w => w end.

Definition returns {A} (o : Outcome A) : bool :=
  match o with Ok _ _ => true | Throw _ _ => false end.

(** ** Browser primitives *)

Definition Math_random : M Q :=
  fun w => Ok (random_seq w (random_pos w)) (set_random_pos (S (random_pos w)) w).

Definition requestAnimationFrame : M nat :=
  fun w => Ok (raf_next w) (set_raf (raf_pending w ++ [raf_next w]) (S (raf_next w)) w).

Definition cancelAnimationFrame (handle : option nat) : M unit :=
  match handle with
  | Some id => modify (fun w => set_raf (filter (fun x => x <> id) (raf_pending w)) (raf_next w) w)
  | None => ret tt
  end.

Definition console_error (msg : string) : M unit :=
  modify (fun w => set_console (console w ++ [msg]) w).

(** Calls on the context of the canvas held by [canvasRef]. *)
Definition ctx (cs : list CtxCall) : M unit :=
  fun w => match canvasRef w with
           | Some c => Ok tt (set_canvasRef (Some (issue cs c)) w)
           | None => Throw TypeError w
           end.

Definition canvas_now : M Canvas :=
  fun w => match canvasRef w with
           | Some c => Ok c w
           | None => Throw TypeError w
           end.

(** [ctx.createImageData(w, h)]: transparent black, and an [IndexSizeError]
    when either dimension is zero. *)
Definition createImageData (w h : Z) : M ImageData :=
  if ((w =? 0) || (h =? 0))%Z then throw IndexSizeError
  else ret {| iwidth := Z.abs w; iheight := Z.abs h;
              buffer32 := repeat 0%Z (Z.to_nat (Z.abs w * Z.abs h)) |}.

(** ** [renderLoop] *)

(** "Resize handling": the canvas follows its container. *)
Definition resize_handling : M unit :=
  fun w =>
    match containerRef w, canvasRef w with
    | Some (clientWidth, clientHeight), Some c =>
        if (negb (width c =? clientWidth) || negb (height c =? clientHeight))%Z
        then Ok tt (set_canvasRef (Some (set_height clientHeight (set_width clientWidth c))) w)
        else Ok tt w
    | _, _ => Ok tt w
    end.

(** The static-noise loop over the [Uint32Array], [n] cells from index [i]. *)
Fixpoint noise_loop (n : nat) (i : nat) (buf : list Z) : M (list Z) :=
  match n with
  | O => ret buf
  | S n' =>
      u <- Math_random ;;
      noise_loop n' (S i) (if Qltb u (1 # 10) then <[i := 0xff1a1a1a%Z]> buf else buf)
  end.

(** The locals of "2. Base Video Draw" ([coverScale] is the local [scale]),
    in the code's double arithmetic; [Math.max] is exact. *)
Definition coverScale (w h vw vh : Z) (p : Params) : Q :=
  fmul (Qmax (fdiv (inject_Z w) (inject_Z vw)) (fdiv (inject_Z h) (inject_Z vh))) (scale p).
Definition drawW (w h vw vh : Z) (p : Params) : Q :=
  fmul (inject_Z vw) (coverScale w h vw vh p).
Definition drawH (w h vw vh : Z) (p : Params) : Q :=
  fmul (inject_Z vh) (coverScale w h vw vh p).
Definition offsetX (w h vw vh : Z) (p : Params) : Q :=
  fdiv (fsub (inject_Z w) (drawW w h vw vh p)) 2.
Definition offsetY (w h vw vh : Z) (p : Params) : Q :=
  fdiv (fsub (inject_Z h) (drawH w h vw vh p)) 2.

Definition baseFilter (p : Params) : Filter :=
  [Contrast (threshold p); Brightness (brightness p); Grayscale 100].
Definition invertFilter (p : Params) : Filter :=
  [Invert 100; Contrast (threshold p); Grayscale 100].

(** [const r = (min, max) => Math.random() * (max - min) + min]. *)
Definition r (min max : Q) : M Q :=
  u <- Math_random ;; ret (fadd (fmul u (fsub max min)) min).

(** One iteration of the "3. Glitch Slices" loop.  The values [Math.random]
    returns are doubles; parameters and literals are read as the doubles
    nearest to them. *)
Definition slice_attempt (video : Video) (p : Params) (sc offX offY : Q) : M unit :=
  let vw := inject_Z (videoWidth video) in
  let vh := inject_Z (videoHeight video) in
  u <- Math_random ;;
  if Qltb (fsub 1 (chaos p)) u then
    ctx [Save] ;;
    ui <- Math_random ;;
    (if Qltb ui (fl (invertChance p))
     then ctx [SetFilter (invertFilter p); SetGlobalCompositeOperation Difference]
     else ctx [SetFilter (baseFilter p); SetGlobalCompositeOperation SourceOver]) ;;
    u1 <- Math_random ;; let sx := fmul u1 vw in
    u2 <- Math_random ;; let sy := fmul u2 vh in
    u3 <- Math_random ;; let sWidth := fmul u3 (fdiv vw 2) in
    u4 <- Math_random ;; let sHeight := fmul u4 (fdiv vh 2) in
    rx <- r (- displacement p) (displacement p) ;;
    let dx := fadd (fadd (fmul sx sc) offX) rx in
    ry <- r (- displacement p) (displacement p) ;;
    let dy := fadd (fadd (fmul sy sc) offY) ry in
    uz <- Math_random ;; let z := fadd 1 (fmul uz (zoomGlitch p)) in
    let dWidth := fmul (fmul sWidth sc) z in
    let dHeight := fmul (fmul sHeight sc) z in
    ctx [DrawImage9 (currentFrame video) sx sy sWidth sHeight dx dy dWidth dHeight] ;;
    us <- Math_random ;;
    (if Qltb us (fl (3 # 10))
     then ctx [SetStrokeStyle (Rgba 255 255 255 1); SetLineWidth 2;
               StrokeRect dx dy dWidth dHeight]
     else ret tt) ;;
    ctx [Restore]
  else ret tt.

Fixpoint slice_loop (n : nat) (video : Video) (p : Params) (sc offX offY : Q) : M unit :=
  match n with
  | O => ret tt
  | S n' => slice_attempt video p sc offX offY ;; slice_loop n' video p sc offX offY
  end.

(** [animationRef.current = requestAnimationFrame(renderLoop)]. *)
Definition schedule_next : M unit :=
  id <- requestAnimationFrame ;; modify (set_animationRef (Some id)).

(** The number of passes of [for (let i = 0; i < params.slices; i++)]. *)
Definition slice_count (p : Params) : nat := Z.to_nat (Qceiling (slices p)).

Definition renderLoop : M unit :=
  canvas <- get canvasRef ;;
  video <- get videoRef ;;
  match canvas, video with
  | Some _, Some video =>
      resize_handling ;;
      c <- canvas_now ;;
      let w := width c in
      let h := height c in
      p <- get params ;;
      (* 1. Feedback / Trails *)
      ctx [SetGlobalCompositeOperation SourceOver;
           SetFillStyle (Rgba 0 0 0 (1 - feedback p));
           FillRect 0 0 w h] ;;
      if (readyState video <? 2)%Z then
        src <- get videoSrc ;;
        (if String.eqb src ""
         then idata <- createImageData w h ;;
              buf <- noise_loop (length (buffer32 idata)) 0 (buffer32 idata) ;;
              ctx [PutImageData {| iwidth := iwidth idata; iheight := iheight idata;
                                   buffer32 := buf |} 0 0]
         else ret tt) ;;
        schedule_next
      else
        (* 2. Base Video Draw *)
        let vw := videoWidth video in
        let vh := videoHeight video in
        ctx [Save; SetFilter (baseFilter p);
             SetGlobalCompositeOperation Screen;
             DrawImage5 (currentFrame video) (offsetX w h vw vh p) (offsetY w h vw vh p)
                        (drawW w h vw vh p) (drawH w h vw vh p);
             Restore] ;;
        (* 3. Glitch Slices *)
        slice_loop (slice_count p) video p (coverScale w h vw vh p)
                   (offsetX w h vw vh p) (offsetY w h vw vh p) ;;
        schedule_next
  | _, _ => ret tt
  end.

(** The browser runs a requested frame: the request leaves the pending list,
    then the callback runs. *)
Definition tick (id : nat) : M unit :=
  modify (fun w => set_raf (filter (fun x => x <> id) (raf_pending w)) (raf_next w) w) ;;
  renderLoop.

Fixpoint ticks (n : nat) : M unit :=
  match n with
  | O => ret tt
  | S n' => renderLoop ;; ticks n'
  end.

(** ** Playback handlers *)

(** [video.play()] with its promise reactions.  Whether playback starts is
    the platform's decision ([accepts]); a refusal rejects the promise, with
    a [NotAllowedError] under an autoplay policy.  The reaction runs where
    the call is made: no handler here reads what the rest of its caller
    writes. *)
Definition video_play (accepts : bool) (on_fulfilled : M unit) (on_rejected : string -> M unit)
  : M unit :=
  v <- get videoRef ;;
  match v with
  | Some v =>
      if accepts
      then modify (set_videoRef (Some {| readyState := readyState v;
                                         videoWidth := videoWidth v;
                                         videoHeight := videoHeight v;
                                         paused := false;
                                         currentFrame := currentFrame v |})) ;;
           on_fulfilled
      else on_rejected "NotAllowedError"%string
  | None => throw TypeError
  end.

Definition video_pause : M unit :=
  v <- get videoRef ;;
  match v with
  | Some v => modify (set_videoRef (Some {| readyState := readyState v;
                                            videoWidth := videoWidth v;
                                            videoHeight := videoHeight v;
                                            paused := true;
                                            currentFrame := currentFrame v |}))
  | None => throw TypeError
  end.

(** [handleFileUpload]: [file] is [e.target.files[0]], given by the object
    URL [URL.createObjectURL] makes for it. *)
Definition handleFileUpload (file : option string) : M unit :=
  match file with
  | Some url => modify (set_videoSrc url) ;; modify (set_isPlaying true)
  | None => ret tt
  end.

Definition togglePlay (accepts : bool) : M unit :=
  v <- get videoRef ;;
  playing <- get isPlaying ;;
  match v with
  | Some _ =>
      (if playing then video_pause
       else video_play accepts (ret tt) console_error) ;;
      modify (set_isPlaying (negb playing))
  | None => ret tt
  end.

Definition resetParams : M unit := modify (set_params defaultParams).

(** [useEffect(..., [isPlaying, renderLoop])]: its body and its cleanup. *)
Definition effect_playing : M unit :=
  playing <- get isPlaying ;;
  if playing then schedule_next
  else (h <- get animationRef ;; cancelAnimationFrame h).

Definition effect_playing_cleanup : M unit :=
  h <- get animationRef ;; cancelAnimationFrame h.

(** [useEffect(..., [videoSrc])]. *)
Definition effect_videoSrc (accepts : bool) : M unit :=
  src <- get videoSrc ;;
  v <- get videoRef ;;
  match v with
  | Some _ =>
      if String.eqb src "" then ret tt
      else video_play accepts (modify (set_isPlaying true)) console_error
  | None => ret tt
  end.

(** ** Recording *)

(** [new MediaRecorder(stream, { mimeType })] on a stream captured at
    [frameRate]; the constructor is taken to accept the MIME type. *)
Definition new_MediaRecorder (frameRate : Z) (mimeType : string) : M nat :=
  fun w =>
    let rid := fresh (dom (recorders w)) in
    Ok rid (set_recorders (<[rid := {| rec_state := RecInactive;
                                       rec_mimeType := mimeType;
                                       rec_frameRate := frameRate |}]> (recorders w)) w).

Definition with_state (s : RecState) (rc : Recorder) : Recorder :=
  {| rec_state := s; rec_mimeType := rec_mimeType rc; rec_frameRate := rec_frameRate rc |}.

(** [recorder.start()]. *)
Definition recorder_start (rid : nat) : M unit :=
  fun w =>
    match recorders w !! rid with
    | Some rc =>
        match rec_state rc with
        | RecInactive => Ok tt (set_recorders (<[rid := with_state RecRecording rc]> (recorders w)) w)
        | _ => Throw InvalidStateError w
        end
    | None => Throw TypeError w
    end.

(** [recorder.stop()], as the MediaStream Recording standard has it: nothing
    happens when [state] is ["inactive"]; otherwise [state] becomes
    ["inactive"] and the final [dataavailable] and the [stop] event are
    queued. *)
Definition recorder_stop (rid : nat) : M unit :=
  fun w =>
    match recorders w !! rid with
    | Some rc =>
        match rec_state rc with
        | RecRecording => Ok tt (set_recorders (<[rid := with_state RecStopping rc]> (recorders w)) w)
        | _ => Ok tt w
        end
    | None => Throw TypeError w
    end.

(** The two handlers [startRecording] installs.  Both reach the chunk
    buffer through [recordedChunksRef.current] when they run. *)
Definition ondataavailable (data : Chunk) : M unit :=
  if (0 <? length data)%nat
  then modify (fun w => set_recordedChunksRef (recordedChunksRef w ++ [data]) w)
  else ret tt.

Definition onstop : M unit :=
  modify (set_isRecording false) ;;
  chunks <- get recordedChunksRef ;;
  modify (fun w => set_downloads
                     (downloads w ++ [ {| d_name := "glitch_effect.webm"%string;
                                          d_type := "video/webm"%string;
                                          d_bytes := concat chunks |} ]) w).

Definition startRecording : M unit :=
  modify (set_isRecording true) ;;
  canvas <- get canvasRef ;;
  match canvas with
  | Some _ =>
      recorder <- new_MediaRecorder 30 "video/webm; codecs=vp9"%string ;;
      modify (set_recordedChunksRef []) ;;
      recorder_start recorder ;;
      modify (set_recorderRef (Some recorder))
  | None => throw TypeError
  end.

Definition stopRecording : M unit :=
  current <- get recorderRef ;;
  match current with
  | Some rid => recorder_stop rid
  | None => ret tt
  end.

(** Events the platform dispatches on a recorder. *)
Inductive Event :=
| DataAvailable (rid : nat) (data : Chunk)
| Stopped (rid : nat).

(** When the platform may dispatch an event: data while recording or while
    finishing, the [stop] event once [stop()] has been called. *)
Definition can_fire (e : Event) (w : World) : bool :=
  match e with
  | DataAvailable rid _ =>
      match rec_state <$> recorders w !! rid with
      | Some RecRecording | Some RecStopping => true
      | _ => false
      end
  | Stopped rid =>
      match rec_state <$> recorders w !! rid with
      | Some RecStopping => true
      | _ => false
      end
  end.

Definition fire (e : Event) : M unit :=
  match e with
  | DataAvailable _ data => ondataavailable data
  | Stopped rid =>
      modify (fun w => set_recorders (alter (with_state RecStopped) rid (recorders w)) w) ;;
      onstop
  end.

(** What can happen to the recording sink, one step at a time. *)
Inductive Action :=
| CallStart
| CallStop
| Fire (e : Event).

Definition act (a : Action) : M unit :=
  match a with
  | CallStart => startRecording
  | CallStop => stopRecording
  | Fire e => fire e
  end.

Fixpoint run (acts : list Action) : M unit :=
  match acts with
  | [] => ret tt
  | a :: rest => act a ;; run rest
  end.

Definition is_start (a : Action) : bool :=
  match a with CallStart => true | _ => false end.

(** The chunks the actions deliver, in order. *)
Fixpoint delivered (acts : list Action) : list Chunk :=
  match acts with
  | [] => []
  | Fire (DataAvailable _ data) :: rest => data :: delivered rest
  | _ :: rest => delivered rest
  end.

Definition non_empty (data : Chunk) : bool := (0 <? length data)%nat.

(** The sink is idle: no recorder was ever installed, or the installed one
    has dispatched its [stop] event. *)
Definition sink_idle (w : World) : Prop :=
  match recorderRef w with
  | None => True
  | Some rid => rec_state <$> recorders w !! rid = Some RecStopped
  end.

(** ** What the context calls paint *)

(** A pixel of the opaque canvas ([getContext('2d', { alpha: false })]):
    three channels in the range 0..255.  How finely a channel is stored is
    the platform's business (see [Platform]), so a channel is a rational. *)
Record RGB := mkRGB { red : Q; green : Q; blue : Q }.

Definition Bitmap := Z -> Z -> RGB.

Record CtxState := mkCtx {
  globalCompositeOperation : CompositeOp;
  ctx_filter : Filter;
  fillStyle : Style;
  strokeStyle : Style;
  lineWidth : Q
}.

Definition ctx_default : CtxState :=
  {| globalCompositeOperation := SourceOver; ctx_filter := [];
     fillStyle := Rgba 0 0 0 1; strokeStyle := Rgba 0 0 0 1; lineWidth := 1 |}.

Record Painter := mkPainter {
  p_ctx : CtxState;
  p_saved : list CtxState;
  p_bitmap : Bitmap
}.

Definition clamp01 (a : Q) : Q := Qmax 0 (Qmin 1 a).

(** "source-over" of a colour onto an opaque pixel, as the compositing
    standard defines it: the exact value, before any rounding by the
    platform. *)
Definition source_over (s : Style) (dst : RGB) : RGB :=
  match s with
  | Rgba r g b a =>
      let alpha := clamp01 a in
      {| red := inject_Z r * alpha + red dst * (1 - alpha);
         green := inject_Z g * alpha + green dst * (1 - alpha);
         blue := inject_Z b * alpha + blue dst * (1 - alpha) |}
  end.

(** A cell of the [Uint32Array] view (little-endian R, G, B, A bytes) as a
    pixel of the opaque canvas. *)
Definition pixel_of_word (v : Z) : RGB :=
  {| red := inject_Z (Z.land v 255);
     green := inject_Z (Z.land (Z.shiftr v 8) 255);
     blue := inject_Z (Z.land (Z.shiftr v 16) 255) |}.

Definition inside (px py x y w h : Z) : bool :=
  ((x <=? px) && (px <? x + w) && (y <=? py) && (py <? y + h))%Z.

Definition black : RGB := {| red := 0; green := 0; blue := 0 |}.

Definition rgb_eq (a b : RGB) : Prop :=
  red a == red b /\ green a == green b /\ blue a == blue b.

Definition rgb_scale (k : Q) (a : RGB) : RGB :=
  {| red := red a * k; green := green a * k; blue := blue a * k |}.

(** The browser's part in painting.  [rasterize] is its rasteriser for what
    is not spelled out in [paint]: image draws, strokes, and fills under a
    filter or a blend mode.  [fill_over] is what it stores in a pixel when
    a fill colour is composited over it with "source-over": [source_over]
    up to the precision of its arithmetic and of its bitmap (real canvases
    hold 8 bits per channel). *)
Record Platform := mkPlatform {
  rasterize : CtxState -> CtxCall -> Bitmap -> Bitmap;
  fill_over : Style -> RGB -> RGB
}.

Section Raster.

Variable platform : Platform.

Definition with_bitmap (b : Bitmap) (p : Painter) : Painter :=
  {| p_ctx := p_ctx p; p_saved := p_saved p; p_bitmap := b |}.
Definition with_ctx (s : CtxState) (p : Painter) : Painter :=
  {| p_ctx := s; p_saved := p_saved p; p_bitmap := p_bitmap p |}.

Definition paint (p : Painter) (c : CtxCall) : Painter :=
  let s := p_ctx p in
  match c with
  | Save => {| p_ctx := s; p_saved := s :: p_saved p; p_bitmap := p_bitmap p |}
  | Restore =>
      match p_saved p with
      | s' :: rest => {| p_ctx := s'; p_saved := rest; p_bitmap := p_bitmap p |}
      | [] => p
      end
  | SetGlobalCompositeOperation op =>
      with_ctx (mkCtx op (ctx_filter s) (fillStyle s) (strokeStyle s) (lineWidth s)) p
  | SetFilter f =>
      with_ctx (mkCtx (globalCompositeOperation s) f (fillStyle s) (strokeStyle s) (lineWidth s)) p
  | SetFillStyle st =>
      with_ctx (mkCtx (globalCompositeOperation s) (ctx_filter s) st (strokeStyle s) (lineWidth s)) p
  | SetStrokeStyle st =>
      with_ctx (mkCtx (globalCompositeOperation s) (ctx_filter s) (fillStyle s) st (lineWidth s)) p
  | SetLineWidth lw =>
      with_ctx (mkCtx (globalCompositeOperation s) (ctx_filter s) (fillStyle s) (strokeStyle s) lw) p
  | FillRect x y w h =>
      match globalCompositeOperation s, ctx_filter s with
      | SourceOver, [] =>
          with_bitmap (fun px py =>
                         if inside px py x y w h
                         then fill_over platform (fillStyle s) (p_bitmap p px py)
                         else p_bitmap p px py) p
      | _, _ => with_bitmap (rasterize platform s c (p_bitmap p)) p
      end
  | PutImageData idata dx dy =>
      with_bitmap (fun px py =>
                     if inside px py dx dy (iwidth idata) (iheight idata)
                     then pixel_of_word
                            (nth (Z.to_nat ((py - dy) * iwidth idata + (px - dx)))
                                 (buffer32 idata) 0%Z)
                     else p_bitmap p px py) p
  | DrawImage5 _ _ _ _ _ | DrawImage9 _ _ _ _ _ _ _ _ _ | StrokeRect _ _ _ _ =>
      with_bitmap (rasterize platform s c (p_bitmap p)) p
  end.

Definition paint_all (p : Painter) (cs : list CtxCall) : Painter :=
  fold_left paint cs p.

(** The canvas after a reset: default context state, opaque black. *)
Definition blank : Painter :=
  {| p_ctx := ctx_default; p_saved := []; p_bitmap := fun _ _ => black |}.

(** The state of the surface: what its calls have painted. *)
Definition contents (c : Canvas) : Painter := paint_all blank (calls c).

Definition pixel (c : Canvas) (x y : Z) : RGB := p_bitmap (contents c) x y.

End Raster.

(** The canvas a computation leaves in [canvasRef]. *)
Definition canvas_of {A} (o : Outcome A) : option Canvas := canvasRef (world_of o).

(** The [k]-th value [Math.random] returns from world [w] on. *)
Definition draw (w : World) (k : nat) : Q := random_seq w (k + random_pos w).

(** ** Sample worlds *)

(** The mounted component: both handles attached, nothing recording. *)
Definition mounted (c : Canvas) (v : Video) (src : string) (p : Params)
           (rng : nat -> Q) : World :=
  {| isPlaying := true; videoSrc := src; isRecording := false; params := p;
     videoRef := Some v; canvasRef := Some c; animationRef := None;
     containerRef := Some (width c, height c);
     recorderRef := None; recordedChunksRef := [];
     random_seq := rng; random_pos := 0; raf_pending := []; raf_next := 0;
     recorders := ∅; console := []; downloads := [] |}.

Definition no_signal : Video :=
  {| readyState := 0; videoWidth := 0; videoHeight := 0; paused := true; currentFrame := 0 |}.

Definition clip (vw vh : Z) : Video :=
  {| readyState := 4; videoWidth := vw; videoHeight := vh; paused := false; currentFrame := 1 |}.

Definition fresh_canvas (w h : Z) : Canvas := {| width := w; height := h; calls := [] |}.

(** A canvas of one white pixel. *)
Definition white_pixel : Canvas :=
  {| width := 1; height := 1;
     calls := [PutImageData {| iwidth := 1; iheight := 1; buffer32 := [0xffffffff%Z] |} 0 0] |}.


(** ** Vocabulary of the statements *)

(** The canvas once "Resize handling" has run. *)
Definition fitted (w : World) (c : Canvas) : Canvas :=
  match containerRef w with
  | Some (clientWidth, clientHeight) =>
      if (negb (width c =? clientWidth) || negb (height c =? clientHeight))%Z
      then set_height clientHeight (set_width clientWidth c)
      else c
  | None => c
  end.

(** The calls of "1. Feedback / Trails". *)
Definition fade_calls (p : Params) (w h : Z) : list CtxCall :=
  [SetGlobalCompositeOperation SourceOver;
   SetFillStyle (Rgba 0 0 0 (1 - feedback p));
   FillRect 0 0 w h].

(** The calls of "2. Base Video Draw". *)
Definition base_calls (v : Video) (p : Params) (w h : Z) : list CtxCall :=
  [Save; SetFilter (baseFilter p);
   SetGlobalCompositeOperation Screen;
   DrawImage5 (currentFrame v)
              (offsetX w h (videoWidth v) (videoHeight v) p)
              (offsetY w h (videoWidth v) (videoHeight v) p)
              (drawW w h (videoWidth v) (videoHeight v) p)
              (drawH w h (videoWidth v) (videoHeight v) p);
   Restore].

(** A canvas with further calls issued. *)
Definition extended (c : Canvas) (cs : list CtxCall) : Canvas :=
  {| width := width c; height := height c; calls := calls c ++ cs |}.

(** A world whose canvas and random cursor have moved. *)
Definition upd (c : Canvas) (k : nat) (w : World) : World :=
  set_random_pos k (set_canvasRef (Some c) w).

(** What the noise loop leaves in a cell whose draw was [u], and in the
    first [n] cells of a zeroed buffer. *)
Definition noise_word (u : Q) : Z := if Qltb u (1 # 10) then 0xff1a1a1a%Z else 0%Z.
Definition noise_buffer (w : World) (n : nat) : list Z :=
  map (fun j => noise_word (draw w j)) (seq 0 n).

(** The canvas already has the size of its container. *)
Definition fits (w : World) (c : Canvas) : bool :=
  match containerRef w with
  | Some (clientWidth, clientHeight) =>
      ((width c =? clientWidth) && (height c =? clientHeight))%Z
  | None => true
  end.

(** Two platforms for concrete evaluations.  Neither draws images.
    [no_raster] composites fills exactly; [eight_bit] stores whole levels,
    dropping the fraction, as a canvas with 8 bits per channel may. *)
Definition no_raster : Platform :=
  {| rasterize := fun _ _ b => b; fill_over := source_over |}.

Definition whole_levels (a : RGB) : RGB :=
  {| red := inject_Z (Qfloor (red a)); green := inject_Z (Qfloor (green a));
     blue := inject_Z (Qfloor (blue a)) |}.

Definition eight_bit : Platform :=
  {| rasterize := fun _ _ b => b;
     fill_over := fun s dst => whole_levels (source_over s dst) |}.

(** A random sequence whose first value is [first] and the rest [others]. *)
Definition first_then (first others : Q) : nat -> Q :=
  fun k => match k with O => first | S _ => others end.

(** A trace is admissible when the platform may dispatch each of its events
    at the moment it occurs. *)
Fixpoint admissible (acts : list Action) (w : World) : bool :=
  match acts with
  | [] => true
  | a :: rest =>
      match a with Fire e => can_fire e w | _ => true end
      && admissible rest (world_of (act a w))
  end.

(** The file the [stop] handler offers for download. *)
Definition artifact (bytes : list Byte.byte) : Download :=
  {| d_name := "glitch_effect.webm"; d_type := "video/webm"; d_bytes := bytes |}.

(** The same world with the canvas handle gone ([canvasRef.current] is
    [null]). *)
Definition unmounted_canvas (w : World) : World := set_canvasRef None w.

(** The world after one complete recording session with nothing captured. *)
Definition after_one_session (w : World) : World :=
  world_of (run [CallStart; CallStop; Fire (Stopped (fresh (dom (recorders w))))] w).

(** Whether a source is configured: what [if (!videoSrc)] tests. *)
Definition source_configured (w : World) : bool := negb (String.eqb (videoSrc w) "").

(** What a tick reads of the video element: the frame's readiness, its
    size and its picture. *)
Definition frame_data (v : Video) : Z * Z * Z * nat :=
  (readyState v, videoWidth v, videoHeight v, currentFrame v).

Definition frame_of (w : World) : option (Z * Z * Z * nat) :=
  option_map frame_data (videoRef w).

(** Two worlds that agree on what a tick reads: the surface, the frame,
    the container, the parameters, whether a source is configured, and the
    values [Math.random] is going to return. *)
Definition agree (w1 w2 : World) : Prop :=
  canvasRef w1 = canvasRef w2 /\ frame_of w1 = frame_of w2
  /\ containerRef w1 = containerRef w2 /\ params w1 = params w2
  /\ source_configured w1 = source_configured w2
  /\ forall k, draw w1 k = draw w2 k.

Definition alike {A} (o1 o2 : Outcome A) : Prop :=
  match o1, o2 with
  | Ok a1 w1, Ok a2 w2 => a1 = a2 /\ agree w1 w2
  | Throw e1 w1, Throw e2 w2 => e1 = e2 /\ agree w1 w2
  | _, _ => False
  end.

(** Two computations that, from agreeing worlds, end alike; and a
    computation that does so with itself. *)
Definition similar {A} (m1 m2 : M A) : Prop :=
  forall w1 w2, agree w1 w2 -> alike (m1 w1) (m2 w2).

Definition deterministic {A} (m : M A) : Prop := similar m m.

(** The two recording buttons: [onClick] of "Record" and of
    "Stop & Download". *)
Definition clickRecord : M unit :=
  recording <- get isRecording ;;
  if recording then stopRecording else startRecording.

Definition clickStopDownload : M unit := stopRecording.

(** What happens to the sink when it is driven through the buttons. *)
Inductive Gesture :=
| PressRecord
| PressStopDownload
| Dispatch (e : Event).

Definition gesture (g : Gesture) : M unit :=
  match g with
  | PressRecord => clickRecord
  | PressStopDownload => clickStopDownload
  | Dispatch e => fire e
  end.

Definition may_occur (g : Gesture) (w : World) : bool :=
  match g with
  | Dispatch e => can_fire e w
  | _ => true
  end.

(** A recorder that has not completed is the installed one, and then
    [isRecording] is set; the installed recorder exists. *)
Definition one_session_at_a_time (w : World) : Prop :=
  (forall r rc, recorders w !! r = Some rc -> rec_state rc <> RecStopped ->
                isRecording w = true /\ recorderRef w = Some r)
  /\ (forall rid, recorderRef w = Some rid -> is_Some (recorders w !! rid)).

(** Calls that leave the context's state and its stack of saved states as
    they found them. *)
Definition balanced (cs : list CtxCall) : Prop :=
  forall R p, p_ctx (paint_all R p cs) = p_ctx p /\ p_saved (paint_all R p cs) = p_saved p.

(** Calls that may change the blend mode or the styles but leave the filter
    and the stack of saved states as they found them. *)
Definition quiet (cs : list CtxCall) : Prop :=
  forall R p, ctx_filter (p_ctx (paint_all R p cs)) = ctx_filter (p_ctx p)
              /\ p_saved (paint_all R p cs) = p_saved p.

(** A surface whose context has no filter set and no saved state. *)
Definition clean (R : Platform) (c : Canvas) : Prop :=
  ctx_filter (p_ctx (contents R c)) = [] /\ p_saved (contents R c) = [].

(** A world in which the next frame has been requested. *)
Definition scheduled (w : World) : World :=
  set_animationRef (Some (raf_next w))
    (set_raf (raf_pending w ++ [raf_next w]) (S (raf_next w)) w).

(** ** Further handlers and vocabulary *)

(** The "PLAY" and "PAUSE" buttons: both are disabled while no source is
    configured, and each calls [togglePlay] only from the opposite state. *)
Definition clickPlay (accepts : bool) : M unit :=
  src <- get videoSrc ;;
  playing <- get isPlaying ;;
  if String.eqb src "" then ret tt
  else if playing then ret tt else togglePlay accepts.

Definition clickPause : M unit :=
  src <- get videoSrc ;;
  playing <- get isPlaying ;;
  if String.eqb src "" then ret tt
  else if playing then togglePlay true else ret tt.

(** Choosing a file: [handleFileUpload], then the [videoSrc] effect that
    the new source triggers. *)
Definition upload (file : option string) (accepts : bool) : M unit :=
  match file with
  | Some url => handleFileUpload (Some url) ;; effect_videoSrc accepts
  | None => handleFileUpload None
  end.

(** The sliders: [onChange={v => setParams(p => ({ ...p, field: v }))}]. *)
Inductive Field :=
| FThreshold | FBrightness | FChaos | FSlices | FDisplacement
| FFeedback | FInvertChance | FScale | FZoomGlitch.

Definition with_field (f : Field) (v : Q) (p : Params) : Params :=
  match f with
  | FThreshold => mkParams v (brightness p) (chaos p) (slices p) (displacement p)
                           (feedback p) (invertChance p) (scale p) (zoomGlitch p)
  | FBrightness => mkParams (threshold p) v (chaos p) (slices p) (displacement p)
                            (feedback p) (invertChance p) (scale p) (zoomGlitch p)
  | FChaos => mkParams (threshold p) (brightness p) v (slices p) (displacement p)
                       (feedback p) (invertChance p) (scale p) (zoomGlitch p)
  | FSlices => mkParams (threshold p) (brightness p) (chaos p) v (displacement p)
                        (feedback p) (invertChance p) (scale p) (zoomGlitch p)
  | FDisplacement => mkParams (threshold p) (brightness p) (chaos p) (slices p) v
                              (feedback p) (invertChance p) (scale p) (zoomGlitch p)
  | FFeedback => mkParams (threshold p) (brightness p) (chaos p) (slices p)
                          (displacement p) v (invertChance p) (scale p) (zoomGlitch p)
  | FInvertChance => mkParams (threshold p) (brightness p) (chaos p) (slices p)
                              (displacement p) (feedback p) v (scale p) (zoomGlitch p)
  | FScale => mkParams (threshold p) (brightness p) (chaos p) (slices p)
                       (displacement p) (feedback p) (invertChance p) v (zoomGlitch p)
  | FZoomGlitch => mkParams (threshold p) (brightness p) (chaos p) (slices p)
                            (displacement p) (feedback p) (invertChance p) (scale p) v
  end.

Definition slide (f : Field) (v : Q) : M unit :=
  modify (fun w => set_params (with_field f v (params w)) w).

Fixpoint slides (moves : list (Field * Q)) : M unit :=
  match moves with
  | [] => ret tt
  | (f, v) :: rest => slide f v ;; slides rest
  end.

(** A computation that leaves an observation of the world as it was,
    whether it returns or throws. *)
Definition keeps {A B} (f : World -> B) (m : M A) : Prop :=
  forall w, f (world_of (m w)) = f w.

(** What a tick has no business with: the React state, the frame source,
    the container, the recording sink, the log and the downloads. *)
Definition beside_the_surface (w : World) :=
  (isPlaying w, videoSrc w, isRecording w, params w, videoRef w, containerRef w,
   recorderRef w, recordedChunksRef w, recorders w, console w, downloads w,
   random_seq w).

(** What the recording sink has no business with: the surface, the frame
    source, the play state, the parameters, the random source and the
    frame requests. *)
Definition beside_the_sink (w : World) :=
  (isPlaying w, videoSrc w, params w, videoRef w, canvasRef w, containerRef w,
   animationRef w, random_seq w, random_pos w, raf_pending w, raf_next w,
   console w).

(** The frame requests. *)
Definition frame_requests (w : World) := (raf_pending w, raf_next w, animationRef w).

(** A computation that requests no frame, or returns having requested
    exactly one and stored its handle in [animationRef]. *)
Definition requests_at_most_one {A} (m : M A) : Prop :=
  forall w,
    frame_requests (world_of (m w)) = frame_requests w
    \/ (returns (m w) = true
        /\ frame_requests (world_of (m w))
           = (raf_pending w ++ [raf_next w], S (raf_next w), Some (raf_next w))).

(** What drives the render loop: a requested frame comes due, the
    play-state effect re-runs (cleanup first, as React does), the component
    unmounts, or a handler changes the state the effect depends on. *)
Inductive LoopEvent :=
| FrameDue (id : nat)
| EffectRerun
| Unmount
| Toggle (accepts : bool)
| Upload (file : option string)
| Slide (f : Field) (v : Q)
| ResetParams.

Definition loop_event (e : LoopEvent) : M unit :=
  match e with
  | FrameDue id => tick id
  | EffectRerun => effect_playing_cleanup ;; effect_playing
  | Unmount => effect_playing_cleanup
  | Toggle accepts => togglePlay accepts
  | Upload file => handleFileUpload file
  | Slide f v => slide f v
  | ResetParams => resetParams
  end.

(** The world after a list of events; an exception thrown by one of them
    ends that event only. *)
Fixpoint after_events (evs : list LoopEvent) (w : World) : World :=
  match evs with
  | [] => w
  | e :: rest => after_events rest (world_of (loop_event e w))
  end.

(** Only a pending frame comes due. *)
Fixpoint frames_were_requested (evs : list LoopEvent) (w : World) : Prop :=
  match evs with
  | [] => True
  | e :: rest =>
      match e with FrameDue id => In id (raf_pending w) | _ => True end
      /\ frames_were_requested rest (world_of (loop_event e w))
  end.

(** At most one frame is pending, and [animationRef] holds its handle. *)
Definition one_frame (w : World) : Prop :=
  raf_pending w = [] \/ exists id, raf_pending w = [id] /\ animationRef w = Some id.

(** The nine-argument image draws among some calls. *)
Fixpoint count_slices (cs : list CtxCall) : nat :=
  match cs with
  | [] => 0
  | DrawImage9 _ _ _ _ _ _ _ _ _ :: rest => S (count_slices rest)
  | _ :: rest => count_slices rest
  end.

(** A list of gestures on the recording buttons, run in order. *)
Fixpoint gestures (gs : list Gesture) : M unit :=
  match gs with
  | [] => ret tt
  | g :: rest => gesture g ;; gestures rest
  end.

Fixpoint gestures_may_occur (gs : list Gesture) (w : World) : bool :=
  match gs with
  | [] => true
  | g :: rest => may_occur g w && gestures_may_occur rest (world_of (gesture g w))
  end.

Definition is_press (g : Gesture) : bool :=
  match g with Dispatch _ => false | _ => true end.

(** The [stop] events among some actions. *)
Fixpoint count_stops (acts : list Action) : nat :=
  match acts with
  | [] => 0
  | Fire (Stopped _) :: rest => S (count_stops rest)
  | _ :: rest => count_stops rest
  end.

(** What can happen to playback: the two buttons and an upload. *)
Inductive PlayerGesture :=
| PressPlay
| PressPause
| ChooseFile (url : string).

Definition player_gesture (accepts : bool) (g : PlayerGesture) : M unit :=
  match g with
  | PressPlay => clickPlay accepts
  | PressPause => clickPause
  | ChooseFile url => upload (Some url) accepts
  end.

Fixpoint player_gestures (accepts : bool) (gs : list PlayerGesture) : M unit :=
  match gs with
  | [] => ret tt
  | g :: rest => player_gesture accepts g ;; player_gestures accepts rest
  end.

(** Object URLs are not empty. *)
Definition real_file (g : PlayerGesture) : bool :=
  match g with ChooseFile url => negb (String.eqb url "") | _ => true end.

(** [isPlaying] says what the video element does. *)
Definition in_sync (w : World) : Prop :=
  exists v, videoRef w = Some v /\ isPlaying w = negb (paused v).

(** ** Vocabulary of the numeric statements *)

(** Two pixels whose channels differ by at most [d] levels. *)
Definition near (d : Q) (a b : RGB) : Prop :=
  Qabs (red a - red b) <= d /\ Qabs (green a - green b) <= d
  /\ Qabs (blue a - blue b) <= d.

(** A platform whose "source-over" fills are within [d] levels of the
    standard's formula, on every channel. *)
Definition accurate (d : Q) (R : Platform) : Prop :=
  forall s dst, near d (fill_over R s dst) (source_over s dst).

(** The calls of a pass of the slice loop that draws, as a function of the
    ten values [u 0 .. u 9] it takes from [Math.random] ([u 0] is the one
    the chaos test consumed). *)
Definition slice_calls (v : Video) (p : Params) (sc oX oY : Q) (u : nat -> Q)
  : list CtxCall :=
  let vw := inject_Z (videoWidth v) in
  let vh := inject_Z (videoHeight v) in
  let sx := fmul (u 2%nat) vw in
  let sy := fmul (u 3%nat) vh in
  let sWidth := fmul (u 4%nat) (fdiv vw 2) in
  let sHeight := fmul (u 5%nat) (fdiv vh 2) in
  let jx := fadd (fmul (u 6%nat) (fsub (displacement p) (- displacement p)))
                 (- displacement p) in
  let jy := fadd (fmul (u 7%nat) (fsub (displacement p) (- displacement p)))
                 (- displacement p) in
  let z := fadd 1 (fmul (u 8%nat) (zoomGlitch p)) in
  let dx := fadd (fadd (fmul sx sc) oX) jx in
  let dy := fadd (fadd (fmul sy sc) oY) jy in
  let dWidth := fmul (fmul sWidth sc) z in
  let dHeight := fmul (fmul sHeight sc) z in
  [Save]
  ++ (if Qltb (u 1%nat) (fl (invertChance p))
      then [SetFilter (invertFilter p); SetGlobalCompositeOperation Difference]
      else [SetFilter (baseFilter p); SetGlobalCompositeOperation SourceOver])
  ++ [DrawImage9 (currentFrame v) sx sy sWidth sHeight dx dy dWidth dHeight]
  ++ (if Qltb (u 9%nat) (fl (3 # 10))
      then [SetStrokeStyle (Rgba 255 255 255 1); SetLineWidth 2;
            StrokeRect dx dy dWidth dHeight]
      else [])
  ++ [Restore].

(** The random stream from its [k]-th value on. *)
Definition from (k : nat) (u : nat -> Q) : nat -> Q := fun j => u (j + k)%nat.

(** [n] passes of the slice loop as a function of the random stream: the
    calls they issue and the number of values they consume.  A pass whose
    first value is above [1 - chaos] draws and consumes ten values, any
    other pass consumes one. *)
Fixpoint slices_calls (n : nat) (v : Video) (p : Params) (sc oX oY : Q) (u : nat -> Q)
  : list CtxCall * nat :=
  match n with
  | O => ([], O)
  | S n' =>
      if Qltb (fsub 1 (chaos p)) (u O)
      then let rest := slices_calls n' v p sc oX oY (from 10 u) in
           (slice_calls v p sc oX oY u ++ fst rest, (snd rest + 10)%nat)
      else let rest := slices_calls n' v p sc oX oY (from 1 u) in
           (fst rest, (snd rest + 1)%nat)
  end.

(** * Properties *)

(** ** Binary64 rounding *)

(** *** Powers of two *)

Lemma two_pos k : 0 < 2 ^ k.
Proof. apply Qpower_0_lt. reflexivity. Qed.

Lemma two_ne k : ~ 2 ^ k == 0.
Proof. pose proof (two_pos k). lra. Qed.

Lemma two_plus a b : 2 ^ (a + b) == 2 ^ a * 2 ^ b.
Proof. apply Qpower_plus. discriminate. Qed.

Lemma two_minus a b : 2 ^ (a - b) == 2 ^ a / 2 ^ b.
Proof. apply Qpower_minus. discriminate. Qed.

Lemma two_le a b : (a <= b)%Z -> 2 ^ a <= 2 ^ b.
Proof. intros H. apply Qpower_le_compat_l; [exact H | discriminate]. Qed.

Lemma two_lt a b : (a < b)%Z -> 2 ^ a < 2 ^ b.
Proof. intros H. apply Qpower_lt_compat_l; [exact H | reflexivity]. Qed.

Lemma two_lt_inv a b : 2 ^ a < 2 ^ b -> (a < b)%Z.
Proof. intros H. apply (Qpower_lt_compat_l_inv 2); [exact H | reflexivity]. Qed.

Lemma two_Z k : (0 <= k)%Z -> inject_Z (2 ^ k) == 2 ^ k.
Proof. intros H. apply (Zpower_Qpower 2 k H). Qed.

(** *** The binade of a positive number *)

Lemma ilog2_spec x : 0 < x -> 2 ^ ilog2 x <= x /\ x < 2 ^ (ilog2 x + 1).
Proof.
  intros Hx. destruct x as [n d]. unfold ilog2. cbn [Qnum Qden].
  assert (Hn : (0 < n)%Z) by (unfold Qlt in Hx; cbn in Hx; lia).
  set (a := Z.log2 n). set (b := Z.log2 (Zpos d)).
  destruct (Z.log2_spec n Hn) as [Ha1 Ha2]. fold a in Ha1, Ha2.
  destruct (Z.log2_spec (Zpos d) ltac:(lia)) as [Hb1 Hb2]. fold b in Hb1, Hb2.
  assert (Ha0 : (0 <= a)%Z) by apply Z.log2_nonneg.
  assert (Hb0 : (0 <= b)%Z) by apply Z.log2_nonneg.
  assert (E : n # d == inject_Z n / inject_Z (Zpos d)) by apply Qmake_Qdiv.
  assert (Qa1 : 2 ^ a <= inject_Z n) by (rewrite <- two_Z by lia; rewrite <- Zle_Qle; exact Ha1).
  assert (Qa2 : inject_Z n < 2 ^ (a + 1)).
  { rewrite <- two_Z by lia. rewrite <- Zlt_Qlt. replace (a + 1)%Z with (Z.succ a) by lia. exact Ha2. }
  assert (Qb1 : 2 ^ b <= inject_Z (Zpos d)) by (rewrite <- two_Z by lia; rewrite <- Zle_Qle; exact Hb1).
  assert (Qb2 : inject_Z (Zpos d) < 2 ^ (b + 1)).
  { rewrite <- two_Z by lia. rewrite <- Zlt_Qlt. replace (b + 1)%Z with (Z.succ b) by lia. exact Hb2. }
  assert (Hd : 0 < inject_Z (Zpos d)) by reflexivity.
  set (D := inject_Z (Zpos d)) in *. set (N := inject_Z n) in *.
  assert (Lo : 2 ^ (a - b - 1) <= N / D).
  { apply Qle_shift_div_l; [exact Hd|].
    replace (a - b - 1)%Z with (a - (b + 1))%Z by lia. rewrite two_minus.
    pose proof (two_pos (b + 1)). pose proof (two_pos a).
    assert (0 < 2 ^ a / 2 ^ (b + 1)) by (apply Qlt_shift_div_l; [apply two_pos | lra]).
    assert (2 ^ a / 2 ^ (b + 1) * D <= 2 ^ a / 2 ^ (b + 1) * 2 ^ (b + 1)).
    { apply Qmult_le_l; [assumption | lra]. }
    assert (2 ^ a / 2 ^ (b + 1) * 2 ^ (b + 1) == 2 ^ a) by (field; apply two_ne).
    lra. }
  assert (Hi : N / D < 2 ^ (a - b + 1)).
  { apply Qlt_shift_div_r; [exact Hd|].
    replace (a - b + 1)%Z with (a + 1 - b)%Z by lia. rewrite two_minus.
    pose proof (two_pos b). pose proof (two_pos (a + 1)).
    assert (0 < 2 ^ (a + 1) / 2 ^ b) by (apply Qlt_shift_div_l; [apply two_pos | lra]).
    assert (2 ^ (a + 1) / 2 ^ b * 2 ^ b <= 2 ^ (a + 1) / 2 ^ b * D).
    { apply Qmult_le_l; [assumption | lra]. }
    assert (2 ^ (a + 1) / 2 ^ b * 2 ^ b == 2 ^ (a + 1)) by (field; apply two_ne).
    lra. }
  destruct (Qle_bool (2 ^ (a - b)) (n # d)) eqn:C; rewrite E.
  - apply Qle_bool_iff in C. rewrite E in C. split; assumption.
  - assert (C' : N / D < 2 ^ (a - b)).
    { apply Qnot_le_lt. intros F. rewrite <- E in F. apply Qle_bool_iff in F. congruence. }
    split; [exact Lo|]. replace (a - b - 1 + 1)%Z with (a - b)%Z by lia. exact C'.
Qed.

Lemma ilog2_unique x e : 2 ^ e <= x -> x < 2 ^ (e + 1) -> ilog2 x = e.
Proof.
  intros H1 H2.
  assert (Hx : 0 < x) by (pose proof (two_pos e); lra).
  destruct (ilog2_spec x Hx) as [G1 G2].
  assert ((ilog2 x < e + 1)%Z) by (apply two_lt_inv; lra).
  assert ((e < ilog2 x + 1)%Z) by (apply two_lt_inv; lra).
  lia.
Qed.

Lemma ilog2_compat x y : 0 < x -> x == y -> ilog2 x = ilog2 y.
Proof.
  intros Hx E. symmetry. destruct (ilog2_spec x Hx).
  apply ilog2_unique; rewrite <- E; assumption.
Qed.

Lemma ilog2_mono x y : 0 < x -> x <= y -> (ilog2 x <= ilog2 y)%Z.
Proof.
  intros Hx Hxy. destruct (ilog2_spec x Hx). destruct (ilog2_spec y ltac:(lra)).
  assert ((ilog2 x < ilog2 y + 1)%Z) by (apply two_lt_inv; lra). lia.
Qed.

(** *** Rounding to an integer *)

Lemma rne_bounds y : (Qfloor y <= rne y <= Qfloor y + 1)%Z.
Proof.
  unfold rne. destruct (Qcompare _ _); [destruct (Z.even _)| |]; lia.
Qed.

Lemma rne_Z z : rne (inject_Z z) = z.
Proof.
  unfold rne. rewrite Qfloor_Z.
  assert (E : inject_Z z - inject_Z z == 0) by ring.
  assert (C : Qcompare (inject_Z z - inject_Z z) (1 # 2) = Lt).
  { rewrite E. reflexivity. }
  rewrite C. reflexivity.
Qed.

Lemma rne_compat x y : x == y -> rne x = rne y.
Proof.
  intros E. unfold rne. rewrite (Qfloor_comp _ _ E).
  assert (E' : x - inject_Z (Qfloor y) == y - inject_Z (Qfloor y)) by (rewrite E; reflexivity).
  rewrite E'. reflexivity.
Qed.


Lemma rne_mono x y : x <= y -> (rne x <= rne y)%Z.
Proof.
  intros Hxy.
  pose proof (Qfloor_resp_le x y Hxy) as Hf.
  destruct (Z.eq_dec (Qfloor x) (Qfloor y)) as [E | N].
  - unfold rne. rewrite E.
    destruct (Qcompare (x - inject_Z (Qfloor y)) (1 # 2)) eqn:Cx;
      destruct (Qcompare (y - inject_Z (Qfloor y)) (1 # 2)) eqn:Cy;
      first [apply Qeq_alt in Cx | apply Qlt_alt in Cx | apply Qgt_alt in Cx];
      first [apply Qeq_alt in Cy | apply Qlt_alt in Cy | apply Qgt_alt in Cy];
      try destruct (Z.even _); try lia; exfalso; lra.
  - pose proof (rne_bounds x). pose proof (rne_bounds y). lia.
Qed.

Lemma rne_ge y z : inject_Z z <= y -> (z <= rne y)%Z.
Proof. intros H. rewrite <- (rne_Z z). now apply rne_mono. Qed.

Lemma rne_le y z : y <= inject_Z z -> (rne y <= z)%Z.
Proof. intros H. rewrite <- (rne_Z z). now apply rne_mono. Qed.

(** *** Rounding a positive number *)

Lemma qexp_compat x y : 0 < x -> x == y -> qexp x = qexp y.
Proof. intros Hx E. unfold qexp. now rewrite (ilog2_compat x y Hx E). Qed.

Lemma qexp_mono x y : 0 < x -> x <= y -> (qexp x <= qexp y)%Z.
Proof. intros Hx Hxy. unfold qexp. pose proof (ilog2_mono x y Hx Hxy). lia. Qed.

Lemma qexp_min x : (-1074 <= qexp x)%Z.
Proof. unfold qexp. lia. Qed.

Lemma round_pos_compat x y : 0 < x -> x == y -> round_pos x == round_pos y.
Proof.
  intros Hx E. unfold round_pos. rewrite (qexp_compat x y Hx E).
  assert (E' : x / 2 ^ qexp y == y / 2 ^ qexp y) by (rewrite E; reflexivity).
  rewrite (rne_compat _ _ E'). reflexivity.
Qed.

Lemma below_top x : 0 < x -> x < 2 ^ (qexp x + 53).
Proof.
  intros Hx. destruct (ilog2_spec x Hx) as [_ H].
  apply Qlt_le_trans with (1 := H). apply two_le. unfold qexp. lia.
Qed.

Lemma above_bottom x : 0 < x -> (-1074 < qexp x)%Z -> 2 ^ (qexp x + 52) <= x.
Proof.
  intros Hx Hq. destruct (ilog2_spec x Hx) as [H _].
  replace (qexp x + 52)%Z with (ilog2 x) by (unfold qexp in *; lia). exact H.
Qed.

Lemma scaled x q : x / 2 ^ q * 2 ^ q == x.
Proof. field. apply two_ne. Qed.

Lemma round_pos_nonneg x : 0 < x -> 0 <= round_pos x.
Proof.
  intros Hx. unfold round_pos.
  assert (H : 0 <= x / 2 ^ qexp x).
  { apply Qle_shift_div_l; [apply two_pos | lra]. }
  assert (H0 : (0 <= rne (x / 2 ^ qexp x))%Z) by (apply rne_ge; exact H).
  apply Qmult_le_0_compat; [|apply Qlt_le_weak, two_pos].
  change 0 with (inject_Z 0). rewrite <- Zle_Qle. exact H0.
Qed.

Lemma round_pos_le_top x : 0 < x -> round_pos x <= 2 ^ (qexp x + 53).
Proof.
  intros Hx. unfold round_pos. set (q := qexp x).
  assert (H : x / 2 ^ q <= inject_Z (2 ^ 53)).
  { apply Qle_shift_div_r; [apply two_pos|].
    rewrite two_Z by lia. rewrite <- two_plus.
    replace (53 + q)%Z with (q + 53)%Z by lia. apply Qlt_le_weak, below_top, Hx. }
  apply rne_le in H.
  rewrite Zle_Qle in H. rewrite two_Z in H by lia.
  rewrite Z.add_comm, two_plus.
  apply Qmult_le_compat_r; [exact H | apply Qlt_le_weak, two_pos].
Qed.

Lemma round_pos_ge_bottom x :
  0 < x -> (-1074 < qexp x)%Z -> 2 ^ (qexp x + 52) <= round_pos x.
Proof.
  intros Hx Hq. unfold round_pos. set (q := qexp x) in *.
  assert (H : inject_Z (2 ^ 52) <= x / 2 ^ q).
  { apply Qle_shift_div_l; [apply two_pos|].
    rewrite two_Z by lia. rewrite <- two_plus.
    replace (52 + q)%Z with (q + 52)%Z by lia. apply above_bottom; assumption. }
  apply rne_ge in H.
  rewrite Zle_Qle in H. rewrite two_Z in H by lia.
  rewrite Z.add_comm, two_plus.
  apply Qmult_le_compat_r; [exact H | apply Qlt_le_weak, two_pos].
Qed.

Lemma round_pos_mono x y : 0 < x -> x <= y -> round_pos x <= round_pos y.
Proof.
  intros Hx Hxy. assert (Hy : 0 < y) by lra.
  pose proof (qexp_mono x y Hx Hxy) as Hq.
  destruct (Z.eq_dec (qexp x) (qexp y)) as [E | N].
  - unfold round_pos. rewrite E.
    apply Qmult_le_compat_r; [|apply Qlt_le_weak, two_pos].
    rewrite <- Zle_Qle. apply rne_mono.
    apply Qmult_le_compat_r; [exact Hxy|].
    apply Qlt_le_weak, Qinv_lt_0_compat, two_pos.
  - apply Qle_trans with (2 ^ (qexp x + 53)); [apply round_pos_le_top, Hx|].
    apply Qle_trans with (2 ^ (qexp y + 52)).
    + apply two_le. lia.
    + apply round_pos_ge_bottom; [exact Hy|]. pose proof (qexp_min x). lia.
Qed.


Lemma round_pos_exact x m q :
  (0 < m < 2 ^ 53)%Z -> (-1074 <= q)%Z -> x == inject_Z m * 2 ^ q -> round_pos x == x.
Proof.
  intros Hm Hq E.
  assert (Hx : 0 < x).
  { rewrite E. apply Qmult_lt_0_compat; [|apply two_pos].
    change 0 with (inject_Z 0). rewrite <- Zlt_Qlt. lia. }
  assert (Hq' : (qexp x <= q)%Z).
  { destruct (ilog2_spec x Hx) as [H1 _].
    assert (x < 2 ^ (53 + q)).
    { rewrite E, two_plus. apply Qmult_lt_compat_r; [apply two_pos|].
      rewrite <- two_Z by lia. rewrite <- Zlt_Qlt. lia. }
    assert ((ilog2 x < 53 + q)%Z) by (apply two_lt_inv; lra).
    unfold qexp. lia. }
  unfold round_pos. set (q' := qexp x) in *.
  assert (Ey : x / 2 ^ q' == inject_Z (m * 2 ^ (q - q'))).
  { rewrite inject_Z_mult, two_Z by lia. rewrite two_minus, E. field.
    repeat split; apply two_ne. }
  rewrite (rne_compat _ _ Ey), rne_Z, <- Ey. apply scaled.
Qed.

(** *** Rounding *)

Lemma fl_compat x y : x == y -> fl x = fl y.
Proof. intros E. unfold fl. now rewrite (Qred_complete _ _ E). Qed.

Lemma fl_pos x : 0 < x -> fl x == round_pos x.
Proof.
  intros Hx. unfold fl. rewrite Qred_correct.
  assert (C : Qcompare (Qred x) 0 = Gt) by (apply Qgt_alt; rewrite Qred_correct; exact Hx).
  rewrite C. apply round_pos_compat; [rewrite Qred_correct; exact Hx | apply Qred_correct].
Qed.

Lemma fl_neg x : x < 0 -> fl x == - round_pos (- x).
Proof.
  intros Hx. unfold fl. rewrite Qred_correct.
  assert (C : Qcompare (Qred x) 0 = Lt) by (apply Qlt_alt; rewrite Qred_correct; exact Hx).
  rewrite C. apply Qopp_comp.
  apply round_pos_compat; [rewrite Qred_correct; lra | rewrite Qred_correct; reflexivity].
Qed.

Lemma fl_zero x : x == 0 -> fl x == 0.
Proof. intros E. rewrite (fl_compat x 0 E). reflexivity. Qed.

Lemma fl_opp x : fl (- x) == - fl x.
Proof.
  destruct (Q_dec x 0) as [[H | H] | H].
  - rewrite (fl_pos (- x)) by lra. rewrite (fl_neg x H). ring.
  - rewrite (fl_neg (- x)) by lra. rewrite (fl_pos x H).
    apply Qopp_comp, round_pos_compat; [lra | ring].
  - rewrite (fl_zero x H), (fl_zero (- x)) by (rewrite H; reflexivity). reflexivity.
Qed.

Lemma fl_nonneg x : 0 <= x -> 0 <= fl x.
Proof.
  intros H. destruct (Qle_lt_or_eq _ _ H) as [L | E].
  - rewrite (fl_pos x L). apply round_pos_nonneg, L.
  - rewrite (fl_zero x) by (symmetry; exact E). lra.
Qed.

Lemma fl_nonpos x : x <= 0 -> fl x <= 0.
Proof.
  intros H. assert (E : x == - - x) by ring.
  rewrite (fl_compat _ _ E), fl_opp.
  pose proof (fl_nonneg (- x) ltac:(lra)). lra.
Qed.

(** Rounding is monotone. *)
Lemma fl_mono x y : x <= y -> fl x <= fl y.
Proof.
  intros Hxy.
  destruct (Qlt_le_dec 0 x) as [Hx | Hx].
  - rewrite (fl_pos x Hx), (fl_pos y) by lra. now apply round_pos_mono.
  - destruct (Qlt_le_dec y 0) as [Hy | Hy].
    + rewrite (fl_neg x), (fl_neg y) by lra.
      assert (round_pos (- y) <= round_pos (- x)) by (apply round_pos_mono; lra). lra.
    + pose proof (fl_nonpos x Hx). pose proof (fl_nonneg y Hy). lra.
Qed.

Lemma double_compat x y : x == y -> is_double x -> is_double y.
Proof. unfold is_double. intros E H. rewrite <- (fl_compat _ _ E), H. exact E. Qed.

Lemma double_0 : is_double 0.
Proof. reflexivity. Qed.

Lemma double_opp x : is_double x -> is_double (- x).
Proof. unfold is_double. intros H. rewrite fl_opp, H. reflexivity. Qed.

Lemma double_scaled m q :
  (Z.abs m <= 2 ^ 53)%Z -> (-1074 <= q)%Z -> is_double (inject_Z m * 2 ^ q).
Proof.
  assert (P : forall m q, (0 < m <= 2 ^ 53)%Z -> (-1074 <= q)%Z ->
                          is_double (inject_Z m * 2 ^ q)).
  { clear. intros m q Hm Hq. unfold is_double.
    assert (Hx : 0 < inject_Z m * 2 ^ q).
    { apply Qmult_lt_0_compat; [|apply two_pos].
      change 0 with (inject_Z 0). rewrite <- Zlt_Qlt. lia. }
    rewrite fl_pos by exact Hx.
    destruct (Z.eq_dec m (2 ^ 53)%Z) as [-> | N].
    - apply (round_pos_exact _ (2 ^ 52)%Z (q + 1)%Z); [lia | lia |].
      rewrite !two_Z by lia. rewrite <- !two_plus. apply Qpower_comp; [reflexivity | lia].
    - apply (round_pos_exact _ m q); [lia | lia | reflexivity]. }
  intros Hm Hq. destruct (Z.lt_trichotomy m 0) as [L | [-> | L]].
  - apply (double_compat (- (inject_Z (- m) * 2 ^ q))).
    + rewrite inject_Z_opp. ring.
    + apply double_opp, P; lia.
  - apply (double_compat 0); [ring | apply double_0].
  - apply P; lia.
Qed.

(** Integers up to [2^53] in magnitude are doubles. *)
Lemma double_Z z : (Z.abs z <= 2 ^ 53)%Z -> is_double (inject_Z z).
Proof.
  intros H. apply (double_compat (inject_Z z * 2 ^ 0)); [change (2 ^ 0) with 1; ring|].
  apply double_scaled; [exact H | lia].
Qed.

(** What rounding returns is a double. *)
Lemma fl_double x : is_double (fl x).
Proof.
  assert (P : forall x, 0 < x -> is_double (round_pos x)).
  { clear. intros x Hx. unfold round_pos.
    apply double_scaled; [|apply qexp_min].
    assert (H0 : 0 <= x / 2 ^ qexp x).
    { apply Qle_shift_div_l; [apply two_pos | lra]. }
    apply rne_ge in H0.
    assert (H1 : x / 2 ^ qexp x <= inject_Z (2 ^ 53)).
    { apply Qle_shift_div_r; [apply two_pos|].
      rewrite two_Z by lia. rewrite <- two_plus.
      replace (53 + qexp x)%Z with (qexp x + 53)%Z by lia.
      apply Qlt_le_weak, below_top, Hx. }
    apply rne_le in H1. lia. }
  destruct (Q_dec x 0) as [[H | H] | H].
  - apply (double_compat (- round_pos (- x))); [symmetry; apply fl_neg, H|].
    apply double_opp, P. lra.
  - apply (double_compat (round_pos x)); [symmetry; apply fl_pos, H | apply P, H].
  - apply (double_compat 0); [symmetry; apply fl_zero, H | apply double_0].
Qed.

Lemma fl_idem x : fl (fl x) = fl x.
Proof.
  pose proof (fl_double x) as H. unfold is_double in H.
  assert (A : forall y, fl y == match Qcompare (Qred y) 0 with
                                 | Eq => 0
                                 | Gt => round_pos (Qred y)
                                 | Lt => - round_pos (- Qred y)
                                 end)
    by (intros y; unfold fl; apply Qred_correct).
  unfold fl at 1 3. apply Qred_complete.
  rewrite <- (A (fl x)), <- (A x). exact H.
Qed.

(** A double between two values rounds nothing away: bounds by doubles
    survive rounding. *)
Lemma fl_le_double x b : is_double b -> x <= b -> fl x <= b.
Proof.
  intros Hb H. unfold is_double in Hb.
  pose proof (fl_mono x b H). lra.
Qed.

Lemma fl_ge_double x b : is_double b -> b <= x -> b <= fl x.
Proof.
  intros Hb H. unfold is_double in Hb.
  pose proof (fl_mono b x H). lra.
Qed.


(** ** Stepping a handler *)

Ltac world_norm :=
  cbv beta iota zeta delta
    [upd extended issue set_width set_height
     set_isPlaying set_videoSrc set_isRecording set_params
     set_videoRef set_canvasRef set_animationRef set_recorderRef
     set_recordedChunksRef set_random_pos set_raf set_recorders set_console
     set_downloads
     isPlaying videoSrc isRecording params videoRef canvasRef animationRef
     containerRef recorderRef recordedChunksRef random_seq random_pos
     raf_pending raf_next recorders console downloads
     width height calls iwidth iheight buffer32
     bind ret get modify throw ctx canvas_now Math_random r
     world_of canvas_of returns].
Tactic Notation "world_norm" "in" hyp(H) :=
  cbv beta iota zeta delta
    [upd extended issue set_width set_height
     set_isPlaying set_videoSrc set_isRecording set_params
     set_videoRef set_canvasRef set_animationRef set_recorderRef
     set_recordedChunksRef set_random_pos set_raf set_recorders set_console
     set_downloads
     isPlaying videoSrc isRecording params videoRef canvasRef animationRef
     containerRef recorderRef recordedChunksRef random_seq random_pos
     raf_pending raf_next recorders console downloads
     width height calls iwidth iheight buffer32
     bind ret get modify throw ctx canvas_now Math_random r
     world_of canvas_of returns] in H.
Ltac sets_away :=
  unfold one_session_at_a_time, set_isPlaying, set_videoSrc, set_isRecording, set_params,
    set_videoRef, set_canvasRef, set_animationRef, set_recorderRef,
    set_recordedChunksRef, set_random_pos, set_raf, set_recorders, set_console,
    set_downloads in *; cbn in *.
Ltac js_cases :=
  repeat (match goal with
          | |- context [if ?b then _ else _] => destruct b
          end; world_norm).

(** ** The slice loop only draws *)

Lemma extended_extended c cs1 cs2 :
  extended (extended c cs1) cs2 = extended c (cs1 ++ cs2).
Proof. unfold extended; cbn. now rewrite app_assoc. Qed.

Lemma extended_nil c : extended c [] = c.
Proof. destruct c; unfold extended; cbn. now rewrite app_nil_r. Qed.


Lemma balanced_nil : balanced [].
Proof. intros R p. cbn. auto. Qed.

Lemma balanced_app cs1 cs2 : balanced cs1 -> balanced cs2 -> balanced (cs1 ++ cs2).
Proof.
  intros H1 H2 R p. unfold paint_all. rewrite fold_left_app.
  destruct (H2 R (fold_left (paint R) cs1 p)) as [E1 E2].
  destruct (H1 R p) as [F1 F2]. unfold paint_all in *. split; congruence.
Qed.

Lemma slice_attempt_draws video p sc ox oy w c k :
  exists rest m,
    slice_attempt video p sc ox oy (upd c k w) = Ok tt (upd (extended c rest) (k + m) w)
    /\ balanced rest.
Proof.
  destruct w.
  unfold slice_attempt. world_norm.
  destruct (Qltb (fsub 1 (chaos p)) _); world_norm.
  - js_cases; eexists _, 10%nat; world_norm; rewrite <- ?app_assoc;
      replace (k + 10)%nat with (S (S (S (S (S (S (S (S (S (S k)))))))))) by lia;
      (split; [reflexivity | intros R [[] sv b]; cbn; auto]).
  - exists [], 1%nat. world_norm. rewrite app_nil_r.
    replace (k + 1)%nat with (S k) by lia. split; [now destruct c | apply balanced_nil].
Qed.

Lemma slice_loop_draws n video p sc ox oy w c k :
  exists rest m,
    slice_loop n video p sc ox oy (upd c k w) = Ok tt (upd (extended c rest) (k + m) w)
    /\ balanced rest.
Proof.
  revert c k; induction n as [|n IH]; intros c k; cbn [slice_loop].
  - exists [], 0%nat. rewrite extended_nil, Nat.add_0_r. split; [reflexivity | apply balanced_nil].
  - destruct (slice_attempt_draws video p sc ox oy w c k) as (r1 & m1 & E1 & B1).
    destruct (IH (extended c r1) (k + m1)%nat) as (r2 & m2 & E2 & B2).
    exists (r1 ++ r2), (m1 + m2)%nat.
    unfold bind at 1. rewrite E1, E2, extended_extended, Nat.add_assoc.
    split; [reflexivity | now apply balanced_app].
Qed.

(** ** A tick over a ready frame *)

Lemma resize_handling_fitted w c :
  canvasRef w = Some c ->
  resize_handling w = Ok tt (set_canvasRef (Some (fitted w c)) w).
Proof.
  intros Hc. unfold resize_handling, fitted. rewrite Hc.
  destruct (containerRef w) as [[cw ch]|]; [destruct (_ || _)|]; try reflexivity.
  all: destruct w; cbn in *; subst; reflexivity.
Qed.

Lemma renderLoop_ready w c v :
  canvasRef w = Some c -> videoRef w = Some v -> (readyState v <? 2)%Z = false ->
  exists rest m,
    renderLoop w =
    Ok tt (scheduled (upd (extended (fitted w c)
                             (fade_calls (params w) (width (fitted w c)) (height (fitted w c))
                              ++ base_calls v (params w) (width (fitted w c)) (height (fitted w c))
                              ++ rest))
                          (random_pos w + m) w))
    /\ balanced rest.
Proof.
  intros Hc Hv Hr.
  pose proof (resize_handling_fitted w c Hc) as Hres.
  set (c0 := fitted w c) in *.
  destruct (slice_loop_draws (slice_count (params w)) v (params w)
              (coverScale (width c0) (height c0) (videoWidth v) (videoHeight v) (params w))
              (offsetX (width c0) (height c0) (videoWidth v) (videoHeight v) (params w))
              (offsetY (width c0) (height c0) (videoWidth v) (videoHeight v) (params w))
              w (extended c0 (fade_calls (params w) (width c0) (height c0)
                              ++ base_calls v (params w) (width c0) (height c0)))
              (random_pos w)) as (rest & m & E & B).
  exists rest, m. split; [|exact B].
  unfold renderLoop. unfold bind at 1. unfold get at 1. unfold bind at 1. unfold get at 1.
  rewrite Hc, Hv. unfold bind at 1. rewrite Hres.
  clearbody c0. clear Hres Hc. destruct w. 
  revert E. unfold schedule_next, requestAnimationFrame, scheduled, fade_calls, base_calls. world_norm.
  intros E. cbn in Hv. subst. rewrite Hr. world_norm. rewrite <- !app_assoc in *. cbn [app] in *.
  rewrite E. reflexivity.
Qed.

Lemma renderLoop_ready_slices w c v :
  canvasRef w = Some c -> videoRef w = Some v -> (readyState v <? 2)%Z = false ->
  let c0 := fitted w c in
  let p := params w in
  renderLoop w =
  (slice_loop (slice_count p) v p
     (coverScale (width c0) (height c0) (videoWidth v) (videoHeight v) p)
     (offsetX (width c0) (height c0) (videoWidth v) (videoHeight v) p)
     (offsetY (width c0) (height c0) (videoWidth v) (videoHeight v) p) ;;
   schedule_next)
    (upd (extended c0 (fade_calls p (width c0) (height c0)
                       ++ base_calls v p (width c0) (height c0)))
         (random_pos w) w).
Proof.
  intros Hc Hv Hr c0 p.
  pose proof (resize_handling_fitted w c Hc) as Hres. fold c0 in Hres.
  unfold renderLoop. unfold bind at 1. unfold get at 1. unfold bind at 1. unfold get at 1.
  rewrite Hc, Hv. unfold bind at 1. rewrite Hres.
  subst p. clearbody c0. clear Hres Hc. destruct w.
  unfold fade_calls, base_calls. world_norm.
  cbn in Hv. subst. rewrite Hr. world_norm. rewrite <- !app_assoc. reflexivity.
Qed.

(** ** Comparisons *)

Lemma Qltb_false_of_le a b : b <= a -> Qltb a b = false.
Proof. intros H. unfold Qltb. apply negb_false_iff, Qle_bool_iff, H. Qed.

Lemma Qltb_true_of_lt a b : a < b -> Qltb a b = true.
Proof.
  intros H. unfold Qltb. apply negb_true_iff.
  destruct (Qle_bool b a) eqn:E; [|reflexivity].
  apply Qle_bool_iff in E. exfalso. apply (Qlt_not_le _ _ H E).
Qed.

(** ** Arithmetic of the render geometry *)

#[export] Instance fl_proper : Proper (Qeq ==> Qeq) fl.
Proof. intros x y E. rewrite (fl_compat x y E). reflexivity. Qed.

Lemma double_1 : is_double 1.
Proof. apply (double_Z 1). vm_compute. discriminate. Qed.

Lemma double_2 : is_double 2.
Proof. apply (double_Z 2). vm_compute. discriminate. Qed.

Lemma double_size z : (0 < z < 2 ^ 53)%Z -> is_double (inject_Z z).
Proof. intros H. apply double_Z. lia. Qed.


Lemma fl_of_double x : is_double x -> fl x == x.
Proof. trivial. Qed.

Lemma fadd_eq a b : fadd a b == fl (fl a + fl b).
Proof. reflexivity. Qed.


Lemma fdiv_doubles a b : is_double a -> is_double b -> fdiv a b = fl (a / b).
Proof.
  intros Ha Hb. unfold is_double in *. unfold fdiv. apply fl_compat.
  rewrite Ha, Hb. reflexivity.
Qed.

Lemma fsub_doubles a b : is_double a -> is_double b -> fsub a b = fl (a - b).
Proof.
  intros Ha Hb. unfold is_double in *. unfold fsub. apply fl_compat.
  rewrite Ha, Hb. reflexivity.
Qed.

Lemma fadd_doubles a b : is_double a -> is_double b -> fadd a b = fl (a + b).
Proof.
  intros Ha Hb. unfold is_double in *. unfold fadd. apply fl_compat.
  rewrite Ha, Hb. reflexivity.
Qed.

Lemma fmul_double a b : is_double (fmul a b).
Proof. apply fl_double. Qed.
Lemma fdiv_double a b : is_double (fdiv a b).
Proof. apply fl_double. Qed.
Lemma fsub_double a b : is_double (fsub a b).
Proof. apply fl_double. Qed.
Lemma fadd_double a b : is_double (fadd a b).
Proof. apply fl_double. Qed.




(** ** Cover-fit geometry *)




(** ** Glitch slices *)

Lemma slice_attempt_passes video p sc ox oy w c k :
  Qltb (fsub 1 (chaos p)) (random_seq w k) = true ->
  slice_attempt video p sc ox oy (upd c k w) =
  Ok tt (upd (extended c (slice_calls video p sc ox oy (from k (random_seq w))))
             (10 + k) w).
Proof.
  intros H. destruct w. unfold slice_attempt, slice_calls, from. world_norm.
  cbn [Nat.add]. cbn in H. rewrite H. world_norm.
  js_cases; rewrite <- ?app_assoc; reflexivity.
Qed.

Lemma slice_attempt_fails video p sc ox oy w c k :
  Qltb (fsub 1 (chaos p)) (random_seq w k) = false ->
  slice_attempt video p sc ox oy (upd c k w) = Ok tt (upd c (S k) w).
Proof.
  intros H. destruct w. unfold slice_attempt. world_norm. cbn in H. rewrite H.
  reflexivity.
Qed.

Lemma slice_calls_ext video p sc ox oy u u' :
  (forall j, u j = u' j) ->
  slice_calls video p sc ox oy u = slice_calls video p sc ox oy u'.
Proof. intros H. unfold slice_calls. now rewrite !H. Qed.

Lemma slices_calls_ext n video p sc ox oy : forall u u',
  (forall j, u j = u' j) ->
  slices_calls n video p sc ox oy u = slices_calls n video p sc ox oy u'.
Proof.
  induction n as [|n IH]; intros u u' H; cbn [slices_calls]; [reflexivity|].
  rewrite (H 0%nat), (slice_calls_ext _ _ _ _ _ u u' H).
  rewrite (IH (from 10 u) (from 10 u')) by (intros j; apply H).
  rewrite (IH (from 1 u) (from 1 u')) by (intros j; apply H).
  reflexivity.
Qed.

(** The slice loop issues what [slices_calls] says, and consumes as many
    random values. *)
Lemma slice_loop_calls n video p sc ox oy w : forall c k,
  let t := slices_calls n video p sc ox oy (from k (random_seq w)) in
  slice_loop n video p sc ox oy (upd c k w) =
  Ok tt (upd (extended c (fst t)) (snd t + k) w).
Proof.
  induction n as [|n IH]; intros c k; cbn [slice_loop slices_calls].
  - cbn. now rewrite extended_nil.
  - change (from k (random_seq w) 0%nat) with (random_seq w k).
    destruct (Qltb (fsub 1 (chaos p)) (random_seq w k)) eqn:Hgo; cbv zeta; cbn [fst snd].
    + unfold bind. rewrite (slice_attempt_passes _ _ _ _ _ _ _ _ Hgo).
      rewrite (IH (extended c _) (10 + k)%nat). cbv zeta.
      rewrite (slices_calls_ext n video p sc ox oy
                 (from (10 + k) (random_seq w)) (from 10 (from k (random_seq w))))
        by (intros j; unfold from; f_equal; lia).
      rewrite extended_extended. f_equal. f_equal. lia.
    + unfold bind. rewrite (slice_attempt_fails _ _ _ _ _ _ _ _ Hgo).
      rewrite (IH c (S k)). cbv zeta.
      rewrite (slices_calls_ext n video p sc ox oy
                 (from (S k) (random_seq w)) (from 1 (from k (random_seq w))))
        by (intros j; unfold from; f_equal; lia).
      f_equal. f_equal. lia.
Qed.

(** *** Ranges *)

Lemma fl_unit u : 0 <= u -> u <= 1 -> 0 <= fl u /\ fl u <= 1.
Proof.
  intros H0 H1. split; [apply fl_nonneg, H0 | apply fl_le_double; [apply double_1 | exact H1]].
Qed.

(** A value of [Math.random] times a non-negative double. *)
Lemma unit_scaled u a :
  0 <= u -> u <= 1 -> 0 <= a -> is_double a -> 0 <= fmul u a /\ fmul u a <= a.
Proof.
  intros H0 H1 Ha Da. destruct (fl_unit u H0 H1) as [F0 F1].
  unfold fmul. unfold is_double in Da.
  assert (E : fl u * fl a == fl u * a) by (rewrite Da; reflexivity).
  rewrite (fl_compat _ _ E).
  assert (0 <= fl u * a) by (apply Qmult_le_0_compat; assumption).
  assert (fl u * a <= 1 * a) by (apply Qmult_le_compat_r; assumption).
  split; [apply fl_nonneg; assumption | apply fl_le_double; [exact Da | lra]].
Qed.

(** The mantissa and exponent of a positive double. *)
Lemma double_repr x :
  is_double x -> 0 < x ->
  exists m q, (0 < m <= 2 ^ 53)%Z /\ (-1074 <= q)%Z /\ x == inject_Z m * 2 ^ q.
Proof.
  intros D Hx. unfold is_double in D. rewrite (fl_pos x Hx) in D.
  exists (rne (x / 2 ^ qexp x)), (qexp x). split; [|split; [apply qexp_min|]].
  - assert (H1 : x / 2 ^ qexp x <= inject_Z (2 ^ 53)).
    { apply Qle_shift_div_r; [apply two_pos|].
      rewrite two_Z by lia. rewrite <- two_plus.
      replace (53 + qexp x)%Z with (qexp x + 53)%Z by lia.
      apply Qlt_le_weak, below_top, Hx. }
    apply rne_le in H1. split; [|exact H1].
    destruct (Z_lt_le_dec 0 (rne (x / 2 ^ qexp x))) as [L | L]; [exact L|].
    exfalso. unfold round_pos in D.
    assert (inject_Z (rne (x / 2 ^ qexp x)) <= 0)
      by (change 0 with (inject_Z 0); rewrite <- Zle_Qle; exact L).
    pose proof (two_pos (qexp x)).
    assert (inject_Z (rne (x / 2 ^ qexp x)) * 2 ^ qexp x <= 0 * 2 ^ qexp x)
      by (apply Qmult_le_compat_r; lra).
    lra.
  - symmetry. exact D.
Qed.

(** Doubling a double is exact. *)
Lemma double_twice x : is_double x -> is_double (x + x).
Proof.
  assert (P : forall x, is_double x -> 0 < x -> is_double (x + x)).
  { clear. intros x D Hx. destruct (double_repr x D Hx) as (m & q & Hm & Hq & E).
    apply (double_compat (inject_Z m * 2 ^ (q + 1))).
    - rewrite E, two_plus. change (2 ^ 1) with 2. ring.
    - apply double_scaled; lia. }
  intros D. destruct (Q_dec x 0) as [[L | L] | E].
  - apply (double_compat (- (- x + - x))); [ring|].
    apply double_opp, P; [apply double_opp, D | lra].
  - apply P; assumption.
  - apply (double_compat 0); [rewrite E; ring | apply double_0].
Qed.

(** [r(-d, d)]: a displacement within [d] of zero. *)
Lemma displacement_range u d :
  0 <= u -> u <= 1 -> 0 <= d -> is_double d ->
  let j := fadd (fmul u (fsub d (- d))) (- d) in
  - d <= j /\ j <= d.
Proof.
  intros H0 H1 Hd Dd j. subst j.
  assert (Dn : is_double (- d)) by (apply double_opp, Dd).
  assert (E2 : fsub d (- d) == d + d).
  { rewrite (fsub_doubles _ _ Dd Dn).
    assert (E : d - - d == d + d) by ring.
    rewrite (fl_compat _ _ E). apply double_twice, Dd. }
  assert (D2 : is_double (fsub d (- d))) by apply fsub_double.
  destruct (unit_scaled u (fsub d (- d)) H0 H1 ltac:(lra) D2) as [T0 T1].
  rewrite (fadd_doubles _ _ (fmul_double _ _) Dn).
  set (t := fmul u (fsub d (- d))) in *.
  split; [apply fl_ge_double | apply fl_le_double]; trivial; lra.
Qed.

(** [1 + Math.random() * zoomGlitch]. *)
Lemma zoom_range u zg :
  0 <= u -> u <= 1 -> 0 <= zg ->
  let z := fadd 1 (fmul u zg) in
  1 <= z /\ z <= fadd 1 zg.
Proof.
  intros H0 H1 Hz z. subst z.
  destruct (fl_unit u H0 H1) as [F0 F1].
  pose proof (fl_nonneg zg Hz) as Z0.
  assert (T : 0 <= fmul u zg /\ fmul u zg <= fl zg).
  { unfold fmul.
    assert (0 <= fl u * fl zg) by (apply Qmult_le_0_compat; assumption).
    assert (fl u * fl zg <= 1 * fl zg) by (apply Qmult_le_compat_r; assumption).
    split; [apply fl_nonneg; assumption|].
    apply fl_le_double; [apply fl_double | lra]. }
  destruct T as [T0 T1].
  rewrite (fadd_doubles 1 (fmul u zg) double_1 (fmul_double _ _)).
  split.
  - apply fl_ge_double; [apply double_1 | lra].
  - unfold fadd at 1. apply fl_mono.
    pose proof double_1 as D1. unfold is_double in D1. rewrite D1. lra.
Qed.

(** The chaos test at the ends of the slider: [1 - chaos] is at least 1
    when [chaos] is at most 0, and at most 0 when [chaos] is at least 1. *)
Lemma chaos_low c : c <= 0 -> 1 <= fsub 1 c.
Proof.
  intros H. unfold fsub. pose proof double_1 as D1. unfold is_double in D1.
  pose proof (fl_nonpos c H). apply fl_ge_double; [exact D1 | lra].
Qed.

Lemma chaos_high c : 1 <= c -> fsub 1 c <= 0.
Proof.
  intros H. unfold fsub. pose proof double_1 as D1. unfold is_double in D1.
  pose proof (fl_ge_double c 1 D1 H). apply fl_nonpos. lra.
Qed.

(** The noise test [Math.random() < 0.1] compares with the double 0.1,
    which lies above one tenth with no double in between: on the doubles
    [Math.random] returns, the test against one tenth is the same test. *)
Lemma noise_test_in_doubles u :
  is_double u -> Qltb u (1 # 10) = Qltb u (fl (1 # 10)).
Proof.
  intros D. unfold is_double in D.
  assert (H : 1 # 10 <= fl (1 # 10)) by (vm_compute; discriminate).
  destruct (Qlt_le_dec u (1 # 10)) as [L | L].
  - rewrite !Qltb_true_of_lt by lra. reflexivity.
  - pose proof (fl_mono _ _ L). rewrite !Qltb_false_of_le by lra. reflexivity.
Qed.

Lemma half_size z : (0 < z < 2 ^ 53)%Z -> fdiv (inject_Z z) 2 == inject_Z z / 2.
Proof.
  intros H. rewrite (fdiv_doubles _ _ (double_size z H) double_2).
  apply (double_compat (inject_Z z * 2 ^ (-1))).
  - change (2 ^ (-1)) with (/ 2). reflexivity.
  - apply double_scaled; lia.
Qed.

(** C3.  A tick over a ready frame issues, after the fade and the base
    draw, the calls of its slice passes, each pass drawing with this tick's
    [coverScale] and base offsets.  A pass whose first random value is
    above [1 - chaos] draws one slice between [save] and [restore].  With
    [u k] the [k]-th random value of the pass, and every operation rounded
    to a double: the source origin is [(u2 * vw, u3 * vh)], inside the
    frame; the source size is [(u4 * vw/2, u5 * vh/2)]; the destination
    position is the source position times [coverScale] plus the base offset
    plus a displacement [u * 2d - d] in [[-d, d]], drawn separately for each
    axis; the zoom is [z = 1 + u8 * zoomGlitch]; the destination size is
    the source size times [coverScale] times [z]. *)
Theorem glitch_slice_geometry w c v :
  canvasRef w = Some c -> videoRef w = Some v -> (readyState v <? 2)%Z = false ->
  (0 < videoWidth v < 2 ^ 53)%Z -> (0 < videoHeight v < 2 ^ 53)%Z ->
  0 <= displacement (params w) -> is_double (displacement (params w)) ->
  0 <= zoomGlitch (params w) ->
  let c0 := fitted w c in
  let p := params w in
  let vw := inject_Z (videoWidth v) in
  let vh := inject_Z (videoHeight v) in
  let cs := coverScale (width c0) (height c0) (videoWidth v) (videoHeight v) p in
  let oX := offsetX (width c0) (height c0) (videoWidth v) (videoHeight v) p in
  let oY := offsetY (width c0) (height c0) (videoWidth v) (videoHeight v) p in
  let passes := slices_calls (slice_count p) v p cs oX oY (draw w) in
  renderLoop w =
    Ok tt (scheduled
             (upd (extended c0 (fade_calls p (width c0) (height c0)
                                ++ base_calls v p (width c0) (height c0)
                                ++ fst passes))
                  (snd passes + random_pos w) w))
  /\ forall u, (forall k, 0 <= u k /\ u k < 1) ->
       let sx := fmul (u 2%nat) vw in
       let sy := fmul (u 3%nat) vh in
       let sWidth := fmul (u 4%nat) (fdiv vw 2) in
       let sHeight := fmul (u 5%nat) (fdiv vh 2) in
       let jx := fadd (fmul (u 6%nat) (fsub (displacement p) (- displacement p)))
                      (- displacement p) in
       let jy := fadd (fmul (u 7%nat) (fsub (displacement p) (- displacement p)))
                      (- displacement p) in
       let z := fadd 1 (fmul (u 8%nat) (zoomGlitch p)) in
       let dx := fadd (fadd (fmul sx cs) oX) jx in
       let dy := fadd (fadd (fmul sy cs) oY) jy in
       let dWidth := fmul (fmul sWidth cs) z in
       let dHeight := fmul (fmul sHeight cs) z in
       slice_calls v p cs oX oY u =
         [Save]
         ++ (if Qltb (u 1%nat) (fl (invertChance p))
             then [SetFilter (invertFilter p); SetGlobalCompositeOperation Difference]
             else [SetFilter (baseFilter p); SetGlobalCompositeOperation SourceOver])
         ++ [DrawImage9 (currentFrame v) sx sy sWidth sHeight dx dy dWidth dHeight]
         ++ (if Qltb (u 9%nat) (fl (3 # 10))
             then [SetStrokeStyle (Rgba 255 255 255 1); SetLineWidth 2;
                   StrokeRect dx dy dWidth dHeight]
             else [])
         ++ [Restore]
       /\ (0 <= sx /\ sx <= vw) /\ (0 <= sy /\ sy <= vh)
       /\ (0 <= sWidth /\ sWidth <= vw / 2) /\ (0 <= sHeight /\ sHeight <= vh / 2)
       /\ (- displacement p <= jx /\ jx <= displacement p)
       /\ (- displacement p <= jy /\ jy <= displacement p)
       /\ (1 <= z /\ z <= fadd 1 (zoomGlitch p)).
Proof.
  intros Hc Hv Hr Hvw Hvh Hd Dd Hz c0 p vw vh cs oX oY passes.
  split.
  - rewrite (renderLoop_ready_slices w c v Hc Hv Hr). fold c0 p cs oX oY.
    unfold bind. rewrite slice_loop_calls. cbv zeta.
    change (from (random_pos w) (random_seq w)) with (draw w). fold passes.
    rewrite extended_extended, <- app_assoc. destruct w; reflexivity.
  - intros u Hu sx sy sWidth sHeight jx jy z dx dy dWidth dHeight.
    split; [reflexivity|].
    assert (U : forall k, 0 <= u k /\ u k <= 1)
      by (intros k; destruct (Hu k); split; lra).
    pose proof (double_size _ Hvw) as Dvw. pose proof (double_size _ Hvh) as Dvh.
    fold vw in Dvw. fold vh in Dvh.
    assert (Pvw : 0 <= vw)
      by (subst vw; change 0 with (inject_Z 0); rewrite <- Zle_Qle; lia).
    assert (Pvh : 0 <= vh)
      by (subst vh; change 0 with (inject_Z 0); rewrite <- Zle_Qle; lia).
    pose proof (half_size _ Hvw) as Ew. pose proof (half_size _ Hvh) as Eh.
    fold vw in Ew. fold vh in Eh.
    assert (Phw : 0 <= fdiv vw 2)
      by (rewrite Ew; unfold Qdiv; change (/ 2) with (1 # 2); lra).
    assert (Phh : 0 <= fdiv vh 2)
      by (rewrite Eh; unfold Qdiv; change (/ 2) with (1 # 2); lra).
    destruct (U 2%nat) as [A0 A1]. destruct (U 3%nat) as [B0 B1].
    destruct (U 4%nat) as [C0 C1]. destruct (U 5%nat) as [D0 D1].
    destruct (U 6%nat) as [E0 E1]. destruct (U 7%nat) as [F0 F1].
    destruct (U 8%nat) as [G0 G1].
    split; [exact (unit_scaled _ _ A0 A1 Pvw Dvw)|].
    split; [exact (unit_scaled _ _ B0 B1 Pvh Dvh)|].
    split; [rewrite <- Ew; exact (unit_scaled _ _ C0 C1 Phw (fdiv_double _ _))|].
    split; [rewrite <- Eh; exact (unit_scaled _ _ D0 D1 Phh (fdiv_double _ _))|].
    split; [exact (displacement_range _ _ E0 E1 Hd Dd)|].
    split; [exact (displacement_range _ _ F0 F1 Hd Dd)|].
    exact (zoom_range _ _ G0 G1 Hz).
Qed.

Lemma glitch_slice_geometry_witness :
  let w := mounted (fresh_canvas 200 100) (clip 100 50) "blob:clip" defaultParams
                   (fun _ => 3 # 4) in
  let slice := [Save; SetFilter [Contrast 200; Brightness 100; Grayscale 100];
                SetGlobalCompositeOperation SourceOver;
                DrawImage9 1 75 (75 # 2) (75 # 2) (75 # 4) 175 100 (645 # 8) (645 # 16);
                Restore] in
  ((0 < 100 < 2 ^ 53)%Z /\ (0 < 50 < 2 ^ 53)%Z
   /\ 0 <= displacement (params w) /\ is_double (displacement (params w))
   /\ 0 <= zoomGlitch (params w))
  /\ canvas_of (renderLoop w)
     = Some (extended (fresh_canvas 200 100)
               (fade_calls defaultParams 200 100
                ++ base_calls (clip 100 50) defaultParams 200 100
                ++ slice ++ slice ++ slice ++ slice ++ slice))
  /\ random_pos (world_of (renderLoop w)) = 50%nat.
Proof.
  cbv zeta.
  assert (Dd : is_double (displacement defaultParams))
    by (apply (double_Z 50); vm_compute; discriminate).
  split; [split_and!; try lia; try discriminate; exact Dd|].
  destruct (glitch_slice_geometry
              (mounted (fresh_canvas 200 100) (clip 100 50) "blob:clip" defaultParams
                       (fun _ => 3 # 4))
              (fresh_canvas 200 100) (clip 100 50)
              eq_refl eq_refl eq_refl ltac:(cbn; lia) ltac:(cbn; lia)
              ltac:(discriminate) Dd ltac:(discriminate)) as [E _].
  rewrite E. split; vm_compute; reflexivity.
Defined.

(** ** The static-noise fallback *)

Lemma noise_loop_fills n : forall pre w,
  noise_loop n (length pre) (pre ++ repeat 0%Z n) w =
  Ok (pre ++ noise_buffer w n) (set_random_pos (n + random_pos w) w).
Proof.
  induction n as [|n IH]; intros pre w.
  - destruct w; reflexivity.
  - cbn [noise_loop repeat]. unfold bind at 1, Math_random at 1.
    set (u := random_seq w (random_pos w)).
    assert (E : (if Qltb u (1 # 10)
                 then <[length pre := 0xff1a1a1a%Z]> (pre ++ 0%Z :: repeat 0%Z n)
                 else pre ++ 0%Z :: repeat 0%Z n)
                = (pre ++ [noise_word u]) ++ repeat 0%Z n).
    { unfold noise_word. rewrite <- app_assoc. destruct (Qltb u (1 # 10)); [|reflexivity].
      rewrite insert_app_r_alt by lia. rewrite Nat.sub_diag. reflexivity. }
    rewrite E.
    replace (S (length pre)) with (length (pre ++ [noise_word u]))
      by (rewrite length_app; cbn; lia).
    rewrite IH. f_equal.
    + rewrite <- app_assoc. f_equal. unfold noise_buffer. cbn [seq map app].
      rewrite <- seq_shift, map_map.
      replace (draw w 0) with u by reflexivity. f_equal.
      apply map_ext. intros j.
      unfold draw. destruct w; cbn. now rewrite Nat.add_succ_r.
    + destruct w; cbn. unfold set_random_pos; cbn. now rewrite Nat.add_succ_r.
Qed.

Lemma noise_loop_zeroed n w :
  noise_loop (length (repeat 0%Z n)) 0 (repeat 0%Z n) w =
  Ok (noise_buffer w n) (set_random_pos (n + random_pos w) w).
Proof. rewrite repeat_length. exact (noise_loop_fills n [] w). Qed.

Lemma renderLoop_no_signal_quiet w c v :
  canvasRef w = Some c -> videoRef w = Some v -> (readyState v <? 2)%Z = true ->
  String.eqb (videoSrc w) "" = false ->
  renderLoop w =
  Ok tt (scheduled (upd (extended (fitted w c)
                           (fade_calls (params w) (width (fitted w c)) (height (fitted w c))))
                        (random_pos w) w)).
Proof.
  intros Hc Hv Hr Hsrc.
  pose proof (resize_handling_fitted w c Hc) as Hres.
  set (c0 := fitted w c) in *.
  unfold renderLoop. unfold bind at 1. unfold get at 1. unfold bind at 1. unfold get at 1.
  rewrite Hc, Hv. unfold bind at 1. rewrite Hres.
  clearbody c0. clear Hres Hc. destruct w.
  unfold schedule_next, requestAnimationFrame, scheduled, fade_calls. world_norm.
  cbn in Hv, Hsrc. subst. rewrite Hr. world_norm. rewrite Hsrc. world_norm. reflexivity.
Qed.

Lemma renderLoop_no_signal_noise w c v :
  canvasRef w = Some c -> videoRef w = Some v -> (readyState v <? 2)%Z = true ->
  videoSrc w = ""%string ->
  (0 < width (fitted w c))%Z -> (0 < height (fitted w c))%Z ->
  let c0 := fitted w c in
  let n := Z.to_nat (width c0 * height c0) in
  renderLoop w =
  Ok tt (scheduled
           (upd (extended c0
                   (fade_calls (params w) (width c0) (height c0)
                    ++ [PutImageData {| iwidth := width c0; iheight := height c0;
                                        buffer32 := noise_buffer w n |} 0 0]))
                (n + random_pos w) w)).
Proof.
  intros Hc Hv Hr Hsrc HW HH c0 n.
  pose proof (resize_handling_fitted w c Hc) as Hres.
  fold c0 in Hres, HW, HH.
  unfold renderLoop. unfold bind at 1. unfold get at 1. unfold bind at 1. unfold get at 1.
  rewrite Hc, Hv. unfold bind at 1. rewrite Hres.
  assert (Hn : noise_loop (length (repeat 0%Z n)) 0 (repeat 0%Z n)
                 (set_canvasRef (Some (extended c0 (fade_calls (params w) (width c0) (height c0)))) w)
               = Ok (noise_buffer w n)
                    (upd (extended c0 (fade_calls (params w) (width c0) (height c0)))
                         (n + random_pos w) w)).
  { rewrite noise_loop_zeroed. destruct w; reflexivity. }
  subst n. clearbody c0. clear Hres Hc. destruct w.
  revert Hn.
  unfold schedule_next, requestAnimationFrame, scheduled, fade_calls, createImageData.
  world_norm. intros Hn.
  cbn in Hv, Hsrc. subst. rewrite Hr. world_norm.
  destruct c0 as [W H cs]. cbn in HW, HH. world_norm. world_norm in Hn.
  replace ((W =? 0) || (H =? 0))%Z with false
    by (symmetry; apply orb_false_iff; split; apply Z.eqb_neq; lia).
  rewrite !Z.abs_eq by lia. change (String.eqb "" "") with true. world_norm.
  rewrite Hn. world_norm.
  rewrite <- !app_assoc. reflexivity.
Qed.

(** ** What a tick paints *)

Lemma contents_extended R c cs :
  contents R (extended c cs) = paint_all R (contents R c) cs.
Proof. unfold contents, paint_all, extended; cbn. apply fold_left_app. Qed.

Lemma paint_all_app R p cs1 cs2 :
  paint_all R p (cs1 ++ cs2) = paint_all R (paint_all R p cs1) cs2.
Proof. apply fold_left_app. Qed.

Lemma inside_surface x y W H :
  (0 <= x < W)%Z -> (0 <= y < H)%Z -> inside x y 0 0 W H = true.
Proof.
  intros Hx Hy. unfold inside.
  repeat (apply andb_true_intro; split);
    first [apply Z.leb_le | apply Z.ltb_lt]; lia.
Qed.

Lemma noise_buffer_nth w n j :
  (j < n)%nat -> nth j (noise_buffer w n) 0%Z = noise_word (draw w j).
Proof.
  intros Hj. unfold noise_buffer.
  rewrite (nth_indep _ 0%Z (noise_word (draw w 0))) by (rewrite length_map, length_seq; lia).
  rewrite (map_nth (fun j => noise_word (draw w j)) (seq 0 n) 0%nat j).
  now rewrite seq_nth by lia.
Qed.

(** C4, amended.  When the video has no current frame and no source is
    configured, on a surface of positive size, the tick fades the surface,
    fills a fresh transparent-black image buffer of the surface's size by
    testing one random draw per cell against 0.1 (success stores
    [0xff1a1a1a], the opaque gray (26,26,26)), and puts that buffer onto the
    surface at (0,0); it issues no image draw and requests the next frame.
    The buffer replaces every pixel of the surface: a pixel whose draw fails
    becomes black, whatever it showed before. *)
Theorem no_signal_noise_repaints R w c v :
  canvasRef w = Some c -> videoRef w = Some v -> (readyState v <? 2)%Z = true ->
  videoSrc w = ""%string ->
  (0 < width (fitted w c))%Z -> (0 < height (fitted w c))%Z ->
  let c0 := fitted w c in
  let n := Z.to_nat (width c0 * height c0) in
  let c' := extended c0
              (fade_calls (params w) (width c0) (height c0)
               ++ [PutImageData {| iwidth := width c0; iheight := height c0;
                                   buffer32 := noise_buffer w n |} 0 0]) in
  renderLoop w = Ok tt (scheduled (upd c' (n + random_pos w) w))
  /\ length (noise_buffer w n) = n
  /\ (forall j, (j < n)%nat ->
                noise_buffer w n !! j
                = Some (if Qltb (draw w j) (1 # 10) then 0xff1a1a1a%Z else 0%Z))
  /\ (forall x y, (0 <= x < width c0)%Z -> (0 <= y < height c0)%Z ->
                  pixel R c' x y
                  = if Qltb (draw w (Z.to_nat (y * width c0 + x))) (1 # 10)
                    then {| red := 26; green := 26; blue := 26 |}
                    else black).
Proof.
  intros Hc Hv Hr Hsrc HW HH c0 n c'.
  split; [exact (renderLoop_no_signal_noise w c v Hc Hv Hr Hsrc HW HH)|].
  split; [unfold noise_buffer; now rewrite length_map, length_seq|].
  split.
  - intros j Hj. unfold noise_buffer. rewrite list_lookup_fmap.
    rewrite lookup_seq_lt by lia. reflexivity.
  - intros x y Hx Hy. unfold pixel. subst c'.
    rewrite contents_extended, paint_all_app.
    unfold paint_all at 1. cbn [fold_left paint p_bitmap with_bitmap iwidth iheight buffer32].
    fold c0 in HW, HH |- *.
    rewrite (inside_surface x y _ _ Hx Hy), !Z.sub_0_r.
    rewrite noise_buffer_nth by (subst n; nia).
    unfold noise_word. now destruct (Qltb _ _).
Qed.

Lemma no_signal_noise_repaints_witness :
  let w := mounted (fresh_canvas 2 1) no_signal "" defaultParams
                   (first_then (1 # 20) (1 # 2)) in
  let c' := extended (fresh_canvas 2 1)
              (fade_calls defaultParams 2 1
               ++ [PutImageData {| iwidth := 2; iheight := 1;
                                   buffer32 := [0xff1a1a1a%Z; 0%Z] |} 0 0]) in
  (0 < 2)%Z /\ (0 < 1)%Z
  /\ renderLoop w = Ok tt (scheduled (upd c' (2 + 0) w)).
Proof.
  cbv zeta. split; [lia|]. split; [lia|].
  exact (proj1 (no_signal_noise_repaints no_raster
                  (mounted (fresh_canvas 2 1) no_signal "" defaultParams
                           (first_then (1 # 20) (1 # 2)))
                  (fresh_canvas 2 1) no_signal
                  eq_refl eq_refl eq_refl eq_refl eq_refl eq_refl)).
Defined.

(** C4 as stated fails: a pixel whose draw is not below 0.1 is not left
    untouched.  On a one-pixel white surface with draw 0.5, the pixel is
    25.5 gray after the fade and black after the tick. *)
Lemma noise_overwrites_unselected_pixel :
  let w := mounted white_pixel no_signal "" defaultParams (fun _ => 1 # 2) in
  let faded := extended white_pixel (fade_calls defaultParams 1 1) in
  Qltb (draw w 0) (1 # 10) = false
  /\ rgb_eq (pixel no_raster faded 0 0)
            {| red := 255 # 10; green := 255 # 10; blue := 255 # 10 |}
  /\ (exists rest,
         canvas_of (renderLoop w) = Some (extended faded rest)
         /\ pixel no_raster (extended faded rest) 0 0 = black)
  /\ ~ rgb_eq black (pixel no_raster faded 0 0).
Proof.
  cbv zeta. split; [reflexivity|]. split; [vm_compute; auto|]. split.
  - exists [PutImageData {| iwidth := 1; iheight := 1; buffer32 := [0%Z] |} 0 0].
    split; vm_compute; reflexivity.
  - intros [E _]. vm_compute in E. discriminate E.
Qed.

(** ** Feedback decay *)

Lemma clamp01_overlay (fb : Q) : 0 < fb -> fb < 1 -> clamp01 (1 - fb) == 1 - fb.
Proof.
  intros H0 H1. unfold clamp01.
  rewrite (Q.min_r 1 (1 - fb)) by lra. apply Q.max_r. lra.
Qed.

Lemma rgb_eq_refl a : rgb_eq a a.
Proof. unfold rgb_eq. repeat split; reflexivity. Qed.

Lemma rgb_eq_trans a b c : rgb_eq a b -> rgb_eq b c -> rgb_eq a c.
Proof.
  unfold rgb_eq. intros (E1 & E2 & E3) (F1 & F2 & F3).
  repeat split; etransitivity; eassumption.
Qed.

Lemma rgb_scale_eq k a b : rgb_eq a b -> rgb_eq (rgb_scale k a) (rgb_scale k b).
Proof.
  unfold rgb_eq, rgb_scale; cbn. intros (E1 & E2 & E3).
  repeat split; [rewrite E1 | rewrite E2 | rewrite E3]; reflexivity.
Qed.

(** Black at opacity [1 - feedback] over a pixel: the standard's formula
    keeps the fraction [feedback] of it. *)
Lemma source_over_black (fb : Q) dst :
  0 < fb -> fb < 1 ->
  rgb_eq (source_over (Rgba 0 0 0 (1 - fb)) dst) (rgb_scale fb dst).
Proof.
  intros H0 H1. unfold rgb_eq, source_over, rgb_scale; cbn.
  pose proof (clamp01_overlay fb H0 H1) as E.
  repeat split; rewrite E; ring.
Qed.

Lemma near_eq_r d a b b' : near d a b -> rgb_eq b b' -> near d a b'.
Proof.
  unfold near, rgb_eq. intros (N1 & N2 & N3) (E1 & E2 & E3).
  rewrite <- E1, <- E2, <- E3. auto.
Qed.

Lemma near_refl a : near 0 a a.
Proof.
  unfold near.
  assert (E : forall x, Qabs (x - x) <= 0).
  { intros x. assert (E : x - x == 0) by ring. rewrite E. discriminate. }
  auto.
Qed.

(** One more tick of decay on one channel. *)
Lemma decay_step (a b c k f d B K : Q) :
  Qabs (a - b * k) <= B -> Qabs (b - c * f) <= d -> 0 <= k -> K == f * k ->
  Qabs (a - c * K) <= B + k * d.
Proof.
  intros H1 H2 Hk EK.
  assert (E : a - c * K == (a - b * k) + (b - c * f) * k) by (rewrite EK; ring).
  rewrite E.
  apply Qle_trans with (1 := Qabs_triangle _ _).
  rewrite Qabs_Qmult, (Qabs_pos k) by exact Hk.
  assert (Qabs (b - c * f) * k <= d * k) by (apply Qmult_le_compat_r; assumption).
  lra.
Qed.

(** The platforms of the concrete evaluations: exact, and within one level. *)
Lemma accurate_no_raster : accurate 0 no_raster.
Proof. intros s dst. apply near_refl. Qed.

Lemma accurate_eight_bit : accurate 1 eight_bit.
Proof.
  intros s dst. unfold near, eight_bit, whole_levels; cbn.
  assert (E : forall x, Qabs (inject_Z (Qfloor x) - x) <= 1).
  { intros x. pose proof (Qfloor_le x). pose proof (Qlt_floor x) as U.
    rewrite inject_Z_plus in U. change (inject_Z 1) with 1 in U.
    apply Qabs_Qle_condition. split; lra. }
  split_and!; apply E.
Qed.

(** Painting the three fade calls on a context without filter leaves every
    pixel of the surface within the platform's accuracy of [feedback] times
    its value, and leaves the context's filter and saved states alone. *)
Lemma paint_fade R d p (pr : Params) W H :
  0 < feedback pr -> feedback pr < 1 ->
  ctx_filter (p_ctx p) = [] -> accurate d R ->
  let p' := paint_all R p (fade_calls pr W H) in
  ctx_filter (p_ctx p') = []
  /\ p_saved p' = p_saved p
  /\ forall x y, (0 <= x < W)%Z -> (0 <= y < H)%Z ->
                 near d (p_bitmap p' x y) (rgb_scale (feedback pr) (p_bitmap p x y)).
Proof.
  intros H0 H1 Hf Hacc p'. subst p'. unfold fade_calls, paint_all.
  destruct p as [[op f fs ss lw] saved b]. cbn in Hf. subst f.
  cbn. split; [reflexivity|]. split; [reflexivity|].
  intros x y Hx Hy. rewrite (inside_surface x y W H Hx Hy).
  eapply near_eq_r; [apply Hacc | apply source_over_black; assumption].
Qed.

Lemma fitted_fits w c : fits w c = true -> fitted w c = c.
Proof.
  unfold fits, fitted. destruct (containerRef w) as [[cw ch]|]; [|reflexivity].
  intros Hb. apply andb_true_iff in Hb as [-> ->]. reflexivity.
Qed.

(** The accumulated accuracy of [n] fades: [d * (1 + f + ... + f^(n-1))]. *)
Lemma trail_bound_step (d f : Q) (n : nat) :
  f < 1 ->
  d * (1 - f ^ Z.of_nat n) / (1 - f) + f ^ Z.of_nat n * d
  == d * (1 - f ^ Z.of_nat (S n)) / (1 - f).
Proof.
  intros H1. rewrite Nat2Z.inj_succ, <- Z.add_1_r.
  rewrite Qpower_plus' by lia. change (f ^ 1) with f. field. lra.
Qed.

(** [n] ticks with a source configured but no frame ready only fade. *)
Lemma fade_only_ticks R d n : forall w c v,
  canvasRef w = Some c -> videoRef w = Some v -> (readyState v <? 2)%Z = true ->
  String.eqb (videoSrc w) "" = false -> fits w c = true ->
  0 < feedback (params w) -> feedback (params w) < 1 ->
  ctx_filter (p_ctx (contents R c)) = [] -> accurate d R ->
  exists w' c',
    ticks n w = Ok tt w' /\ canvasRef w' = Some c'
    /\ width c' = width c /\ height c' = height c
    /\ ctx_filter (p_ctx (contents R c')) = []
    /\ forall x y, (0 <= x < width c)%Z -> (0 <= y < height c)%Z ->
                   near (d * (1 - feedback (params w) ^ Z.of_nat n)
                         / (1 - feedback (params w)))
                        (pixel R c' x y)
                        (rgb_scale (feedback (params w) ^ Z.of_nat n) (pixel R c x y)).
Proof.
  induction n as [|n IH]; intros w c v Hc Hv Hr Hsrc Hfit H0 H1 Hclean Hacc.
  - exists w, c. split_and!; trivial.
    intros x y _ _. change (feedback (params w) ^ Z.of_nat 0) with 1.
    assert (E : d * (1 - 1) / (1 - feedback (params w)) == 0) by (field; lra).
    unfold near, rgb_scale; cbn [red green blue].
    assert (Z : forall a, Qabs (a - a * 1) <= d * (1 - 1) / (1 - feedback (params w))).
    { intros a. rewrite E. assert (E' : a - a * 1 == 0) by ring. rewrite E'. discriminate. }
    auto.
  - pose proof (renderLoop_no_signal_quiet w c v Hc Hv Hr Hsrc) as E.
    rewrite (fitted_fits w c Hfit) in E.
    set (c1 := extended c (fade_calls (params w) (width c) (height c))) in *.
    set (w1 := scheduled (upd c1 (random_pos w) w)) in *.
    destruct (paint_fade R d (contents R c) (params w) (width c) (height c) H0 H1 Hclean Hacc)
      as (Hf1 & _ & Hpix1).
    assert (Hc1 : contents R c1 = paint_all R (contents R c)
                                    (fade_calls (params w) (width c) (height c)))
      by apply contents_extended.
    assert (Ep : params w1 = params w) by (subst w1; destruct w; reflexivity).
    destruct (IH w1 c1 v) as (w' & c' & Et & Hc' & HW & HH & Hf' & Hpix');
      try (subst w1; destruct w; cbn in *; trivial; fail).
    { rewrite Hc1. exact Hf1. }
    exists w', c'. cbn [ticks]. unfold bind. rewrite E, Et.
    split_and!; trivial.
    intros x y Hx Hy.
    specialize (Hpix' x y Hx Hy). rewrite Ep in Hpix'.
    specialize (Hpix1 x y Hx Hy).
    assert (P1 : p_bitmap (paint_all R (contents R c)
                             (fade_calls (params w) (width c) (height c))) x y
                 = pixel R c1 x y) by (unfold pixel; now rewrite Hc1).
    rewrite P1 in Hpix1. change (p_bitmap (contents R c) x y) with (pixel R c x y) in Hpix1.
    set (f := feedback (params w)) in *.
    assert (Hk : 0 <= f ^ Z.of_nat n) by (apply Qpower_0_le; lra).
    assert (EK : f ^ Z.of_nat (S n) == f * f ^ Z.of_nat n).
    { rewrite Nat2Z.inj_succ, <- Z.add_1_r.
      rewrite Qpower_plus' by lia. change (f ^ 1) with f. ring. }
    pose proof (trail_bound_step d f n H1) as EB.
    destruct Hpix' as (A1 & A2 & A3). destruct Hpix1 as (B1 & B2 & B3).
    unfold near, rgb_scale in *; cbn [red green blue] in *.
    split_and!; rewrite <- EB; eapply decay_step; eassumption.
Qed.

(** On a surface with a zero dimension the noise branch stops at
    [createImageData], after the fade. *)
Lemma renderLoop_no_signal_empty_surface w c v :
  canvasRef w = Some c -> videoRef w = Some v -> (readyState v <? 2)%Z = true ->
  videoSrc w = ""%string ->
  ((width (fitted w c) =? 0) || (height (fitted w c) =? 0))%Z = true ->
  renderLoop w =
  Throw IndexSizeError
        (set_canvasRef
           (Some (extended (fitted w c)
                    (fade_calls (params w) (width (fitted w c)) (height (fitted w c))))) w).
Proof.
  intros Hc Hv Hr Hsrc Hz.
  pose proof (resize_handling_fitted w c Hc) as Hres.
  set (c0 := fitted w c) in *.
  unfold renderLoop. unfold bind at 1. unfold get at 1. unfold bind at 1. unfold get at 1.
  rewrite Hc, Hv. unfold bind at 1. rewrite Hres.
  clearbody c0. clear Hres Hc. destruct w.
  unfold schedule_next, requestAnimationFrame, fade_calls, createImageData. world_norm.
  cbn in Hv, Hsrc. subst. rewrite Hr. world_norm.
  destruct c0 as [W H cs]. cbn in Hz. world_norm. rewrite Hz.
  change (String.eqb "" "") with true. world_norm. reflexivity.
Qed.

Lemma renderLoop_starts_with_fade w c v :
  canvasRef w = Some c -> videoRef w = Some v ->
  (0 <= width (fitted w c))%Z -> (0 <= height (fitted w c))%Z ->
  exists rest,
    canvas_of (renderLoop w) =
    Some (extended (fitted w c)
            (fade_calls (params w) (width (fitted w c)) (height (fitted w c)) ++ rest)).
Proof.
  intros Hc Hv HW HH.
  destruct (readyState v <? 2)%Z eqn:Hr.
  - destruct (String.eqb (videoSrc w) "") eqn:Hsrc.
    + apply String.eqb_eq in Hsrc.
      destruct ((width (fitted w c) =? 0) || (height (fitted w c) =? 0))%Z eqn:Hz.
      * exists []. rewrite (renderLoop_no_signal_empty_surface w c v Hc Hv Hr Hsrc Hz).
        rewrite app_nil_r. destruct w; reflexivity.
      * apply orb_false_iff in Hz as [Hz1 Hz2].
        apply Z.eqb_neq in Hz1, Hz2.
        eexists. rewrite (renderLoop_no_signal_noise w c v Hc Hv Hr Hsrc) by lia.
        destruct w; reflexivity.
    + exists []. rewrite (renderLoop_no_signal_quiet w c v Hc Hv Hr Hsrc).
      rewrite app_nil_r. destruct w; reflexivity.
  - destruct (renderLoop_ready w c v Hc Hv Hr) as (rest & m & E & _).
    eexists. rewrite E. destruct w; reflexivity.
Qed.

(** C2, amended.  With [feedback] strictly between 0 and 1, every tick that
    finds both handles first covers the whole surface with black at opacity
    [1 - feedback] under "source-over".  On a context without filter, and on
    a platform whose fills are within [d] levels of the standard's formula,
    this leaves every channel of every pixel within [d] of [feedback] times
    its value: content decays by the factor [feedback] per tick, that is
    [1 - overlay alpha].  Over [n] ticks that draw nothing after the fade
    (a source is configured, no frame is ready, the surface has its
    container's size) every channel is within
    [d * (1 - feedback^n) / (1 - feedback)] of [feedback ^ n] times its
    original value. *)
Theorem feedback_trail_decay R d w c v :
  canvasRef w = Some c -> videoRef w = Some v ->
  0 < feedback (params w) -> feedback (params w) < 1 ->
  (0 <= width (fitted w c))%Z -> (0 <= height (fitted w c))%Z ->
  ctx_filter (p_ctx (contents R (fitted w c))) = [] ->
  accurate d R ->
  let c0 := fitted w c in
  let f := feedback (params w) in
  let fade := fade_calls (params w) (width c0) (height c0) in
  fade = [SetGlobalCompositeOperation SourceOver;
          SetFillStyle (Rgba 0 0 0 (1 - f));
          FillRect 0 0 (width c0) (height c0)]
  /\ (exists rest, canvas_of (renderLoop w) = Some (extended c0 (fade ++ rest)))
  /\ (forall x y, (0 <= x < width c0)%Z -> (0 <= y < height c0)%Z ->
                  near d (pixel R (extended c0 fade) x y) (rgb_scale f (pixel R c0 x y)))
  /\ (forall n, (readyState v <? 2)%Z = true -> String.eqb (videoSrc w) "" = false ->
                fits w c = true ->
                exists w' c',
                  ticks n w = Ok tt w' /\ canvasRef w' = Some c'
                  /\ forall x y, (0 <= x < width c)%Z -> (0 <= y < height c)%Z ->
                                 near (d * (1 - f ^ Z.of_nat n) / (1 - f))
                                      (pixel R c' x y)
                                      (rgb_scale (f ^ Z.of_nat n) (pixel R c x y))).
Proof.
  intros Hc Hv H0 H1 HW HH Hclean Hacc c0 f fade.
  split; [reflexivity|]. split; [exact (renderLoop_starts_with_fade w c v Hc Hv HW HH)|].
  split.
  - intros x y Hx Hy. unfold pixel. rewrite contents_extended.
    apply (paint_fade R d (contents R c0) (params w) (width c0) (height c0) H0 H1 Hclean Hacc);
      assumption.
  - intros n Hr Hsrc Hfit.
    pose proof (fitted_fits w c Hfit) as Ef. fold c0 in Ef. subst c0. rewrite Ef in Hclean.
    destruct (fade_only_ticks R d n w c v Hc Hv Hr Hsrc Hfit H0 H1 Hclean Hacc)
      as (w' & c' & Et & Hc' & _ & _ & _ & Hpix).
    exists w', c'. split_and!; trivial.
Qed.

Lemma feedback_trail_decay_witness :
  let w := mounted white_pixel no_signal "blob:clip" defaultParams (fun _ => 1 # 2) in
  (0 < feedback (params w) /\ feedback (params w) < 1 /\ accurate 1 eight_bit)
  /\ exists w' c',
       ticks 3 w = Ok tt w' /\ canvasRef w' = Some c'
       /\ forall x y, (0 <= x < 1)%Z -> (0 <= y < 1)%Z ->
                      near (1 * (1 - (1 # 10) ^ 3) / (1 - (1 # 10)))
                           (pixel eight_bit c' x y)
                           (rgb_scale ((1 # 10) ^ 3) (pixel eight_bit white_pixel x y)).
Proof.
  cbv zeta. split; [split_and!; [reflexivity | reflexivity | exact accurate_eight_bit]|].
  exact (proj2 (proj2 (proj2
           (feedback_trail_decay eight_bit 1
              (mounted white_pixel no_signal "blob:clip" defaultParams (fun _ => 1 # 2))
              white_pixel no_signal eq_refl eq_refl eq_refl eq_refl
              ltac:(discriminate) ltac:(discriminate) eq_refl accurate_eight_bit)))
           3%nat eq_refl eq_refl eq_refl).
Defined.

(** C2 as stated fails: the factor per tick is [feedback], not
    [1 - feedback].  With [feedback = 0.1] a white pixel is 25.5 after one
    fading tick when fills are exact, and 25, 2, 0 after one, two and three
    ticks on a canvas that stores whole levels; [255 * (1 - 0.1)] is
    229.5. *)
Lemma decay_factor_is_not_one_minus_feedback :
  let w := mounted white_pixel no_signal "blob:clip" defaultParams (fun _ => 1 # 2) in
  let f := feedback (params w) in
  red (pixel no_raster white_pixel 0 0) == 255
  /\ red (pixel eight_bit white_pixel 0 0) == 255
  /\ exists c1 c2 c3,
       canvas_of (ticks 1 w) = Some c1 /\ canvas_of (ticks 2 w) = Some c2
       /\ canvas_of (ticks 3 w) = Some c3
       /\ red (pixel no_raster c1 0 0) == 255 * f ^ 1
       /\ ~ red (pixel no_raster c1 0 0) == 255 * (1 - f) ^ 1
       /\ red (pixel eight_bit c1 0 0) == 25
       /\ red (pixel eight_bit c2 0 0) == 2
       /\ red (pixel eight_bit c3 0 0) == 0
       /\ ~ Qabs (red (pixel eight_bit c1 0 0) - 255 * (1 - f) ^ 1) <= 1
       /\ ~ Qabs (red (pixel eight_bit c2 0 0) - 255 * (1 - f) ^ 2) <= 1.
Proof.
  cbv zeta. split; [vm_compute; reflexivity|]. split; [vm_compute; reflexivity|].
  eexists _, _, _. split; [vm_compute; reflexivity|].
  split; [vm_compute; reflexivity|]. split; [vm_compute; reflexivity|].
  split_and!; try (vm_compute; reflexivity);
    intros E; vm_compute in E; first [discriminate E | apply E; reflexivity].
Qed.

Lemma renderLoop_without_handle w :
  canvasRef w = None \/ videoRef w = None -> renderLoop w = Ok tt w.
Proof.
  intros H. unfold renderLoop, bind, get, ret.
  destruct H as [H | H]; rewrite H; [|destruct (canvasRef w)]; reflexivity.
Qed.

(** ** The context between ticks *)

Lemma balanced_quiet cs : balanced cs -> quiet cs.
Proof. intros H R p. destruct (H R p) as [E1 E2]. split; congruence. Qed.

Lemma quiet_app cs1 cs2 : quiet cs1 -> quiet cs2 -> quiet (cs1 ++ cs2).
Proof.
  intros H1 H2 R p. unfold paint_all. rewrite fold_left_app.
  destruct (H2 R (fold_left (paint R) cs1 p)) as [E1 E2].
  destruct (H1 R p) as [F1 F2]. unfold paint_all in *. split; congruence.
Qed.

Lemma quiet_fade pr W H : quiet (fade_calls pr W H).
Proof.
  intros R [[op f fs ss lw] sv b]. unfold fade_calls. cbn.
  destruct f; cbn; auto.
Qed.

Lemma quiet_putImageData idata dx dy : quiet [PutImageData idata dx dy].
Proof. intros R p. cbn. auto. Qed.

Lemma balanced_base v pr W H : balanced (base_calls v pr W H).
Proof. intros R [[op f fs ss lw] sv b]. cbn. auto. Qed.

Lemma clean_extended R c cs : clean R c -> quiet cs -> clean R (extended c cs).
Proof.
  intros [C1 C2] Hq. unfold clean. rewrite contents_extended.
  destruct (Hq R (contents R c)) as [E1 E2]. split; congruence.
Qed.

Lemma clean_fresh R W H : clean R (fresh_canvas W H).
Proof. split; reflexivity. Qed.

Lemma clean_fitted R w c : clean R c -> clean R (fitted w c).
Proof.
  intros Hc. unfold fitted.
  destruct (containerRef w) as [[cw ch]|]; [destruct (_ || _)|]; trivial.
  split; reflexivity.
Qed.

(** Every filter a tick sets is set between [save] and [restore]: a tick
    leaves the surface's context without filter and without saved state, so
    the next tick's fade is painted unfiltered. *)
Lemma renderLoop_keeps_context_clean R w c c' :
  canvasRef w = Some c -> clean R c ->
  (0 <= width (fitted w c))%Z -> (0 <= height (fitted w c))%Z ->
  canvas_of (renderLoop w) = Some c' -> clean R c'.
Proof.
  intros Hc Hclean HW HH Hc'.
  destruct (videoRef w) as [v|] eqn:Hv.
  2:{ rewrite renderLoop_without_handle in Hc' by auto. unfold canvas_of in Hc'.
      cbn in Hc'. rewrite Hc in Hc'. injection Hc' as <-. exact Hclean. }
  pose proof (clean_fitted R w c Hclean) as H0.
  destruct (readyState v <? 2)%Z eqn:Hr.
  - destruct (String.eqb (videoSrc w) "") eqn:Hsrc.
    + apply String.eqb_eq in Hsrc.
      destruct ((width (fitted w c) =? 0) || (height (fitted w c) =? 0))%Z eqn:Hz.
      * rewrite (renderLoop_no_signal_empty_surface w c v Hc Hv Hr Hsrc Hz) in Hc'.
        assert (E : Some c' = Some (extended (fitted w c)
                          (fade_calls (params w) (width (fitted w c)) (height (fitted w c)))))
          by (rewrite <- Hc'; destruct w; reflexivity).
        apply (inj Some) in E. rewrite E. apply clean_extended; [exact H0 | apply quiet_fade].
      * apply orb_false_iff in Hz as [Hz1 Hz2]. apply Z.eqb_neq in Hz1, Hz2.
        rewrite (renderLoop_no_signal_noise w c v Hc Hv Hr Hsrc) in Hc' by lia.
        assert (E : Some c' = Some (extended (fitted w c)
                   (fade_calls (params w) (width (fitted w c)) (height (fitted w c))
                    ++ [PutImageData
                          {| iwidth := width (fitted w c); iheight := height (fitted w c);
                             buffer32 := noise_buffer w
                                           (Z.to_nat (width (fitted w c) * height (fitted w c))) |}
                          0 0])))
          by (rewrite <- Hc'; destruct w; reflexivity).
        apply (inj Some) in E. rewrite E. apply clean_extended; [exact H0|].
        apply quiet_app; [apply quiet_fade | apply quiet_putImageData].
    + rewrite (renderLoop_no_signal_quiet w c v Hc Hv Hr Hsrc) in Hc'.
      assert (E : Some c' = Some (extended (fitted w c)
                        (fade_calls (params w) (width (fitted w c)) (height (fitted w c)))))
        by (rewrite <- Hc'; destruct w; reflexivity).
      apply (inj Some) in E. rewrite E. apply clean_extended; [exact H0 | apply quiet_fade].
  - destruct (renderLoop_ready w c v Hc Hv Hr) as (rest & m & E & B).
    rewrite E in Hc'.
    assert (E' : Some c' = Some (extended (fitted w c)
                   (fade_calls (params w) (width (fitted w c)) (height (fitted w c))
                    ++ base_calls v (params w) (width (fitted w c)) (height (fitted w c))
                    ++ rest)))
      by (rewrite <- Hc'; destruct w; reflexivity).
    apply (inj Some) in E'. rewrite E'. apply clean_extended; [exact H0|].
    apply quiet_app; [apply quiet_fade|].
    apply balanced_quiet, balanced_app; [apply balanced_base | exact B].
Qed.

(** ** The render loop and missing handles *)

(** C5, amended.  When a handle is missing at tick time the tick is a no-op
    that raises nothing, and it requests no further frame: with the tick's
    own request consumed, nothing is pending any more although [isPlaying]
    is still true.  The loop starts again when the play-state effect next
    runs with [isPlaying] true: it requests one frame. *)
Theorem tick_without_handle_halts w id :
  isPlaying w = true -> raf_pending w = [id] ->
  canvasRef w = None \/ videoRef w = None ->
  renderLoop w = Ok tt w
  /\ returns (tick id w) = true
  /\ raf_pending (world_of (tick id w)) = []
  /\ isPlaying (world_of (tick id w)) = true
  /\ canvasRef (world_of (tick id w)) = canvasRef w
  /\ videoRef (world_of (tick id w)) = videoRef w
  /\ returns (effect_playing (world_of (tick id w))) = true
  /\ raf_pending (world_of (effect_playing (world_of (tick id w)))) = [raf_next w].
Proof.
  intros Hp Hq Hh. split; [exact (renderLoop_without_handle w Hh)|].
  unfold tick, bind, modify.
  rewrite renderLoop_without_handle by (destruct w; exact Hh).
  destruct w; cbn in *; subst. cbn.
  rewrite decide_False by auto. cbn. auto 10.
Qed.

Lemma tick_without_handle_halts_witness :
  let w := set_raf [0%nat] 1
             (unmounted_canvas
                (mounted (fresh_canvas 2 1) no_signal "blob:clip" defaultParams
                         (fun _ => 1 # 2))) in
  isPlaying w = true /\ raf_pending w = [0%nat] /\ canvasRef w = None
  /\ renderLoop w = Ok tt w
  /\ raf_pending (world_of (tick 0 w)) = []
  /\ raf_pending (world_of (effect_playing (world_of (tick 0 w)))) = [1%nat].
Proof.
  cbv zeta. split; [reflexivity|]. split; [reflexivity|]. split; [reflexivity|].
  pose proof (tick_without_handle_halts
                (set_raf [0%nat] 1
                   (unmounted_canvas
                      (mounted (fresh_canvas 2 1) no_signal "blob:clip" defaultParams
                               (fun _ => 1 # 2))))
                0%nat eq_refl eq_refl (or_introl eq_refl))
    as (H1 & _ & H3 & _ & _ & _ & _ & H8).
  exact (conj H1 (conj H3 H8)).
Defined.

(** C5 as stated fails: the loop does not keep running.  With [isPlaying]
    true, frame 0 pending and the canvas handle missing (or the video
    handle), the tick returns without raising and leaves no frame pending:
    no further tick is scheduled. *)
Lemma missing_handle_stops_the_loop :
  let w := set_raf [0%nat] 1
             (unmounted_canvas
                (mounted (fresh_canvas 2 1) no_signal "blob:clip" defaultParams
                         (fun _ => 1 # 2))) in
  let w' := set_raf [0%nat] 1
              (set_videoRef None
                 (mounted (fresh_canvas 2 1) no_signal "blob:clip" defaultParams
                          (fun _ => 1 # 2))) in
  (isPlaying w = true /\ canvasRef w = None /\ raf_pending w = [0%nat]
   /\ returns (tick 0 w) = true
   /\ isPlaying (world_of (tick 0 w)) = true
   /\ raf_pending (world_of (tick 0 w)) = [])
  /\ (isPlaying w' = true /\ videoRef w' = None /\ raf_pending w' = [0%nat]
      /\ returns (tick 0 w') = true
      /\ isPlaying (world_of (tick 0 w')) = true
      /\ raf_pending (world_of (tick 0 w')) = []).
Proof. cbv zeta. split; split_and!; reflexivity. Qed.

(** The sibling early return, taken while the frame is not ready, does
    request the next frame. *)
Lemma tick_without_frame_continues w c v id :
  canvasRef w = Some c -> videoRef w = Some v -> (readyState v <? 2)%Z = true ->
  String.eqb (videoSrc w) "" = false -> raf_pending w = [id] ->
  returns (tick id w) = true
  /\ raf_pending (world_of (tick id w)) = [raf_next w].
Proof.
  intros Hc Hv Hr Hsrc Hq. unfold tick, bind, modify.
  rewrite (renderLoop_no_signal_quiet _ c v) by (destruct w; assumption).
  destruct w; cbn in *; subst. cbn. rewrite decide_False by auto. auto.
Qed.

(** ** Playback start *)

(** C6: what [togglePlay] does when the platform refuses to start playback.
    The rejection is logged, the video stays paused, and [isPlaying] is set
    to true all the same. *)
Theorem togglePlay_rejected_still_advances w v :
  videoRef w = Some v -> isPlaying w = false ->
  togglePlay false w =
  Ok tt (set_isPlaying true (set_console (console w ++ ["NotAllowedError"%string]) w)).
Proof.
  intros Hv Hp. unfold togglePlay, video_play, console_error.
  destruct w; cbn in *; subst. reflexivity.
Qed.

Lemma togglePlay_rejected_still_advances_witness :
  let w := set_isPlaying false
             (mounted (fresh_canvas 2 1) (clip 4 2) "blob:clip" defaultParams
                      (fun _ => 1 # 2)) in
  isPlaying w = false
  /\ isPlaying (world_of (togglePlay false w)) = true
  /\ console (world_of (togglePlay false w)) = ["NotAllowedError"%string].
Proof.
  cbv zeta. split; [reflexivity|].
  rewrite (togglePlay_rejected_still_advances
             (set_isPlaying false
                (mounted (fresh_canvas 2 1) (clip 4 2) "blob:clip" defaultParams
                         (fun _ => 1 # 2)))
             (clip 4 2) eq_refl eq_refl).
  split; reflexivity.
Defined.

(** The [videoSrc] effect, by contrast, advances the play state only when
    the promise fulfils. *)
Lemma effect_videoSrc_rejected_keeps_state w v :
  videoRef w = Some v -> String.eqb (videoSrc w) "" = false ->
  effect_videoSrc false w = Ok tt (set_console (console w ++ ["NotAllowedError"%string]) w).
Proof.
  intros Hv Hs. unfold effect_videoSrc, video_play, console_error.
  destruct w; cbn in *; subst. rewrite Hs. reflexivity.
Qed.

(** An upload sets [isPlaying] before playback is even attempted, so a
    rejection in the effect that follows finds it already true. *)
Lemma upload_then_rejected_is_playing w v url :
  videoRef w = Some v -> String.eqb url "" = false ->
  isPlaying (world_of ((handleFileUpload (Some url) ;; effect_videoSrc false) w)) = true.
Proof.
  intros Hv Hu. unfold handleFileUpload, effect_videoSrc, video_play, console_error.
  destruct w; cbn in *; subst. rewrite Hu. reflexivity.
Qed.

(** ** Stopping an idle sink *)

(** C8.  With the sink idle (no recorder was ever installed, or the
    installed recorder has completed its session) [stopRecording] returns
    normally and leaves the world as it was. *)
Theorem stopRecording_idle_noop w :
  sink_idle w -> stopRecording w = Ok tt w.
Proof.
  unfold sink_idle, stopRecording, bind, get, ret, recorder_stop.
  destruct (recorderRef w) as [rid|]; [|reflexivity].
  destruct (recorders w !! rid) as [rc|]; cbn; [|discriminate].
  intros E. injection E as ->. reflexivity.
Qed.

Lemma stopRecording_idle_noop_witness :
  let never := mounted (fresh_canvas 2 1) (clip 4 2) "blob:clip" defaultParams
                       (fun _ => 1 # 2) in
  let done := after_one_session never in
  (sink_idle never /\ stopRecording never = Ok tt never)
  /\ (recorderRef done = Some 0%nat /\ sink_idle done /\ stopRecording done = Ok tt done).
Proof.
  cbv zeta.
  assert (H1 : sink_idle (mounted (fresh_canvas 2 1) (clip 4 2) "blob:clip" defaultParams
                                  (fun _ => 1 # 2))) by exact I.
  assert (H2 : sink_idle (after_one_session
                            (mounted (fresh_canvas 2 1) (clip 4 2) "blob:clip"
                                     defaultParams (fun _ => 1 # 2))))
    by (vm_compute; reflexivity).
  split; [split; [exact H1 | exact (stopRecording_idle_noop _ H1)]|].
  split; [vm_compute; reflexivity|].
  split; [exact H2 | exact (stopRecording_idle_noop _ H2)].
Defined.

(** ** Recording sessions *)

Lemma startRecording_installs w c :
  canvasRef w = Some c ->
  let rid := fresh (dom (recorders w)) in
  startRecording w =
  Ok tt (set_recorderRef (Some rid)
           (set_recorders (<[rid := {| rec_state := RecRecording;
                                       rec_mimeType := "video/webm; codecs=vp9";
                                       rec_frameRate := 30 |}]> (recorders w))
              (set_recordedChunksRef [] (set_isRecording true w)))).
Proof.
  intros Hc rid. unfold startRecording, new_MediaRecorder, recorder_start.
  destruct w; cbn in *; subst. world_norm. cbn.
  rewrite lookup_insert_eq. cbn. rewrite insert_insert_eq. reflexivity.
Qed.

Lemma act_in_session a w rid :
  is_start a = false -> recorderRef w = Some rid -> is_Some (recorders w !! rid) ->
  exists w',
    act a w = Ok tt w'
    /\ recordedChunksRef w' = recordedChunksRef w ++ List.filter non_empty (delivered [a])
    /\ recorderRef w' = Some rid
    /\ is_Some (recorders w' !! rid).
Proof.
  intros Hs Hr [rc Hrc]. destruct a as [| |[r data|r]]; try discriminate.
  - unfold act, stopRecording, bind, get, recorder_stop. rewrite Hr, Hrc.
    destruct (rec_state rc); eexists; (split; [reflexivity|]); cbn;
      rewrite ?app_nil_r; split_and!; trivial;
      try (destruct w; cbn in *; trivial; fail); try (eexists; eassumption).
    destruct w; cbn in *. rewrite lookup_insert_eq. eauto.
  - unfold act, fire, ondataavailable, non_empty. cbn [delivered List.filter].
    destruct (0 <? length data)%nat; eexists; (split; [reflexivity|]);
      destruct w; cbn in *; rewrite ?app_nil_r; split_and!; eauto.
  - unfold act, fire, onstop. eexists. split; [reflexivity|].
    destruct w; cbn in *. rewrite app_nil_r. split_and!; trivial.
    rewrite lookup_alter. destruct (decide (r = rid)) as [->|];
      [rewrite Hrc | rewrite Hrc]; cbn; eauto.
Qed.

Lemma delivered_app a b : delivered (a ++ b) = delivered a ++ delivered b.
Proof.
  induction a as [|[| |[r data|r]] a IH]; cbn; rewrite ?IH; reflexivity.
Qed.

Lemma run_in_session acts : forall w rid,
  forallb (fun a => negb (is_start a)) acts = true ->
  recorderRef w = Some rid -> is_Some (recorders w !! rid) ->
  exists w',
    run acts w = Ok tt w'
    /\ recordedChunksRef w' = recordedChunksRef w ++ List.filter non_empty (delivered acts)
    /\ recorderRef w' = Some rid
    /\ is_Some (recorders w' !! rid).
Proof.
  induction acts as [|a acts IH]; intros w rid Hs Hr Hrc.
  - exists w. cbn. rewrite app_nil_r. auto.
  - cbn in Hs. apply andb_true_iff in Hs as [Ha Hs]. apply negb_true_iff in Ha.
    destruct (act_in_session a w rid Ha Hr Hrc) as (w1 & E1 & B1 & R1 & M1).
    destruct (IH w1 rid Hs R1 M1) as (w2 & E2 & B2 & R2 & M2).
    exists w2. cbn [run]. unfold bind. rewrite E1, E2. split_and!; trivial.
    rewrite B2, B1. change (a :: acts) with ([a] ++ acts).
    rewrite delivered_app, List.filter_app, app_assoc. reflexivity.
Qed.

Lemma run_app a b w :
  run (a ++ b) w = (run a ;; run b) w.
Proof.
  revert w; induction a as [|x a IH]; intros w; cbn [run app].
  - reflexivity.
  - unfold bind. destruct (act x w); [apply IH | reflexivity].
Qed.

Lemma admissible_prefix a b : forall w,
  admissible (a ++ b) w = true -> admissible a w = true.
Proof.
  induction a as [|x a IH]; intros w H; [reflexivity|].
  cbn [admissible app] in *. apply andb_true_iff in H as [H1 H2].
  apply andb_true_iff. split; [exact H1 | apply IH, H2].
Qed.

(** While every other recorder has completed, the only recorder the platform
    may deliver data for is the installed one. *)
Lemma admissible_only_own acts : forall w rid,
  forallb (fun a => negb (is_start a)) acts = true ->
  recorderRef w = Some rid ->
  (forall r rc, r <> rid -> recorders w !! r = Some rc -> rec_state rc = RecStopped) ->
  admissible acts w = true ->
  forall r data, In (Fire (DataAvailable r data)) acts -> r = rid.
Proof.
  induction acts as [|a acts IH]; intros w rid Hs Hr Hothers Hadm r data Hin;
    [contradiction|].
  cbn in Hs. apply andb_true_iff in Hs as [Ha Hs]. apply negb_true_iff in Ha.
  cbn [admissible] in Hadm. apply andb_true_iff in Hadm as [Hfire Hadm].
  destruct Hin as [-> | Hin].
  - destruct (decide (r = rid)) as [|Hne]; [assumption|exfalso].
    cbn in Hfire. destruct (recorders w !! r) as [rc|] eqn:E; cbn in Hfire; [|discriminate].
    rewrite (Hothers r rc Hne E) in Hfire. discriminate.
  - refine (IH (world_of (act a w)) rid Hs _ _ Hadm r data Hin).
    + destruct a as [| |[r' d'|r']]; try discriminate; cbn;
        unfold stopRecording, bind, get, recorder_stop, ondataavailable; rewrite ?Hr;
        repeat match goal with
               | |- context [match ?x with _ => _ end] => destruct x
               end; cbn; trivial; destruct w; exact Hr.
    + intros r0 rc0 Hne. destruct a as [| |[r' d'|r']]; try discriminate; cbn.
      * unfold stopRecording, bind, get, recorder_stop. rewrite Hr.
        destruct (recorders w !! rid) as [rc|] eqn:E; [destruct (rec_state rc)|];
          cbn; try apply (Hothers r0 rc0 Hne).
        destruct w; cbn in *. rewrite lookup_insert_ne by auto. apply (Hothers r0 rc0 Hne).
      * unfold ondataavailable. destruct (0 <? length d')%nat; cbn;
          [destruct w; cbn in *|]; apply (Hothers r0 rc0 Hne).
      * destruct w; cbn in *. rewrite lookup_alter.
        destruct (decide (r' = r0)) as [->|]; [|apply (Hothers r0 rc0 Hne)].
        destruct (recorders0 !! r0) as [rc1|]; cbn; [|discriminate].
        intros [= <-]. reflexivity.
Qed.

(** C7.  A session is a call of [startRecording] (with the canvas mounted),
    then any handler calls and recorder events that contain no further
    [startRecording], then the [stop] event of the recorder that call
    installed.  The session never throws, and the file its [stop] event
    offers is named [glitch_effect.webm], has type [video/webm], and holds
    the non-empty chunks delivered in between, concatenated in delivery
    order; when no non-empty chunk was delivered it is the empty file.
    When the sink was idle at the start (every earlier recorder had
    completed), the chunks the platform can deliver in between are those of
    the session's own recorder. *)
Theorem recording_session_artifact w c acts :
  canvasRef w = Some c ->
  forallb (fun a => negb (is_start a)) acts = true ->
  let rid := fresh (dom (recorders w)) in
  (exists w',
      run (CallStart :: acts ++ [Fire (Stopped rid)]) w = Ok tt w'
      /\ last (downloads w') =
         Some {| d_name := "glitch_effect.webm"; d_type := "video/webm";
                 d_bytes := concat (List.filter non_empty (delivered acts)) |}
      /\ (List.filter non_empty (delivered acts) = [] ->
          last (downloads w') = Some (artifact []))
      /\ isRecording w' = false)
  /\ ((forall r rc, recorders w !! r = Some rc -> rec_state rc = RecStopped) ->
      admissible (CallStart :: acts ++ [Fire (Stopped rid)]) w = true ->
      forall r data, In (Fire (DataAvailable r data)) acts -> r = rid).
Proof.
  intros Hc Hs rid.
  pose proof (startRecording_installs w c Hc) as E0. cbv zeta in E0. fold rid in E0.
  set (w0 := set_recorderRef (Some rid) _) in E0.
  assert (R0 : recorderRef w0 = Some rid) by (subst w0; destruct w; reflexivity).
  split.
  - destruct (run_in_session acts w0 rid Hs R0) as (w1 & E1 & B1 & R1 & M1).
    { subst w0. destruct w; cbn. rewrite lookup_insert_eq. eauto. }
    assert (B0 : recordedChunksRef w0 = []) by (subst w0; destruct w; reflexivity).
    rewrite B0 in B1. cbn [app] in B1.
    eexists. cbn [run act]. unfold bind at 1. rewrite E0.
    rewrite run_app. unfold bind at 1. rewrite E1.
    cbn [run act fire]. unfold onstop. world_norm.
    split; [reflexivity|].
    destruct w1; cbn in *. subst. rewrite last_snoc. split_and!; trivial.
    intros ->. reflexivity.
  - intros Hidle Hadm.
    cbn [admissible act] in Hadm. rewrite E0 in Hadm. cbn [world_of] in Hadm.
    apply andb_true_iff in Hadm as [_ Hadm]. apply admissible_prefix in Hadm.
    apply (admissible_only_own acts w0 rid Hs R0); [|exact Hadm].
    intros r rc Hne. subst w0. destruct w; cbn in *.
    rewrite lookup_insert_ne by auto. apply Hidle.
Qed.

Lemma recording_session_artifact_witness :
  let w := mounted (fresh_canvas 2 1) (clip 4 2) "blob:clip" defaultParams (fun _ => 1 # 2) in
  let c1 := [Byte.x1a; Byte.x45] in
  let c3 := [Byte.xdf] in
  let acts := [Fire (DataAvailable 0 c1); Fire (DataAvailable 0 []); CallStop;
               Fire (DataAvailable 0 c3)] in
  admissible (CallStart :: acts ++ [Fire (Stopped 0)]) w = true
  /\ exists w',
       run (CallStart :: acts ++ [Fire (Stopped 0)]) w = Ok tt w'
       /\ last (downloads w') = Some (artifact [Byte.x1a; Byte.x45; Byte.xdf]).
Proof.
  cbv zeta. split; [vm_compute; reflexivity|].
  destruct (recording_session_artifact
              (mounted (fresh_canvas 2 1) (clip 4 2) "blob:clip" defaultParams
                       (fun _ => 1 # 2))
              (fresh_canvas 2 1)
              [Fire (DataAvailable 0 [Byte.x1a; Byte.x45]); Fire (DataAvailable 0 []);
               CallStop; Fire (DataAvailable 0 [Byte.xdf])]
              eq_refl eq_refl) as [(w' & E & L & _) _].
  exists w'. split; [exact E | exact L].
Defined.

(** An immediate stop: the session ends with the empty file. *)
Example empty_session_artifact :
  let w := mounted (fresh_canvas 2 1) (clip 4 2) "blob:clip" defaultParams (fun _ => 1 # 2) in
  returns (run [CallStart; CallStop; Fire (Stopped 0)] w) = true
  /\ downloads (world_of (run [CallStart; CallStop; Fire (Stopped 0)] w)) = [artifact []].
Proof. split; vm_compute; reflexivity. Qed.

(** C10.  [startRecording] called while the installed recorder is still
    recording leaves that recorder recording, empties the shared chunk
    buffer and installs a new recorder.  A non-empty chunk the old recorder
    then delivers lands in the new buffer and is in the file the new
    session's [stop] event offers; the old recorder is still recording
    afterwards. *)
Theorem startRecording_over_active_recorder w c old rc data :
  canvasRef w = Some c ->
  recorderRef w = Some old -> recorders w !! old = Some rc ->
  rec_state rc = RecRecording -> non_empty data = true ->
  let new := fresh (dom (recorders w)) in
  exists w1 w2,
    startRecording w = Ok tt w1
    /\ new <> old
    /\ recorderRef w1 = Some new
    /\ recordedChunksRef w1 = []
    /\ recorders w1 !! old = Some rc
    /\ admissible [Fire (DataAvailable old data); CallStop; Fire (Stopped new)] w1 = true
    /\ run [Fire (DataAvailable old data); CallStop; Fire (Stopped new)] w1 = Ok tt w2
    /\ last (downloads w2) = Some (artifact data)
    /\ recorders w2 !! old = Some rc.
Proof.
  intros Hc Hr Hold Hst Hne new.
  assert (Hfresh : recorders w !! new = None)
    by (apply not_elem_of_dom, is_fresh).
  assert (Hneq : new <> old) by (intros ->; congruence).
  pose proof (startRecording_installs w c Hc) as E0. cbv zeta in E0. fold new in E0.
  unfold non_empty in Hne. clearbody new.
  destruct w; cbn in Hc, Hr, Hold, Hfresh; subst.
  eexists _, _. split; [exact E0|].
  cbn [admissible run act fire can_fire].
  unfold stopRecording, recorder_stop, onstop, ondataavailable. world_norm.
  rewrite Hne. world_norm.
  rewrite !lookup_insert_eq. cbn.
  rewrite !lookup_insert_ne by auto. rewrite Hold. cbn. rewrite Hst.
  rewrite !lookup_insert_eq. cbn.
  split_and!; trivial.
  - cbn. rewrite last_snoc. unfold artifact. now rewrite app_nil_r.
  - cbn. rewrite lookup_alter_ne by auto. rewrite !lookup_insert_ne by auto. exact Hold.
Qed.

Lemma startRecording_over_active_recorder_witness :
  let w := world_of (startRecording
                       (mounted (fresh_canvas 2 1) (clip 4 2) "blob:clip" defaultParams
                                (fun _ => 1 # 2))) in
  (recorderRef w = Some 0%nat /\ rec_state <$> recorders w !! 0%nat = Some RecRecording)
  /\ exists w1 w2,
       startRecording w = Ok tt w1
       /\ recorderRef w1 = Some 1%nat
       /\ run [Fire (DataAvailable 0 [Byte.x1a]); CallStop; Fire (Stopped 1)] w1 = Ok tt w2
       /\ last (downloads w2) = Some (artifact [Byte.x1a]).
Proof.
  cbv zeta. split; [split; vm_compute; reflexivity|].
  destruct (startRecording_over_active_recorder
              (world_of (startRecording
                           (mounted (fresh_canvas 2 1) (clip 4 2) "blob:clip" defaultParams
                                    (fun _ => 1 # 2))))
              (fresh_canvas 2 1) 0%nat
              {| rec_state := RecRecording; rec_mimeType := "video/webm; codecs=vp9";
                 rec_frameRate := 30 |}
              [Byte.x1a] eq_refl eq_refl eq_refl eq_refl eq_refl)
    as (w1 & w2 & E1 & _ & R1 & _ & _ & _ & E2 & L2 & _).
  exists w1, w2. split_and!; assumption.
Defined.

(** ** Determinism of a tick *)

Create HintDb det discriminated.

Lemma agree_refl w : agree w w.
Proof. unfold agree. auto 10. Qed.

Lemma det_ret {A} (a : A) : deterministic (ret a).
Proof. intros w1 w2 H. cbn. auto. Qed.

Lemma det_throw {A} e : deterministic (@throw A e).
Proof. intros w1 w2 H. cbn. auto. Qed.


Lemma det_if {A} (b : bool) (m1 m2 : M A) :
  deterministic m1 -> deterministic m2 -> deterministic (if b then m1 else m2).
Proof. now destruct b. Qed.

Lemma det_get_canvasRef : deterministic (get canvasRef).
Proof. intros w1 w2 H. cbn. split; [apply H | exact H]. Qed.






Lemma det_get_params : deterministic (get params).
Proof. intros w1 w2 H. cbn. split; [apply H | exact H]. Qed.


Lemma det_canvas_now : deterministic canvas_now.
Proof.
  intros w1 w2 H. pose proof H as (Hc & _). unfold canvas_now.
  rewrite Hc. destruct (canvasRef w2); cbn; auto.
Qed.

Ltac det_prim :=
  let w1 := fresh "w1" in
  let w2 := fresh "w2" in
  let Hd := fresh "Hd" in
  intros w1 w2 (? & ? & ? & ? & ? & Hd);
  destruct w1, w2; unfold draw in Hd; cbn in *; subst.

Lemma det_ctx cs : deterministic (ctx cs).
Proof.
  det_prim. unfold ctx; cbn.
  match goal with |- context [match ?c with Some _ => _ | None => _ end] => destruct c end;
    cbn; unfold agree, draw; cbn; auto 10.
Qed.

Lemma det_resize_handling : deterministic resize_handling.
Proof.
  det_prim. unfold resize_handling; cbn.
  repeat match goal with
         | |- context [match ?c with Some _ => _ | None => _ end] => destruct c
         | |- context [let (_, _) := ?c in _] => destruct c
         | |- context [if ?c then _ else _] => destruct c
         end;
    cbn; unfold agree, draw; cbn; auto 10.
Qed.

Lemma det_Math_random : deterministic Math_random.
Proof.
  det_prim. unfold Math_random; cbn.
  split; [exact (Hd 0%nat)|].
  unfold agree, draw; cbn. split_and!; trivial.
  intros k. specialize (Hd (S k)). cbn in Hd. now rewrite <- !plus_n_Sm.
Qed.

Lemma det_schedule_next : deterministic schedule_next.
Proof.
  det_prim. unfold schedule_next, requestAnimationFrame, bind, modify. cbn.
  unfold agree, draw; cbn. auto 10.
Qed.

Lemma det_createImageData w h : deterministic (createImageData w h).
Proof. unfold createImageData. apply det_if; [apply det_throw | apply det_ret]. Qed.

#[export] Hint Resolve det_ret det_throw det_if det_get_canvasRef
  det_get_params det_canvas_now det_ctx det_resize_handling
  det_Math_random det_schedule_next det_createImageData : det.










(** ** The recording buttons *)

Lemma stopRecording_keeps_one_session w c :
  canvasRef w = Some c -> one_session_at_a_time w ->
  exists w', stopRecording w = Ok tt w'
             /\ canvasRef w' = Some c /\ one_session_at_a_time w'.
Proof.
  intros Hc Hinv. pose proof Hinv as [Inv Hex].
  unfold stopRecording, bind, get, recorder_stop.
  destruct (recorderRef w) as [rid|] eqn:Hr; [|exists w; auto].
  destruct (Hex rid eq_refl) as [rc E]. rewrite E.
  destruct (rec_state rc) eqn:Hst; try (exists w; auto; fail).
  clear Hinv.
  eexists. split; [reflexivity|]. split; [destruct w; exact Hc|].
  destruct w; sets_away; subst. split.
  - intros r rc' Hl Hns. destruct (decide (r = rid)) as [->|Hne].
    + apply (Inv rid rc E). rewrite Hst. discriminate.
    + rewrite lookup_insert_ne in Hl by auto. apply (Inv r rc' Hl Hns).
  - intros rid' Hr'. rewrite lookup_insert. destruct (decide (rid = rid')); eauto.
Qed.

(** Driven through the buttons, with the canvas mounted, the sink keeps one
    session at a time. *)
Lemma gesture_keeps_one_session g w c :
  canvasRef w = Some c -> one_session_at_a_time w -> may_occur g w = true ->
  exists w', gesture g w = Ok tt w'
             /\ canvasRef w' = Some c /\ one_session_at_a_time w'.
Proof.
  intros Hc Inv Hocc. destruct g as [| |[r data|r]]; cbn [gesture].
  - unfold clickRecord, bind, get. destruct (isRecording w) eqn:Hrec.
    + exact (stopRecording_keeps_one_session w c Hc Inv).
    + rewrite (startRecording_installs w c Hc). eexists. split; [reflexivity|].
      split; [destruct w; exact Hc|].
      assert (Hfresh : recorders w !! fresh (dom (recorders w)) = None)
        by (apply not_elem_of_dom, is_fresh).
      destruct Inv as [Inv Hex]. destruct w; sets_away. split.
      * intros r rc Hl Hns. rewrite lookup_insert in Hl.
        destruct (decide (fresh (dom recorders0) = r)) as [<-|Hne]; [auto|].
        destruct (Inv r rc Hl Hns) as [F _]. congruence.
      * intros rid [= <-]. rewrite lookup_insert_eq. eauto.
  - exact (stopRecording_keeps_one_session w c Hc Inv).
  - unfold fire, ondataavailable. destruct (0 <? length data)%nat;
      eexists; (split; [reflexivity|]); destruct w; sets_away; auto.
  - cbn in Hocc. destruct (recorders w !! r) as [rc|] eqn:E; cbn in Hocc; [|discriminate].
    destruct (rec_state rc) eqn:Hst; try discriminate.
    destruct Inv as [Inv Hex].
    destruct (Inv r rc E) as [_ Href]; [rewrite Hst; discriminate|].
    unfold fire, onstop. eexists. split; [reflexivity|].
    destruct w; sets_away. split; [exact Hc|]. split.
    + intros r' rc' Hl Hns. rewrite lookup_alter in Hl.
      destruct (decide (r = r')) as [<-|Hne].
      * rewrite E in Hl. cbn in Hl. injection Hl as <-. now contradiction Hns.
      * destruct (Inv r' rc' Hl Hns) as [_ F]. congruence.
    + intros rid Hr'. rewrite lookup_alter. destruct (decide (r = rid)) as [<-|].
      * rewrite E. cbn. eauto.
      * apply Hex, Hr'.
Qed.

(** So when the "Record" button does start a recording, every recorder
    installed earlier has completed: the button never starts over an active
    recorder. *)
Lemma record_button_starts_from_idle w :
  one_session_at_a_time w -> isRecording w = false ->
  clickRecord w = startRecording w
  /\ forall r rc, recorders w !! r = Some rc -> rec_state rc = RecStopped.
Proof.
  intros [Inv _] Hrec. split.
  - unfold clickRecord, bind, get. now rewrite Hrec.
  - intros r rc Hl. destruct (rec_state rc) eqn:Hst; trivial;
      destruct (Inv r rc Hl) as [F _]; try (rewrite Hst; discriminate); congruence.
Qed.

(** * Further properties *)

(** ** What a computation leaves alone *)

Lemma keeps_ret {A B} (f : World -> B) (a : A) : keeps f (ret a).
Proof. intros w. reflexivity. Qed.

Lemma keeps_throw {A B} (f : World -> B) e : keeps f (@throw A e).
Proof. intros w. reflexivity. Qed.

Lemma keeps_get {A B} (f : World -> B) (g : World -> A) : keeps f (get g).
Proof. intros w. reflexivity. Qed.

Lemma keeps_bind {A B C} (f : World -> C) (m : M A) (k : A -> M B) :
  keeps f m -> (forall a, keeps f (k a)) -> keeps f (bind m k).
Proof.
  intros Hm Hk w. unfold bind. specialize (Hm w).
  destruct (m w) as [a w'|e w']; cbn in Hm; [|exact Hm].
  rewrite Hk. exact Hm.
Qed.

Lemma keeps_if {A B} (f : World -> B) (b : bool) (m1 m2 : M A) :
  keeps f m1 -> keeps f m2 -> keeps f (if b then m1 else m2).
Proof. now destruct b. Qed.

Ltac keeps_prim :=
  let w := fresh "w" in
  intros w; destruct w; cbn;
  repeat match goal with
         | |- context [match ?c with Some _ => _ | None => _ end] => destruct c
         | |- context [let (_, _) := ?c in _] => destruct c
         | |- context [if ?c then _ else _] => destruct c
         end; reflexivity.

Lemma surface_ctx cs : keeps beside_the_surface (ctx cs).
Proof. unfold ctx. keeps_prim. Qed.
Lemma surface_canvas_now : keeps beside_the_surface canvas_now.
Proof. unfold canvas_now. keeps_prim. Qed.
Lemma surface_resize_handling : keeps beside_the_surface resize_handling.
Proof. unfold resize_handling. keeps_prim. Qed.
Lemma surface_Math_random : keeps beside_the_surface Math_random.
Proof. unfold Math_random. keeps_prim. Qed.
Lemma surface_schedule_next : keeps beside_the_surface schedule_next.
Proof. unfold schedule_next, requestAnimationFrame, bind, modify. keeps_prim. Qed.
Lemma surface_createImageData w h : keeps beside_the_surface (createImageData w h).
Proof. unfold createImageData. apply keeps_if; [apply keeps_throw | apply keeps_ret]. Qed.

Create HintDb surface discriminated.
#[export] Hint Resolve keeps_ret keeps_throw keeps_get keeps_if surface_ctx
  surface_canvas_now surface_resize_handling surface_Math_random
  surface_schedule_next surface_createImageData : surface.

Ltac surface_steps :=
  repeat first [ solve [auto with surface] | apply keeps_bind; [|intros ?] | apply keeps_if ].

Lemma surface_noise_loop n : forall i buf, keeps beside_the_surface (noise_loop n i buf).
Proof. induction n as [|n IH]; intros i buf; cbn [noise_loop]; surface_steps; apply IH. Qed.

Lemma surface_slice_attempt v p sc ox oy :
  keeps beside_the_surface (slice_attempt v p sc ox oy).
Proof. unfold slice_attempt, r. surface_steps. Qed.

Lemma surface_slice_loop n v p sc ox oy :
  keeps beside_the_surface (slice_loop n v p sc ox oy).
Proof.
  induction n as [|n IH]; cbn [slice_loop]; surface_steps;
    first [apply surface_slice_attempt | apply IH].
Qed.

Lemma surface_renderLoop : keeps beside_the_surface renderLoop.
Proof.
  unfold renderLoop. surface_steps.
  destruct a as [c|]; [destruct a0 as [v|]|]; surface_steps;
    first [apply surface_noise_loop | apply surface_slice_loop].
Qed.

(** X1.  A tick touches the surface, the random cursor and the frame
    requests, and nothing else: whether it returns or throws, the play and
    recording state, the source, the parameters, the video element, the
    container, the recorders and their chunk buffer, the log and the
    downloads are as they were. *)
Theorem renderLoop_leaves_component_state w :
  let w' := world_of (renderLoop w) in
  isPlaying w' = isPlaying w /\ videoSrc w' = videoSrc w
  /\ isRecording w' = isRecording w /\ params w' = params w
  /\ videoRef w' = videoRef w /\ containerRef w' = containerRef w
  /\ recorderRef w' = recorderRef w /\ recordedChunksRef w' = recordedChunksRef w
  /\ recorders w' = recorders w /\ console w' = console w
  /\ downloads w' = downloads w.
Proof.
  pose proof (surface_renderLoop w) as H. unfold beside_the_surface in H. cbv zeta.
  injection H as -> -> -> -> -> -> -> -> -> -> -> _. auto 12.
Qed.

(** ** Frame requests *)

Lemma requests_keeps {A} (m : M A) : keeps frame_requests m -> requests_at_most_one m.
Proof. intros H w. left. apply H. Qed.

Lemma requests_bind {A B} (m : M A) (k : A -> M B) :
  keeps frame_requests m -> (forall a, requests_at_most_one (k a)) ->
  requests_at_most_one (bind m k).
Proof.
  intros Hm Hk w. unfold bind. specialize (Hm w).
  destruct (m w) as [a w'|e w']; cbn in Hm; [|left; exact Hm].
  unfold frame_requests in Hm. injection Hm as E1 E2 E3.
  destruct (Hk a w') as [H | [Hr H]].
  - left. rewrite H. unfold frame_requests. congruence.
  - right. split; [exact Hr|]. rewrite H. congruence.
Qed.

Lemma requests_if {A} (b : bool) (m1 m2 : M A) :
  requests_at_most_one m1 -> requests_at_most_one m2 ->
  requests_at_most_one (if b then m1 else m2).
Proof. now destruct b. Qed.

Lemma requests_schedule_next : requests_at_most_one schedule_next.
Proof. intros w. right. destruct w; split; reflexivity. Qed.

Lemma frames_ctx cs : keeps frame_requests (ctx cs).
Proof. unfold ctx. keeps_prim. Qed.
Lemma frames_canvas_now : keeps frame_requests canvas_now.
Proof. unfold canvas_now. keeps_prim. Qed.
Lemma frames_resize_handling : keeps frame_requests resize_handling.
Proof. unfold resize_handling. keeps_prim. Qed.
Lemma frames_Math_random : keeps frame_requests Math_random.
Proof. unfold Math_random. keeps_prim. Qed.
Lemma frames_createImageData w h : keeps frame_requests (createImageData w h).
Proof. unfold createImageData. apply keeps_if; [apply keeps_throw | apply keeps_ret]. Qed.

Create HintDb frames discriminated.
#[export] Hint Resolve keeps_ret keeps_throw keeps_get keeps_if frames_ctx
  frames_canvas_now frames_resize_handling frames_Math_random
  frames_createImageData : frames.

Ltac frames_steps :=
  repeat first [ solve [auto with frames] | apply keeps_bind; [|intros ?] | apply keeps_if ].

Lemma frames_noise_loop n : forall i buf, keeps frame_requests (noise_loop n i buf).
Proof. induction n as [|n IH]; intros i buf; cbn [noise_loop]; frames_steps; apply IH. Qed.

Lemma frames_slice_attempt v p sc ox oy : keeps frame_requests (slice_attempt v p sc ox oy).
Proof. unfold slice_attempt, r. frames_steps. Qed.

Lemma frames_slice_loop n v p sc ox oy : keeps frame_requests (slice_loop n v p sc ox oy).
Proof.
  induction n as [|n IH]; cbn [slice_loop]; frames_steps;
    first [apply frames_slice_attempt | apply IH].
Qed.

Lemma renderLoop_requests_at_most_one : requests_at_most_one renderLoop.
Proof.
  unfold renderLoop.
  apply requests_bind; [frames_steps | intros canvas].
  apply requests_bind; [frames_steps | intros video].
  destruct canvas as [c|]; [destruct video as [v|]|];
    try (apply requests_keeps; frames_steps; fail).
  apply requests_bind; [frames_steps | intros _].
  apply requests_bind; [frames_steps | intros c'].
  apply requests_bind; [frames_steps | intros p].
  apply requests_bind; [frames_steps | intros _].
  apply requests_if.
  - apply requests_bind; [frames_steps | intros src].
    apply requests_bind; [|intros _; apply requests_schedule_next].
    frames_steps. apply frames_noise_loop.
  - apply requests_bind; [frames_steps | intros _].
    apply requests_bind; [apply frames_slice_loop | intros _; apply requests_schedule_next].
Qed.

Lemma frames_togglePlay accepts : keeps frame_requests (togglePlay accepts).
Proof. unfold togglePlay, video_play, video_pause, console_error, bind, get, modify. keeps_prim. Qed.

Lemma frames_handleFileUpload file : keeps frame_requests (handleFileUpload file).
Proof. destruct file; unfold handleFileUpload, bind, modify; keeps_prim. Qed.

Lemma frames_slide f v : keeps frame_requests (slide f v).
Proof. unfold slide, modify. keeps_prim. Qed.

Lemma frames_resetParams : keeps frame_requests resetParams.
Proof. unfold resetParams, modify. keeps_prim. Qed.

Lemma one_frame_of_requests w w' :
  frame_requests w' = frame_requests w -> one_frame w -> one_frame w'.
Proof.
  unfold frame_requests, one_frame. intros [= E1 E2 E3] H. now rewrite E1, E3.
Qed.

Lemma cancel_leaves_none_pending w :
  one_frame w ->
  exists w', effect_playing_cleanup w = Ok tt w' /\ raf_pending w' = []
             /\ raf_next w' = raf_next w /\ isPlaying w' = isPlaying w.
Proof.
  intros H. unfold effect_playing_cleanup, bind, get, cancelAnimationFrame.
  destruct H as [E | (id & E & Ea)].
  - destruct (animationRef w) as [h|]; eexists; (split; [reflexivity|]);
      destruct w; cbn in *; subst; auto.
  - rewrite Ea. eexists. split; [reflexivity|].
    destruct w; cbn in *; subst. cbn. rewrite decide_False by auto. auto.
Qed.

Lemma effect_playing_from_none_pending w :
  raf_pending w = [] ->
  exists w', effect_playing w = Ok tt w' /\ one_frame w'
             /\ (isPlaying w = false -> raf_pending w' = [])
             /\ (isPlaying w = true -> raf_pending w' = [raf_next w]).
Proof.
  intros E. unfold effect_playing, bind, get.
  destruct (isPlaying w) eqn:Hp.
  - eexists. split; [reflexivity|]. destruct w; cbn in *; subst.
    split; [right; eauto|]. split; [discriminate | reflexivity].
  - unfold cancelAnimationFrame. destruct (animationRef w) as [h|];
      eexists; (split; [reflexivity|]); destruct w; cbn in *; subst;
        (split; [left; reflexivity|]); split; auto; discriminate.
Qed.

Lemma loop_event_keeps_one_frame e w :
  one_frame w ->
  match e with FrameDue id => In id (raf_pending w) | _ => True end ->
  one_frame (world_of (loop_event e w)).
Proof.
  intros H Hdue. destruct e as [id| | |accepts|file|f v|]; cbn [loop_event].
  - assert (Hp : raf_pending w = [id] ).
    { destruct H as [E | (id' & E & _)]; rewrite E in Hdue; [contradiction|].
      destruct Hdue as [-> | []]. exact E. }
    unfold tick, bind, modify.
    match goal with
    | |- one_frame (world_of (renderLoop ?x)) => remember x as w1 eqn:Hw1
    end.
    assert (E1 : raf_pending w1 = []).
    { subst w1. destruct w; cbn in *; subst. cbn. now rewrite decide_False by auto. }
    clear Hw1.
    destruct (renderLoop_requests_at_most_one w1) as [Hs | [_ Hs]].
    + eapply one_frame_of_requests; [exact Hs | left; exact E1].
    + unfold frame_requests in Hs. injection Hs as F1 F2 F3.
      right. exists (raf_next w1). rewrite F1, F3, E1. auto.
  - destruct (cancel_leaves_none_pending w H) as (w1 & E1 & P1 & _).
    destruct (effect_playing_from_none_pending w1 P1) as (w2 & E2 & O2 & _).
    unfold bind. rewrite E1, E2. exact O2.
  - destruct (cancel_leaves_none_pending w H) as (w1 & E1 & P1 & _).
    rewrite E1. left. exact P1.
  - eapply one_frame_of_requests; [apply frames_togglePlay | exact H].
  - eapply one_frame_of_requests; [apply frames_handleFileUpload | exact H].
  - eapply one_frame_of_requests; [apply frames_slide | exact H].
  - eapply one_frame_of_requests; [apply frames_resetParams | exact H].
Qed.

(** X2.  The render loop never doubles.  Starting with at most one frame
    pending (its handle in [animationRef]), after any sequence of frames
    coming due, re-runs of the play-state effect (cleanup first), unmounts,
    play toggles, uploads, slider moves and resets, including ticks that
    throw, there is still at most one frame pending and [animationRef]
    holds its handle. *)
Theorem render_loop_never_doubles evs : forall w,
  one_frame w -> frames_were_requested evs w ->
  one_frame (after_events evs w)
  /\ (length (raf_pending (after_events evs w)) <= 1)%nat.
Proof.
  assert (H : forall w, one_frame w -> frames_were_requested evs w ->
                        one_frame (after_events evs w)).
  { induction evs as [|e evs IH]; intros w H Hreq; [exact H|].
    cbn [after_events]. destruct Hreq as [Hdue Hreq].
    apply IH; [apply loop_event_keeps_one_frame; assumption | exact Hreq]. }
  intros w Hw Hreq. specialize (H w Hw Hreq). split; [exact H|].
  destruct H as [-> | (id & -> & _)]; cbn; lia.
Qed.

Lemma render_loop_never_doubles_witness :
  let w := set_isPlaying false
             (mounted (fresh_canvas 2 1) (clip 4 2) "blob:clip" defaultParams
                      (fun _ => 1 # 2)) in
  let evs := [EffectRerun; Toggle true; EffectRerun; FrameDue 0; Slide FChaos 1;
              EffectRerun; FrameDue 2; FrameDue 3] in
  one_frame w /\ frames_were_requested evs w
  /\ raf_pending (after_events evs w) = [4%nat]
  /\ (length (raf_pending (after_events evs w)) <= 1)%nat.
Proof.
  cbv zeta.
  assert (H1 : one_frame (set_isPlaying false
                            (mounted (fresh_canvas 2 1) (clip 4 2) "blob:clip"
                                     defaultParams (fun _ => 1 # 2))))
    by (left; reflexivity).
  assert (H2 : frames_were_requested
                 [EffectRerun; Toggle true; EffectRerun; FrameDue 0; Slide FChaos 1;
                  EffectRerun; FrameDue 2; FrameDue 3]
                 (set_isPlaying false
                    (mounted (fresh_canvas 2 1) (clip 4 2) "blob:clip" defaultParams
                             (fun _ => 1 # 2))))
    by (vm_compute; tauto).
  split; [exact H1|]. split; [exact H2|]. split; [vm_compute; reflexivity|].
  exact (proj2 (render_loop_never_doubles _ _ H1 H2)).
Defined.

(** X3.  Pausing stops the loop.  When the play-state effect re-runs with
    [isPlaying] false, or the component unmounts, the pending frame is
    cancelled: nothing is pending afterwards, so no tick runs until the
    effect runs again with [isPlaying] true, which requests exactly one
    frame. *)
Theorem pause_cancels_pending_frame w :
  one_frame w ->
  (isPlaying w = false ->
   returns (loop_event EffectRerun w) = true
   /\ raf_pending (world_of (loop_event EffectRerun w)) = [])
  /\ (isPlaying w = true ->
      returns (loop_event EffectRerun w) = true
      /\ raf_pending (world_of (loop_event EffectRerun w)) = [raf_next w])
  /\ (returns (loop_event Unmount w) = true
      /\ raf_pending (world_of (loop_event Unmount w)) = []).
Proof.
  intros H.
  destruct (cancel_leaves_none_pending w H) as (w1 & E1 & P1 & N1 & I1).
  destruct (effect_playing_from_none_pending w1 P1) as (w2 & E2 & _ & Off & On).
  cbn [loop_event]. unfold bind. rewrite E1, E2. cbn [returns world_of].
  rewrite I1 in Off, On. rewrite N1 in On. auto.
Qed.

Lemma pause_cancels_pending_frame_witness :
  let w := set_isPlaying false
             (world_of (loop_event EffectRerun
                          (mounted (fresh_canvas 2 1) (clip 4 2) "blob:clip"
                                   defaultParams (fun _ => 1 # 2)))) in
  raf_pending w = [0%nat] /\ one_frame w /\ isPlaying w = false
  /\ raf_pending (world_of (loop_event EffectRerun w)) = [].
Proof.
  cbv zeta.
  assert (H : one_frame (set_isPlaying false
                           (world_of (loop_event EffectRerun
                                        (mounted (fresh_canvas 2 1) (clip 4 2) "blob:clip"
                                                 defaultParams (fun _ => 1 # 2))))))
    by (right; exists 0%nat; split; reflexivity).
  split; [reflexivity|]. split; [exact H|]. split; [reflexivity|].
  exact (proj2 (proj1 (pause_cancels_pending_frame _ H) eq_refl)).
Defined.

(** ** The sink and the surface *)

Lemma sink_act a : keeps beside_the_sink (act a).
Proof.
  destruct a as [| |[r data|r]]; cbn [act fire].
  - unfold startRecording, new_MediaRecorder, recorder_start, bind, get, modify, throw.
    intros w. destruct w; cbn. destruct canvasRef0; cbn; [|reflexivity].
    rewrite lookup_insert_eq. reflexivity.
  - unfold stopRecording, recorder_stop, bind, get. intros w. destruct w; cbn.
    destruct recorderRef0 as [rid|]; cbn; [|reflexivity].
    destruct (recorders0 !! rid) as [rc|]; cbn; [destruct (rec_state rc)|]; reflexivity.
  - unfold ondataavailable. destruct (0 <? length data)%nat; intros w; destruct w; reflexivity.
  - unfold onstop, bind, get, modify. intros w; destruct w; reflexivity.
Qed.

(** X4.  Recording never reaches into rendering.  Whatever the sink is made
    to do (start, stop, data and stop events, in any order and whether or
    not a call throws) the surface and its calls, the frame source, the
    play state, the parameters, the random cursor and the frame requests
    are as they were. *)
Theorem recording_leaves_render_state acts w :
  let w' := world_of (run acts w) in
  canvasRef w' = canvasRef w /\ videoRef w' = videoRef w
  /\ isPlaying w' = isPlaying w /\ videoSrc w' = videoSrc w
  /\ params w' = params w /\ containerRef w' = containerRef w
  /\ random_pos w' = random_pos w
  /\ raf_pending w' = raf_pending w /\ animationRef w' = animationRef w.
Proof.
  assert (H : keeps beside_the_sink (run acts)).
  { induction acts as [|a acts IH]; cbn [run]; [apply keeps_ret|].
    apply keeps_bind; [apply sink_act | intros _; exact IH]. }
  specialize (H w). unfold beside_the_sink in H. cbv zeta.
  injection H as -> -> -> -> -> -> -> _ -> -> _ _. auto 12.
Qed.

(** ** How many slices a tick draws *)

Lemma count_slices_app a b : count_slices (a ++ b) = (count_slices a + count_slices b)%nat.
Proof. induction a as [|[] a IH]; cbn; rewrite ?IH; reflexivity. Qed.

Lemma slice_attempt_succeeds video p sc ox oy w c k :
  Qltb (fsub 1 (chaos p)) (random_seq w k) = true ->
  exists rest,
    slice_attempt video p sc ox oy (upd c k w) = Ok tt (upd (extended c rest) (10 + k) w)
    /\ count_slices rest = 1%nat.
Proof.
  intros H. destruct w. unfold slice_attempt. world_norm. cbn in H. rewrite H.
  world_norm. js_cases; eexists; rewrite <- ?app_assoc; split; reflexivity.
Qed.

Lemma slice_loop_all_fail n video p sc ox oy w c : forall k,
  (forall i, Qltb (fsub 1 (chaos p)) (random_seq w (i + k)) = false) ->
  slice_loop n video p sc ox oy (upd c k w) = Ok tt (upd c (n + k) w).
Proof.
  induction n as [|n IH]; intros k H; cbn [slice_loop]; [reflexivity|].
  unfold bind. rewrite (slice_attempt_fails _ _ _ _ _ _ _ _ (H 0%nat)).
  rewrite IH; [now rewrite Nat.add_succ_r|].
  intros i. specialize (H (S i)). now rewrite Nat.add_succ_r.
Qed.

Lemma slice_loop_all_succeed n video p sc ox oy w : forall c k,
  (forall i, Qltb (fsub 1 (chaos p)) (random_seq w (i + k)) = true) ->
  exists rest,
    slice_loop n video p sc ox oy (upd c k w) = Ok tt (upd (extended c rest) (10 * n + k) w)
    /\ count_slices rest = n.
Proof.
  induction n as [|n IH]; intros c k H; cbn [slice_loop].
  - exists []. rewrite extended_nil. split; reflexivity.
  - destruct (slice_attempt_succeeds video p sc ox oy w c k (H 0%nat)) as (r1 & E1 & C1).
    destruct (IH (extended c r1) (10 + k)%nat) as (r2 & E2 & C2).
    { intros i. specialize (H (i + 10)%nat).
      now replace (i + (10 + k))%nat with (i + 10 + k)%nat by lia. }
    exists (r1 ++ r2). unfold bind. rewrite E1, E2, extended_extended, count_slices_app.
    split; [|lia]. f_equal. f_equal. lia.
Qed.

Lemma slice_loop_bounded n video p sc ox oy w : forall c k,
  exists rest m,
    slice_loop n video p sc ox oy (upd c k w) = Ok tt (upd (extended c rest) (m + k) w)
    /\ (count_slices rest <= n)%nat /\ (n <= m <= 10 * n)%nat.
Proof.
  induction n as [|n IH]; intros c k; cbn [slice_loop].
  - exists [], 0%nat. rewrite extended_nil. split; [reflexivity | cbn; lia].
  - destruct (Qltb (fsub 1 (chaos p)) (random_seq w k)) eqn:Hgo.
    + destruct (slice_attempt_succeeds video p sc ox oy w c k Hgo) as (r1 & E1 & C1).
      destruct (IH (extended c r1) (10 + k)%nat) as (r2 & m2 & E2 & C2 & M2).
      exists (r1 ++ r2), (m2 + 10)%nat.
      unfold bind. rewrite E1, E2, extended_extended, count_slices_app.
      split; [|lia]. f_equal. f_equal. lia.
    + destruct (IH c (S k)) as (r2 & m2 & E2 & C2 & M2).
      exists r2, (S m2). unfold bind.
      rewrite (slice_attempt_fails _ _ _ _ _ _ _ _ Hgo), E2.
      split; [|lia]. f_equal. f_equal. lia.
Qed.

(** X5.  With [chaos] at 0 (or below) and every random value below 1, a tick
    over a ready frame draws no slice: it issues the fade and the base
    draw and nothing else, spends one random value per slice attempt, and
    requests the next frame. *)
Theorem chaos_zero_draws_no_slice w c v :
  canvasRef w = Some c -> videoRef w = Some v -> (readyState v <? 2)%Z = false ->
  chaos (params w) <= 0 -> (forall k, draw w k < 1) ->
  let c0 := fitted w c in
  let p := params w in
  renderLoop w =
  Ok tt (scheduled
           (upd (extended c0 (fade_calls p (width c0) (height c0)
                              ++ base_calls v p (width c0) (height c0)))
                (slice_count p + random_pos w) w)).
Proof.
  intros Hc Hv Hr Hch Hu c0 p.
  rewrite (renderLoop_ready_slices w c v Hc Hv Hr). fold c0 p.
  unfold bind. rewrite slice_loop_all_fail.
  - destruct w; reflexivity.
  - intros i. apply Qltb_false_of_le. specialize (Hu i). unfold draw in Hu.
    subst p. pose proof (chaos_low _ Hch). lra.
Qed.

Lemma chaos_zero_draws_no_slice_witness :
  let p := with_field FChaos 0 defaultParams in
  let w := mounted (fresh_canvas 4 2) (clip 4 2) "blob:clip" p (fun _ => 9 # 10) in
  chaos (params w) <= 0 /\ (forall k, draw w k < 1)
  /\ renderLoop w =
     Ok tt (scheduled
              (upd (extended (fresh_canvas 4 2)
                      (fade_calls p 4 2 ++ base_calls (clip 4 2) p 4 2))
                   (5 + 0) w)).
Proof.
  cbv zeta.
  assert (Hu : forall k,
             draw (mounted (fresh_canvas 4 2) (clip 4 2) "blob:clip"
                           (with_field FChaos 0 defaultParams) (fun _ => 9 # 10)) k < 1)
    by (intros k; reflexivity).
  split; [discriminate|]. split; [exact Hu|].
  exact (chaos_zero_draws_no_slice
           (mounted (fresh_canvas 4 2) (clip 4 2) "blob:clip"
                    (with_field FChaos 0 defaultParams) (fun _ => 9 # 10))
           (fresh_canvas 4 2) (clip 4 2) eq_refl eq_refl eq_refl
           ltac:(discriminate) Hu).
Defined.

(** X6.  With [slices] at 0 (or below) a tick over a ready frame never
    enters the slice loop, whatever [chaos] is: it issues the fade and the
    base draw, spends no random value, and requests the next frame. *)
Theorem no_slices_no_randomness w c v :
  canvasRef w = Some c -> videoRef w = Some v -> (readyState v <? 2)%Z = false ->
  slices (params w) <= 0 ->
  let c0 := fitted w c in
  let p := params w in
  renderLoop w =
  Ok tt (scheduled
           (upd (extended c0 (fade_calls p (width c0) (height c0)
                              ++ base_calls v p (width c0) (height c0)))
                (random_pos w) w)).
Proof.
  intros Hc Hv Hr Hs c0 p.
  rewrite (renderLoop_ready_slices w c v Hc Hv Hr). fold c0 p.
  assert (E : slice_count p = 0%nat).
  { unfold slice_count. subst p. apply Qceiling_resp_le in Hs.
    change (Qceiling 0) with 0%Z in Hs. lia. }
  rewrite E. destruct w; reflexivity.
Qed.

Lemma no_slices_no_randomness_witness :
  let p := with_field FChaos 1 (with_field FSlices 0 defaultParams) in
  let w := mounted (fresh_canvas 4 2) (clip 4 2) "blob:clip" p (fun _ => 9 # 10) in
  slices (params w) <= 0
  /\ renderLoop w =
     Ok tt (scheduled
              (upd (extended (fresh_canvas 4 2)
                      (fade_calls p 4 2 ++ base_calls (clip 4 2) p 4 2))
                   0 w)).
Proof.
  cbv zeta. split; [discriminate|].
  exact (no_slices_no_randomness
           (mounted (fresh_canvas 4 2) (clip 4 2) "blob:clip"
                    (with_field FChaos 1 (with_field FSlices 0 defaultParams))
                    (fun _ => 9 # 10))
           (fresh_canvas 4 2) (clip 4 2) eq_refl eq_refl eq_refl ltac:(discriminate)).
Defined.

(** X7.  A tick over a ready frame always returns and requests the next
    frame; after the fade and the base draw it draws at most one slice per
    attempt, and it spends between one and ten random values per attempt. *)
Theorem slice_draws_bounded w c v :
  canvasRef w = Some c -> videoRef w = Some v -> (readyState v <? 2)%Z = false ->
  let c0 := fitted w c in
  let p := params w in
  exists rest m,
    renderLoop w =
    Ok tt (scheduled
             (upd (extended c0 (fade_calls p (width c0) (height c0)
                                ++ base_calls v p (width c0) (height c0) ++ rest))
                  (m + random_pos w) w))
    /\ (count_slices rest <= slice_count p)%nat
    /\ (slice_count p <= m <= 10 * slice_count p)%nat.
Proof.
  intros Hc Hv Hr c0 p.
  rewrite (renderLoop_ready_slices w c v Hc Hv Hr). fold c0 p.
  edestruct (slice_loop_bounded (slice_count p) v p) as (rest & m & E & C & M).
  exists rest, m. unfold bind. rewrite E, extended_extended, <- app_assoc.
  split; [destruct w; reflexivity | split; assumption].
Qed.

Lemma slice_draws_bounded_witness :
  let w := mounted (fresh_canvas 4 2) (clip 4 2) "blob:clip" defaultParams
                   (fun _ => 9 # 10) in
  (readyState (clip 4 2) <? 2)%Z = false
  /\ exists rest m,
       canvas_of (renderLoop w)
       = Some (extended (fresh_canvas 4 2)
                 (fade_calls defaultParams 4 2
                  ++ base_calls (clip 4 2) defaultParams 4 2 ++ rest))
       /\ (count_slices rest <= 5)%nat /\ (5 <= m <= 50)%nat.
Proof.
  cbv zeta. split; [reflexivity|].
  destruct (slice_draws_bounded
              (mounted (fresh_canvas 4 2) (clip 4 2) "blob:clip" defaultParams
                       (fun _ => 9 # 10))
              (fresh_canvas 4 2) (clip 4 2) eq_refl eq_refl eq_refl)
    as (rest & m & E & C & M).
  exists rest, m. rewrite E. split; [reflexivity | split; assumption].
Defined.

(** X8.  With [chaos] at 1 (or above) every attempt whose first random
    value is strictly positive draws: when all random values are positive,
    a tick over a ready frame draws exactly one slice per attempt and spends
    ten random values on each. *)
Theorem full_chaos_draws_every_slice w c v :
  canvasRef w = Some c -> videoRef w = Some v -> (readyState v <? 2)%Z = false ->
  1 <= chaos (params w) -> (forall k, 0 < draw w k) ->
  let c0 := fitted w c in
  let p := params w in
  exists rest,
    renderLoop w =
    Ok tt (scheduled
             (upd (extended c0 (fade_calls p (width c0) (height c0)
                                ++ base_calls v p (width c0) (height c0) ++ rest))
                  (10 * slice_count p + random_pos w) w))
    /\ count_slices rest = slice_count p.
Proof.
  intros Hc Hv Hr Hch Hu c0 p.
  rewrite (renderLoop_ready_slices w c v Hc Hv Hr). fold c0 p.
  edestruct (slice_loop_all_succeed (slice_count p) v p) as (rest & E & C).
  { intros i. apply Qltb_true_of_lt. specialize (Hu i). unfold draw in Hu.
    subst p. instantiate (1 := random_pos w). instantiate (1 := w).
    pose proof (chaos_high _ Hch). lra. }
  exists rest. unfold bind. rewrite E, extended_extended, <- app_assoc.
  split; [destruct w; reflexivity | exact C].
Qed.

Lemma full_chaos_draws_every_slice_witness :
  let p := with_field FChaos 1 defaultParams in
  let w := mounted (fresh_canvas 4 2) (clip 4 2) "blob:clip" p (fun _ => 9 # 10) in
  1 <= chaos (params w) /\ (forall k, 0 < draw w k)
  /\ exists rest,
       canvas_of (renderLoop w)
       = Some (extended (fresh_canvas 4 2)
                 (fade_calls p 4 2 ++ base_calls (clip 4 2) p 4 2 ++ rest))
       /\ count_slices rest = 5%nat.
Proof.
  cbv zeta.
  assert (Hu : forall k,
             0 < draw (mounted (fresh_canvas 4 2) (clip 4 2) "blob:clip"
                               (with_field FChaos 1 defaultParams) (fun _ => 9 # 10)) k)
    by (intros k; reflexivity).
  split; [discriminate|]. split; [exact Hu|].
  destruct (full_chaos_draws_every_slice
              (mounted (fresh_canvas 4 2) (clip 4 2) "blob:clip"
                       (with_field FChaos 1 defaultParams) (fun _ => 9 # 10))
              (fresh_canvas 4 2) (clip 4 2) eq_refl eq_refl eq_refl
              ltac:(discriminate) Hu) as (rest & E & C).
  exists rest. rewrite E. split; [reflexivity | exact C].
Defined.

(** ** Resizing and empty surfaces *)

(** X9.  A tick makes the surface follow its container.  When the
    container's size differs from the surface's, the surface takes the
    container's size and everything drawn before is discarded: its calls
    start afresh with this tick's fade.  When the sizes agree the earlier
    calls are kept and the tick's calls follow them. *)
Theorem resize_discards_trail w c v cw ch :
  canvasRef w = Some c -> videoRef w = Some v -> containerRef w = Some (cw, ch) ->
  (0 <= cw)%Z -> (0 <= ch)%Z ->
  exists rest c',
    canvas_of (renderLoop w) = Some c'
    /\ width c' = cw /\ height c' = ch
    /\ (width c <> cw \/ height c <> ch ->
        calls c' = fade_calls (params w) cw ch ++ rest)
    /\ (width c = cw /\ height c = ch ->
        calls c' = calls c ++ fade_calls (params w) cw ch ++ rest).
Proof.
  intros Hc Hv Hk HW HH.
  assert (Hf : fitted w c = if (negb (width c =? cw) || negb (height c =? ch))%Z
                            then {| width := cw; height := ch; calls := [] |} else c)
    by (unfold fitted; rewrite Hk; reflexivity).
  assert (Hdim : width (fitted w c) = cw /\ height (fitted w c) = ch).
  { rewrite Hf. destruct (negb (width c =? cw) || negb (height c =? ch))%Z eqn:E; cbn; auto.
    apply orb_false_iff in E as [E1 E2]. apply negb_false_iff in E1, E2.
    apply Z.eqb_eq in E1, E2. auto. }
  destruct Hdim as [Ew Eh].
  destruct (renderLoop_starts_with_fade w c v Hc Hv) as (rest & E); [lia | lia |].
  rewrite Ew, Eh in E.
  exists rest. eexists. split; [exact E|]. cbn [extended width height calls].
  split; [exact Ew|]. split; [exact Eh|]. split.
  - intros Hd. rewrite Hf.
    replace (negb (width c =? cw) || negb (height c =? ch))%Z with true; [reflexivity|].
    symmetry. apply orb_true_iff.
    destruct Hd as [Hd | Hd]; [left | right]; apply negb_true_iff, Z.eqb_neq, Hd.
  - intros [E1 E2]. rewrite Hf.
    replace (negb (width c =? cw) || negb (height c =? ch))%Z with false; [reflexivity|].
    symmetry. apply orb_false_iff. split; apply negb_false_iff, Z.eqb_eq; assumption.
Qed.

Lemma resize_discards_trail_witness :
  let w := set_canvasRef (Some white_pixel)
             (mounted (fresh_canvas 3 2) no_signal "blob:clip" defaultParams
                      (fun _ => 1 # 2)) in
  containerRef w = Some (3, 2)%Z /\ width white_pixel <> 3%Z
  /\ exists rest c',
       canvas_of (renderLoop w) = Some c' /\ width c' = 3%Z /\ height c' = 2%Z
       /\ calls c' = fade_calls defaultParams 3 2 ++ rest.
Proof.
  cbv zeta. split; [reflexivity|]. split; [discriminate|].
  destruct (resize_discards_trail
              (set_canvasRef (Some white_pixel)
                 (mounted (fresh_canvas 3 2) no_signal "blob:clip" defaultParams
                          (fun _ => 1 # 2)))
              white_pixel no_signal 3 2 eq_refl eq_refl eq_refl
              ltac:(discriminate) ltac:(discriminate))
    as (rest & c' & E & Ew & Eh & Hd & _).
  exists rest, c'. split; [exact E|]. split; [exact Ew|]. split; [exact Eh|].
  apply Hd. left. discriminate.
Defined.

(** X10.  With no source configured and no frame ready, a tick on a surface
    of zero width or height throws [IndexSizeError] at [createImageData],
    after the fade has been issued; the exception leaves the tick before
    the next frame is requested, so nothing is pending afterwards although
    [isPlaying] is unchanged. *)
Theorem empty_surface_noise_throws w c v id :
  canvasRef w = Some c -> videoRef w = Some v -> (readyState v <? 2)%Z = true ->
  videoSrc w = ""%string ->
  width (fitted w c) = 0%Z \/ height (fitted w c) = 0%Z ->
  raf_pending w = [id] ->
  exists w',
    tick id w = Throw IndexSizeError w'
    /\ canvasRef w'
       = Some (extended (fitted w c)
                 (fade_calls (params w) (width (fitted w c)) (height (fitted w c))))
    /\ raf_pending w' = []
    /\ isPlaying w' = isPlaying w.
Proof.
  intros Hc Hv Hr Hs Hz Hq.
  assert (Hb : ((width (fitted w c) =? 0) || (height (fitted w c) =? 0))%Z = true).
  { apply orb_true_iff. destruct Hz as [Hz | Hz]; [left | right]; apply Z.eqb_eq, Hz. }
  unfold tick, bind, modify.
  match goal with
  | |- context [renderLoop ?x] =>
      rewrite (renderLoop_no_signal_empty_surface x c v);
        try (destruct w; assumption)
  end.
  eexists. split; [reflexivity|].
  destruct w; cbn in *; subst. cbn. rewrite decide_False by auto. auto.
Qed.

Lemma empty_surface_noise_throws_witness :
  let w := set_raf [0%nat] 1
             (mounted (fresh_canvas 0 5) no_signal "" defaultParams (fun _ => 1 # 2)) in
  width (fitted w (fresh_canvas 0 5)) = 0%Z /\ raf_pending w = [0%nat]
  /\ exists w', tick 0 w = Throw IndexSizeError w' /\ raf_pending w' = [].
Proof.
  cbv zeta. split; [reflexivity|]. split; [reflexivity|].
  destruct (empty_surface_noise_throws
              (set_raf [0%nat] 1
                 (mounted (fresh_canvas 0 5) no_signal "" defaultParams (fun _ => 1 # 2)))
              (fresh_canvas 0 5) no_signal 0%nat
              eq_refl eq_refl eq_refl eq_refl (or_introl eq_refl) eq_refl)
    as (w' & E & _ & P & _).
  exists w'. split; [exact E | exact P].
Defined.

(** ** More on the recording sink *)

Lemma stopRecording_idle_noop_general w :
  sink_idle w -> stopRecording w = Ok tt w.
Proof.
  unfold sink_idle, stopRecording, bind, get, recorder_stop.
  destruct (recorderRef w) as [rid|]; [|reflexivity].
  destruct (recorders w !! rid) as [rc|]; cbn; [|discriminate].
  intros [= ->]. reflexivity.
Qed.

(** X11.  Stopping twice is stopping once: in every world, [stopRecording]
    followed by [stopRecording] ends exactly as a single [stopRecording]
    does. *)
Theorem stopRecording_idempotent w :
  (stopRecording ;; stopRecording) w = stopRecording w.
Proof.
  unfold stopRecording, bind, get, recorder_stop. destruct w; cbn.
  destruct recorderRef0 as [rid|]; cbn; [|reflexivity].
  destruct (recorders0 !! rid) as [rc|] eqn:E; cbn; [|reflexivity].
  destruct (rec_state rc) eqn:Hs; cbn; rewrite ?E; cbn; rewrite ?Hs; try reflexivity.
  rewrite lookup_insert_eq. reflexivity.
Qed.

Lemma gestures_app a b w :
  gestures (a ++ b) w = (gestures a ;; gestures b) w.
Proof.
  revert w; induction a as [|g a IH]; intros w; cbn [gestures app]; [reflexivity|].
  unfold bind. destruct (gesture g w); [apply IH | reflexivity].
Qed.

(** X12.  A start that fails sticks.  With the canvas handle missing,
    [startRecording] throws a [TypeError] after it has set [isRecording],
    and installs no recorder.  From then on, with the sink idle, every
    press of "Record" or "Stop & Download" is a no-op: [isRecording] stays
    true and no recording can be started through the buttons. *)
Theorem failed_start_sticks w presses :
  canvasRef w = None -> sink_idle w ->
  forallb is_press presses = true ->
  startRecording w = Throw TypeError (set_isRecording true w)
  /\ gestures presses (set_isRecording true w) = Ok tt (set_isRecording true w)
  /\ isRecording (set_isRecording true w) = true
  /\ recorderRef (set_isRecording true w) = recorderRef w
  /\ recorders (set_isRecording true w) = recorders w.
Proof.
  intros Hc Hidle Hp. split.
  - unfold startRecording, bind, get, modify, throw. destruct w; cbn in *; subst. reflexivity.
  - split; [|destruct w; auto].
    assert (Hstop : stopRecording (set_isRecording true w) = Ok tt (set_isRecording true w)).
    { apply stopRecording_idle_noop_general. destruct w; exact Hidle. }
    induction presses as [|g presses IH]; [reflexivity|].
    cbn in Hp. apply andb_true_iff in Hp as [Hg Hp].
    cbn [gestures]. unfold bind.
    assert (Eg : gesture g (set_isRecording true w) = Ok tt (set_isRecording true w)).
    { destruct g as [| |e]; try discriminate; cbn [gesture].
      - unfold clickRecord, bind, get.
        replace (isRecording (set_isRecording true w)) with true by (destruct w; reflexivity).
        exact Hstop.
      - exact Hstop. }
    rewrite Eg. apply IH, Hp.
Qed.

Lemma failed_start_sticks_witness :
  let w := unmounted_canvas
             (mounted (fresh_canvas 2 1) (clip 4 2) "blob:clip" defaultParams
                      (fun _ => 1 # 2)) in
  let presses := [PressRecord; PressStopDownload; PressRecord] in
  canvasRef w = None /\ sink_idle w
  /\ startRecording w = Throw TypeError (set_isRecording true w)
  /\ gestures presses (set_isRecording true w) = Ok tt (set_isRecording true w).
Proof.
  cbv zeta. split; [reflexivity|]. split; [exact I|].
  pose proof (failed_start_sticks
                (unmounted_canvas
                   (mounted (fresh_canvas 2 1) (clip 4 2) "blob:clip" defaultParams
                            (fun _ => 1 # 2)))
                [PressRecord; PressStopDownload; PressRecord] eq_refl I eq_refl) as H.
  exact (conj (proj1 H) (proj1 (proj2 H))).
Defined.

(** X13.  Through the buttons there is one session at a time.  With the
    canvas mounted, from a sink with at most one unfinished recorder (the
    installed one, with [isRecording] set), any sequence of presses of
    "Record" and "Stop & Download" and of recorder events the platform may
    dispatch runs without throwing and ends in such a sink again: two
    recorders are never unfinished at once. *)
Theorem buttons_keep_one_session gs : forall w c,
  canvasRef w = Some c -> one_session_at_a_time w ->
  gestures_may_occur gs w = true ->
  exists w',
    gestures gs w = Ok tt w'
    /\ one_session_at_a_time w'
    /\ forall r1 r2 rc1 rc2,
         recorders w' !! r1 = Some rc1 -> recorders w' !! r2 = Some rc2 ->
         rec_state rc1 <> RecStopped -> rec_state rc2 <> RecStopped -> r1 = r2.
Proof.
  induction gs as [|g gs IH]; intros w c Hc Inv Hocc.
  - exists w. split; [reflexivity|]. split; [exact Inv|].
    intros r1 r2 rc1 rc2 L1 L2 N1 N2. destruct Inv as [Inv _].
    destruct (Inv r1 rc1 L1 N1) as [_ E1]. destruct (Inv r2 rc2 L2 N2) as [_ E2].
    congruence.
  - cbn in Hocc. apply andb_true_iff in Hocc as [Hg Hocc].
    destruct (gesture_keeps_one_session g w c Hc Inv Hg) as (w1 & E1 & Hc1 & Inv1).
    rewrite E1 in Hocc. cbn [world_of] in Hocc.
    destruct (IH w1 c Hc1 Inv1 Hocc) as (w2 & E2 & Inv2 & Huniq).
    exists w2. cbn [gestures]. unfold bind. rewrite E1. auto.
Qed.

Lemma buttons_keep_one_session_witness :
  let w := mounted (fresh_canvas 2 1) (clip 4 2) "blob:clip" defaultParams (fun _ => 1 # 2) in
  let gs := [PressRecord; Dispatch (DataAvailable 0 [Byte.x1a]); PressRecord;
             PressStopDownload; Dispatch (DataAvailable 0 [Byte.x45]);
             Dispatch (Stopped 0); PressRecord; PressStopDownload] in
  one_session_at_a_time w /\ gestures_may_occur gs w = true
  /\ exists w', gestures gs w = Ok tt w' /\ one_session_at_a_time w'.
Proof.
  cbv zeta.
  assert (H0 : one_session_at_a_time
                 (mounted (fresh_canvas 2 1) (clip 4 2) "blob:clip" defaultParams
                          (fun _ => 1 # 2))).
  { split; [intros r rc L; cbn in L; rewrite lookup_empty in L | intros rid L];
      discriminate. }
  split; [exact H0|]. split; [vm_compute; reflexivity|].
  destruct (buttons_keep_one_session
              [PressRecord; Dispatch (DataAvailable 0 [Byte.x1a]); PressRecord;
               PressStopDownload; Dispatch (DataAvailable 0 [Byte.x45]);
               Dispatch (Stopped 0); PressRecord; PressStopDownload]
              (mounted (fresh_canvas 2 1) (clip 4 2) "blob:clip" defaultParams
                       (fun _ => 1 # 2))
              (fresh_canvas 2 1) eq_refl H0 ltac:(vm_compute; reflexivity))
    as (w' & E & Inv & _).
  exists w'. split; assumption.
Defined.

Lemma act_extends_buffer a w :
  is_start a = false ->
  recordedChunksRef (world_of (act a w))
  = recordedChunksRef w ++ List.filter non_empty (delivered [a]).
Proof.
  intros Hs. destruct a as [| |[r data|r]]; try discriminate; cbn [act fire delivered].
  - cbn. rewrite app_nil_r. unfold stopRecording, bind, get, recorder_stop.
    destruct w; cbn. destruct recorderRef0 as [rid|]; cbn; [|reflexivity].
    destruct (recorders0 !! rid) as [rc|]; cbn; [destruct (rec_state rc)|]; reflexivity.
  - unfold ondataavailable, non_empty. cbn [List.filter].
    destruct (0 <? length data)%nat; destruct w; cbn; now rewrite ?app_nil_r.
  - cbn. rewrite app_nil_r. destruct w; reflexivity.
Qed.

Lemma filter_non_empty_all l :
  Forall (fun d => non_empty d = true) (List.filter non_empty l).
Proof. apply List.Forall_forall. intros d Hd. apply List.filter_In in Hd. tauto. Qed.

(** X14.  Chunks are kept until the next start.  Over any handler calls and
    recorder events that contain no [startRecording], the chunk buffer only
    grows: what it held stays at its front, in order, also across a [stop]
    event (which reads the buffer and does not clear it) and across a call
    that throws.  Only non-empty chunks are added, and when nothing throws
    the added chunks are exactly the non-empty chunks delivered, in delivery
    order. *)
Theorem chunks_kept_until_next_start acts : forall w,
  forallb (fun a => negb (is_start a)) acts = true ->
  exists added,
    recordedChunksRef (world_of (run acts w)) = recordedChunksRef w ++ added
    /\ Forall (fun d => non_empty d = true) added
    /\ (returns (run acts w) = true -> added = List.filter non_empty (delivered acts)).
Proof.
  induction acts as [|a acts IH]; intros w Hs.
  - exists []. cbn. rewrite app_nil_r. auto.
  - cbn in Hs. apply andb_true_iff in Hs as [Ha Hs]. apply negb_true_iff in Ha.
    pose proof (act_extends_buffer a w Ha) as E1.
    cbn [run]. unfold bind. destruct (act a w) as [[] w1|e w1] eqn:Ea; cbn [world_of] in E1.
    + destruct (IH w1 Hs) as (added & E2 & F2 & R2).
      exists (List.filter non_empty (delivered [a]) ++ added).
      rewrite E2, E1, app_assoc. split; [reflexivity|]. split.
      * apply Forall_app. split; [apply filter_non_empty_all | exact F2].
      * intros Hr. rewrite (R2 Hr).
        change (a :: acts) with ([a] ++ acts).
        now rewrite delivered_app, List.filter_app.
    + exists (List.filter non_empty (delivered [a])). cbn [world_of returns].
      split; [exact E1|]. split; [apply filter_non_empty_all | discriminate].
Qed.

Lemma chunks_kept_until_next_start_witness :
  let w := world_of (run [CallStart; Fire (DataAvailable 0 [Byte.x1a])]
                         (mounted (fresh_canvas 2 1) (clip 4 2) "blob:clip" defaultParams
                                  (fun _ => 1 # 2))) in
  let acts := [CallStop; Fire (DataAvailable 0 []); Fire (DataAvailable 0 [Byte.x45]);
               Fire (Stopped 0); CallStop] in
  recordedChunksRef w = [[Byte.x1a]]
  /\ exists added,
       recordedChunksRef (world_of (run acts w)) = recordedChunksRef w ++ added
       /\ (returns (run acts w) = true -> added = [[Byte.x45]]).
Proof.
  cbv zeta. split; [reflexivity|].
  destruct (chunks_kept_until_next_start
              [CallStop; Fire (DataAvailable 0 []); Fire (DataAvailable 0 [Byte.x45]);
               Fire (Stopped 0); CallStop]
              (world_of (run [CallStart; Fire (DataAvailable 0 [Byte.x1a])]
                             (mounted (fresh_canvas 2 1) (clip 4 2) "blob:clip"
                                      defaultParams (fun _ => 1 # 2))))
              eq_refl) as (added & E & _ & R).
  exists added. split; [exact E | exact R].
Defined.

Lemma act_downloads a w w1 :
  act a w = Ok tt w1 ->
  exists files,
    downloads w1 = downloads w ++ files
    /\ length files = count_stops [a]
    /\ Forall (fun d => d_name d = "glitch_effect.webm"%string
                        /\ d_type d = "video/webm"%string) files.
Proof.
  intros E. destruct a as [| |[r data|r]]; cbn [act fire count_stops] in *.
  - exists []. rewrite app_nil_r. split; [|split; [reflexivity | constructor]].
    unfold startRecording, new_MediaRecorder, recorder_start, bind, get, modify, throw in E.
    destruct w; cbn in *. destruct canvasRef0; cbn in E; [|discriminate].
    rewrite lookup_insert_eq in E. cbn in E. injection E as <-. reflexivity.
  - exists []. rewrite app_nil_r. split; [|split; [reflexivity | constructor]].
    unfold stopRecording, bind, get, recorder_stop in E. destruct w; cbn in *.
    destruct recorderRef0 as [rid|]; cbn in E; [|injection E as <-; reflexivity].
    destruct (recorders0 !! rid) as [rc|]; cbn in E; [|discriminate].
    destruct (rec_state rc); injection E as <-; reflexivity.
  - exists []. rewrite app_nil_r. split; [|split; [reflexivity | constructor]].
    unfold ondataavailable in E.
    destruct (0 <? length data)%nat; destruct w; injection E as <-; reflexivity.
  - exists [artifact (concat (recordedChunksRef w))].
    split; [|split; [reflexivity | repeat constructor]].
    unfold onstop, bind, get, modify in E. destruct w; cbn in *.
    injection E as <-. reflexivity.
Qed.

(** X15.  One download per [stop] event.  Over any actions on the sink that
    run without throwing, earlier downloads are kept, each [stop] event adds
    exactly one file, named [glitch_effect.webm] with type [video/webm],
    and nothing else adds any. *)
Theorem one_download_per_stop acts : forall w w',
  run acts w = Ok tt w' ->
  exists files,
    downloads w' = downloads w ++ files
    /\ length files = count_stops acts
    /\ Forall (fun d => d_name d = "glitch_effect.webm"%string
                        /\ d_type d = "video/webm"%string) files.
Proof.
  induction acts as [|a acts IH]; intros w w' E.
  - cbn in E. injection E as <-. exists []. rewrite app_nil_r.
    split; [reflexivity | split; [reflexivity | constructor]].
  - cbn [run] in E. unfold bind in E.
    destruct (act a w) as [[] w1|e w1] eqn:Ea; [|discriminate].
    destruct (act_downloads a w w1 Ea) as (f1 & D1 & L1 & N1).
    destruct (IH w1 w' E) as (f2 & D2 & L2 & N2).
    exists (f1 ++ f2). rewrite D2, D1, app_assoc, length_app, L1, L2.
    split; [reflexivity|]. split.
    + destruct a as [| |[|]]; reflexivity.
    + apply Forall_app. auto.
Qed.

Lemma one_download_per_stop_witness :
  let w := mounted (fresh_canvas 2 1) (clip 4 2) "blob:clip" defaultParams (fun _ => 1 # 2) in
  let acts := [CallStart; CallStop; CallStop; Fire (DataAvailable 0 [Byte.x1a]);
               Fire (Stopped 0); CallStop] in
  exists w' files,
    run acts w = Ok tt w'
    /\ downloads w' = downloads w ++ files /\ length files = 1%nat.
Proof.
  cbv zeta.
  assert (E : { w' | run [CallStart; CallStop; CallStop; Fire (DataAvailable 0 [Byte.x1a]);
                          Fire (Stopped 0); CallStop]
                         (mounted (fresh_canvas 2 1) (clip 4 2) "blob:clip" defaultParams
                                  (fun _ => 1 # 2)) = Ok tt w' })
    by (eexists; vm_compute; reflexivity).
  destruct E as [w' E].
  destruct (one_download_per_stop _ _ w' E) as (files & D & L & _).
  exists w', files. split; [exact E|]. split; [exact D | exact L].
Defined.

(** ** Playback and parameters *)

Lemma player_gesture_keeps_sync g w :
  in_sync w -> real_file g = true ->
  exists w', player_gesture true g w = Ok tt w' /\ in_sync w'.
Proof.
  intros (v & Hv & Hs) Hf. unfold in_sync.
  destruct w as [pl src rec ps vr cr ar kr rr ch rs rp pend nx recs con dl].
  cbn in Hv, Hs. subst vr pl.
  destruct g as [| |url]; cbn [player_gesture].
  - unfold clickPlay, togglePlay, video_play, bind, get, modify, ret. cbn.
    destruct (String.eqb src ""); [eauto|].
    destruct (paused v) eqn:Hp; cbn;
      (eexists; split; [reflexivity|]; cbn; eexists; split; [reflexivity|];
       cbn; try rewrite Hp; reflexivity).
  - unfold clickPause, togglePlay, video_pause, bind, get, modify, ret. cbn.
    destruct (String.eqb src ""); [eauto|].
    destruct (paused v) eqn:Hp; cbn;
      (eexists; split; [reflexivity|]; cbn; eexists; split; [reflexivity|];
       cbn; try rewrite Hp; reflexivity).
  - cbn in Hf. apply negb_true_iff in Hf.
    unfold upload, handleFileUpload, effect_videoSrc, video_play, bind, get, modify.
    cbn. rewrite Hf. cbn.
    eexists. split; [reflexivity|]. cbn. eauto.
Qed.

(** X16.  While the platform accepts every playback start, [isPlaying] and
    the video element stay in step: from a state where [isPlaying] is true
    exactly when the video is not paused, any sequence of "PLAY" and "PAUSE"
    presses and uploads (with their [videoSrc] effect) runs without throwing
    and ends in such a state. *)
Theorem playback_stays_in_sync gs : forall w,
  in_sync w -> forallb real_file gs = true ->
  exists w', player_gestures true gs w = Ok tt w' /\ in_sync w'.
Proof.
  induction gs as [|g gs IH]; intros w Hs Hf.
  - exists w. split; [reflexivity | exact Hs].
  - cbn in Hf. apply andb_true_iff in Hf as [Hg Hf].
    destruct (player_gesture_keeps_sync g w Hs Hg) as (w1 & E1 & S1).
    destruct (IH w1 S1 Hf) as (w2 & E2 & S2).
    exists w2. cbn [player_gestures]. unfold bind. rewrite E1. auto.
Qed.

Lemma playback_stays_in_sync_witness :
  let w := set_isPlaying false
             (mounted (fresh_canvas 2 1) no_signal "" defaultParams (fun _ => 1 # 2)) in
  let gs := [PressPlay; ChooseFile "blob:clip"; PressPlay; PressPause; PressPause;
             PressPlay] in
  in_sync w
  /\ exists w', player_gestures true gs w = Ok tt w' /\ in_sync w' /\ isPlaying w' = true.
Proof.
  cbv zeta.
  assert (H0 : in_sync (set_isPlaying false
                          (mounted (fresh_canvas 2 1) no_signal "" defaultParams
                                   (fun _ => 1 # 2))))
    by (exists no_signal; split; reflexivity).
  split; [exact H0|].
  destruct (playback_stays_in_sync
              [PressPlay; ChooseFile "blob:clip"; PressPlay; PressPause; PressPause;
               PressPlay]
              (set_isPlaying false
                 (mounted (fresh_canvas 2 1) no_signal "" defaultParams (fun _ => 1 # 2)))
              H0 eq_refl) as (w' & E & S).
  exists w'. split; [exact E|]. split; [exact S|].
  vm_compute in E. injection E as <-. reflexivity.
Defined.

(** X17.  Toggling twice restores the world.  When [isPlaying] matches the
    video element and the platform accepts the playback start, two calls of
    [togglePlay] leave every part of the world as it was. *)
Theorem togglePlay_twice_restores w :
  in_sync w -> (togglePlay true ;; togglePlay true) w = Ok tt w.
Proof.
  intros (v & Hv & Hs).
  unfold togglePlay, video_play, video_pause, bind, get, modify, ret.
  destruct w; cbn in *; subst. destruct v as [rs vw vh pz fr]; cbn.
  destruct pz; reflexivity.
Qed.

Lemma togglePlay_twice_restores_witness :
  let w := mounted (fresh_canvas 2 1) (clip 4 2) "blob:clip" defaultParams (fun _ => 1 # 2) in
  in_sync w /\ (togglePlay true ;; togglePlay true) w = Ok tt w.
Proof.
  cbv zeta.
  assert (H0 : in_sync (mounted (fresh_canvas 2 1) (clip 4 2) "blob:clip" defaultParams
                                (fun _ => 1 # 2)))
    by (exists (clip 4 2); split; reflexivity).
  split; [exact H0 | exact (togglePlay_twice_restores _ H0)].
Defined.

(** X18.  Reset undoes the sliders.  After any sequence of slider moves,
    [resetParams] leaves the parameters at their defaults and the rest of
    the world untouched: it ends exactly as [resetParams] alone does, and
    resetting again changes nothing. *)
Theorem reset_absorbs_slides moves : forall w,
  (slides moves ;; resetParams) w = Ok tt (set_params defaultParams w)
  /\ resetParams w = Ok tt (set_params defaultParams w)
  /\ (resetParams ;; resetParams) w = resetParams w.
Proof.
  induction moves as [|[f v] moves IH]; intros w.
  - split; [|split]; destruct w; reflexivity.
  - split; [|split; destruct w; reflexivity].
    cbn [slides]. unfold slide at 1, modify at 1.
    destruct (IH (set_params (with_field f v (params w)) w)) as [E _].
    unfold bind in *. cbn.
    destruct (slides moves (set_params (with_field f v (params w)) w)) as [[] w1|e w1];
      [|discriminate].
    rewrite E. destruct w; reflexivity.
Qed.

(** ** Ticks in sequence *)

Lemma fitted_dims w c cw ch :
  containerRef w = Some (cw, ch) ->
  width (fitted w c) = cw /\ height (fitted w c) = ch.
Proof.
  intros Hk. unfold fitted. rewrite Hk.
  destruct (negb (width c =? cw) || negb (height c =? ch))%Z eqn:E; cbn; auto.
  apply orb_false_iff in E as [E1 E2]. apply negb_false_iff in E1, E2.
  apply Z.eqb_eq in E1, E2. auto.
Qed.

Lemma renderLoop_keeps_a_canvas w c :
  canvasRef w = Some c ->
  (0 <= width (fitted w c))%Z -> (0 <= height (fitted w c))%Z ->
  exists c', canvas_of (renderLoop w) = Some c'.
Proof.
  intros Hc HW HH. destruct (videoRef w) as [v|] eqn:Hv.
  - destruct (renderLoop_starts_with_fade w c v Hc Hv HW HH) as (rest & E). eauto.
  - rewrite renderLoop_without_handle by auto. exists c. exact Hc.
Qed.

(** X19.  Filters never leak from one tick into the next.  Every filter and
    blend mode a tick sets for an image draw is set between [save] and
    [restore]; so on a surface whose context has no filter and no saved
    state, with the container attached, after any number of ticks (also
    when one of them throws) the context again has no filter and no saved
    state. *)
Theorem ticks_keep_context_clean R n : forall w c cw ch,
  canvasRef w = Some c -> containerRef w = Some (cw, ch) ->
  (0 <= cw)%Z -> (0 <= ch)%Z -> clean R c ->
  forall c', canvas_of (ticks n w) = Some c' -> clean R c'.
Proof.
  induction n as [|n IH]; intros w c cw ch Hc Hk HW HH Hclean c' Hc'.
  - unfold canvas_of in Hc'. cbn in Hc'. rewrite Hc in Hc'. injection Hc' as <-. exact Hclean.
  - destruct (fitted_dims w c cw ch Hk) as [Ew Eh].
    assert (HW' : (0 <= width (fitted w c))%Z) by lia.
    assert (HH' : (0 <= height (fitted w c))%Z) by lia.
    destruct (renderLoop_keeps_a_canvas w c Hc HW' HH') as (c1 & E1).
    pose proof (renderLoop_keeps_context_clean R w c c1 Hc Hclean HW' HH' E1) as Hclean1.
    pose proof (surface_renderLoop w) as Hkeep.
    cbn [ticks] in Hc'. unfold bind in Hc'.
    destruct (renderLoop w) as [[] w1|e w1]; unfold canvas_of in E1; cbn [world_of] in *.
    + apply (IH w1 c1 cw ch E1); trivial.
      unfold beside_the_surface in Hkeep. injection Hkeep as _ _ _ _ _ -> _ _ _ _ _ _.
      exact Hk.
    + unfold canvas_of in Hc'. cbn in Hc'. rewrite E1 in Hc'. injection Hc' as <-.
      exact Hclean1.
Qed.

Lemma ticks_keep_context_clean_witness :
  let w := mounted (fresh_canvas 4 2) (clip 4 2) "blob:clip"
                   (with_field FChaos 1 defaultParams) (fun _ => 1 # 5) in
  clean no_raster (fresh_canvas 4 2)
  /\ exists c', canvas_of (ticks 3 w) = Some c' /\ clean no_raster c'.
Proof.
  cbv zeta. split; [apply clean_fresh|].
  eexists. split; [vm_compute; reflexivity|].
  apply (ticks_keep_context_clean no_raster 3
           (mounted (fresh_canvas 4 2) (clip 4 2) "blob:clip"
                    (with_field FChaos 1 defaultParams) (fun _ => 1 # 5))
           (fresh_canvas 4 2) 4 2 eq_refl eq_refl ltac:(discriminate) ltac:(discriminate)
           (clean_fresh no_raster 4 2)).
  vm_compute. reflexivity.
Defined.

(** X20.  The one way a tick throws.  With both handles present (and a
    surface of non-negative size) a tick throws exactly when no frame is
    ready, no source is configured and the surface has zero width or
    height; in every other case it returns, and then it has requested
    exactly one further frame and stored its handle in [animationRef]. *)
Theorem tick_throws_only_on_empty_noise w c v :
  canvasRef w = Some c -> videoRef w = Some v ->
  (0 <= width (fitted w c))%Z -> (0 <= height (fitted w c))%Z ->
  (returns (renderLoop w) = false <->
   ((readyState v <? 2)%Z = true /\ videoSrc w = ""%string
    /\ (width (fitted w c) = 0%Z \/ height (fitted w c) = 0%Z)))
  /\ (returns (renderLoop w) = true ->
      raf_pending (world_of (renderLoop w)) = raf_pending w ++ [raf_next w]
      /\ animationRef (world_of (renderLoop w)) = Some (raf_next w)).
Proof.
  intros Hc Hv HW HH.
  destruct (readyState v <? 2)%Z eqn:Hr.
  - destruct (String.eqb (videoSrc w) "") eqn:Hsrc.
    + apply String.eqb_eq in Hsrc.
      destruct ((width (fitted w c) =? 0) || (height (fitted w c) =? 0))%Z eqn:Hz.
      * rewrite (renderLoop_no_signal_empty_surface w c v Hc Hv Hr Hsrc Hz).
        cbn [returns]. split; [|discriminate]. split; [|reflexivity].
        intros _. split; [reflexivity|]. split; [exact Hsrc|].
        apply orb_true_iff in Hz as [Hz | Hz]; [left | right]; apply Z.eqb_eq, Hz.
      * apply orb_false_iff in Hz as [Hz1 Hz2]. apply Z.eqb_neq in Hz1, Hz2.
        rewrite (renderLoop_no_signal_noise w c v Hc Hv Hr Hsrc) by lia.
        cbn [returns world_of]. split.
        -- split; [discriminate|]. intros (_ & _ & [Hz | Hz]); contradiction.
        -- intros _. destruct w; split; reflexivity.
    + rewrite (renderLoop_no_signal_quiet w c v Hc Hv Hr Hsrc).
      cbn [returns world_of]. split.
      * split; [discriminate|]. intros (_ & Hs & _).
        rewrite Hs in Hsrc. discriminate.
      * intros _. destruct w; split; reflexivity.
  - destruct (renderLoop_ready w c v Hc Hv Hr) as (rest & m & E & _).
    rewrite E. cbn [returns world_of]. split.
    + split; [discriminate|]. intros (F & _). discriminate.
    + intros _. destruct w; split; reflexivity.
Qed.

Lemma tick_throws_only_on_empty_noise_witness :
  let w := mounted (fresh_canvas 4 2) no_signal "" defaultParams (fun _ => 1 # 5) in
  (0 <= width (fitted w (fresh_canvas 4 2)))%Z
  /\ returns (renderLoop w) = true
  /\ raf_pending (world_of (renderLoop w)) = [0%nat].
Proof.
  cbv zeta. split; [discriminate|]. split; [vm_compute; reflexivity|].
  exact (proj1 (proj2 (tick_throws_only_on_empty_noise
                         (mounted (fresh_canvas 4 2) no_signal "" defaultParams
                                  (fun _ => 1 # 5))
                         (fresh_canvas 4 2) no_signal eq_refl eq_refl
                         ltac:(discriminate) ltac:(discriminate))
                      ltac:(vm_compute; reflexivity))).
Defined.
